(** * certificate-transparency-go: fixchain hashes, fixchain Logger, scanner Fetcher

    A shallow embedding of
      - fixchain/hash.go     ([hash], [hashChain], [hashBag], [bag]),
      - fixchain/logger.go   ([Logger.QueueChain], [Logger.postChain],
                              [Logger.postServer], [NewLogger], and the
                              goroutines that run them, one access at a
                              time),
      - scanner/fetcher.go   ([Fetcher.Prepare], [Fetcher.genRanges],
                              [Fetcher.runWorker], [Fetcher.Run]),
    followed by the properties of these functions.

    Conventions.  A Go byte is a [Z] in [0, 256); a [[]byte] is a [list Z].
    [int64] and [uint32] values are [Z] with the wrap-around written out
    ([scanner.int64], [fixchain.AddUint32]).  A panic of the Go runtime
    (index out of range, nil dereference) is the result [None].  What a
    function gets from outside (the answers of the log, the state of the
    context, the scheduling of goroutines) is an argument of its model. *)

From Stdlib Require Import ZArith List Lia Bool Permutation Sorted String.
From stdpp Require Import base option list gmap sorting.

Local Open Scope Z_scope.

(** ** crypto/sha256 (Go standard library) *)

Module sha256.

(** [sha256.Size]: the size of a SHA-256 checksum in bytes. *)
Definition Size : nat := 32.

Definition w32 (x : Z) : Z := x mod 2 ^ 32.
Definition add32 (x y : Z) : Z := w32 (x + y).
Definition not32 (x : Z) : Z := Z.lxor x 0xffffffff.
Definition rotr (n x : Z) : Z :=
  Z.lor (Z.shiftr x n) (w32 (Z.shiftl x (32 - n))).

Definition Ch (x y z : Z) : Z := Z.lxor (Z.land x y) (Z.land (not32 x) z).
Definition Maj (x y z : Z) : Z :=
  Z.lxor (Z.lxor (Z.land x y) (Z.land x z)) (Z.land y z).
Definition bsig0 (x : Z) : Z := Z.lxor (Z.lxor (rotr 2 x) (rotr 13 x)) (rotr 22 x).
Definition bsig1 (x : Z) : Z := Z.lxor (Z.lxor (rotr 6 x) (rotr 11 x)) (rotr 25 x).
Definition ssig0 (x : Z) : Z := Z.lxor (Z.lxor (rotr 7 x) (rotr 18 x)) (Z.shiftr x 3).
Definition ssig1 (x : Z) : Z := Z.lxor (Z.lxor (rotr 17 x) (rotr 19 x)) (Z.shiftr x 10).

(** The round constants are the first 32 bits of the fractional parts of
    the cube roots of the first 64 primes; the initial hash value is made
    of the square roots of the first 8 primes in the same way. *)
Definition is_prime (n : nat) : bool :=
  forallb (fun d => negb (n mod d =? 0)%nat) (seq 2 (n - 2)).

Definition primes : list Z := map Z.of_nat (filter is_prime (seq 2 310)).

Definition cube_root (n : Z) : Z :=
  fold_left (fun r b => let r' := r + 2 ^ b in if r' * r' * r' <=? n then r' else r)
            (map (fun i => 34 - Z.of_nat i) (seq 0 35)) 0.

Definition K : list Z := map (fun p => w32 (cube_root (p * 2 ^ 96))) (take 64 primes).

Definition init : list Z := map (fun p => w32 (Z.sqrt (p * 2 ^ 64))) (take 8 primes).

Definition word (ws : list Z) (i : nat) : Z := nth i ws 0.

(** One round of the compression function on the working variables a..h. *)
Definition round (k w : Z) (s : list Z) : list Z :=
  let a := word s 0 in let b := word s 1 in let c := word s 2 in
  let d := word s 3 in let e := word s 4 in let f := word s 5 in
  let g := word s 6 in let h := word s 7 in
  let t1 := add32 (add32 (add32 (add32 h (bsig1 e)) (Ch e f g)) k) w in
  let t2 := add32 (bsig0 a) (Maj a b c) in
  [ add32 t1 t2; a; b; c; add32 d t1; e; f; g ].

(** The message schedule is kept as a window of the last sixteen words. *)
Definition schedule_next (w : list Z) : Z :=
  add32 (add32 (add32 (ssig1 (word w 14)) (word w 9)) (ssig0 (word w 1))) (word w 0).

Fixpoint rounds (ks : list Z) (w : list Z) (s : list Z) : list Z :=
  match ks with
  | [] => s
  | k :: ks' => rounds ks' (tl w ++ [schedule_next w]) (round k (word w 0) s)
  end.

Fixpoint be_words (bs : list Z) : list Z :=
  match bs with
  | b0 :: b1 :: b2 :: b3 :: rest =>
      (Z.shiftl b0 24 + Z.shiftl b1 16 + Z.shiftl b2 8 + b3) :: be_words rest
  | _ => []
  end.

Definition block (h : list Z) (bs : list Z) : list Z :=
  let s := rounds K (be_words bs) h in
  map (fun i => add32 (word h i) (word s i)) (seq 0 8).

Fixpoint blocks (n : nat) (h : list Z) (bs : list Z) : list Z :=
  match n with
  | O => h
  | S n' => blocks n' (block h (firstn 64 bs)) (skipn 64 bs)
  end.

Definition be_bytes (n : nat) (x : Z) : list Z :=
  map (fun i => Z.shiftr x (8 * Z.of_nat (n - 1 - i)) mod 256) (seq 0 n).

Definition pad (msg : list Z) : list Z :=
  let len := Z.of_nat (length msg) in
  msg ++ [0x80] ++ repeat 0 (Z.to_nat ((55 - len) mod 64)) ++ be_bytes 8 (8 * len).

(** [sha256.Sum256]. *)
Definition Sum256 (msg : list Z) : list Z :=
  let p := pad msg in
  flat_map (be_bytes 4) (blocks (length p / 64) init p).

(** The [hash.Hash] returned by [sha256.New]: the state is the data written
    so far.  [Write] adds data to the running hash; [Sum b] appends the
    current hash to [b] and returns the resulting slice, without changing
    the underlying state. *)
Record digest := { written : list Z }.

Definition New : digest := {| written := [] |}.
Definition Write (d : digest) (p : list Z) : digest :=
  {| written := written d ++ p |}.
Definition Sum (d : digest) (b : list Z) : list Z := b ++ Sum256 (written d).

End sha256.

(** ** x509 *)

Module x509.

(** Modelled from the spec: [x509.Certificate] (declared outside the files
    at hand), an immutable parsed X.509 blob, of which the hashes read the
    raw DER bytes only. *)
Record Certificate := { Raw : list Z }.

End x509.

(** ** fixchain/hash.go *)

Module fixchain.
Import x509.

Definition hashSize : nat := sha256.Size.
Definition newHash : sha256.digest := sha256.New.

(** Go's builtin [copy(dst, src)] on byte slices: the first
    [min(len(dst), len(src))] elements of [dst] are overwritten. *)
Definition copy (dst src : list Z) : list Z :=
  take (length dst) src ++ drop (length src) dst.

(** [func hash(c *x509.Certificate) (hash [hashSize]byte)] *)
Definition hash (c : Certificate) : list Z :=
  copy (replicate hashSize 0) (sha256.Sum newHash (Raw c)).

(** [func hashChain(ch []*x509.Certificate) (hash [hashSize]byte)] *)
Definition hashChain (ch : list Certificate) : list Z :=
  let h := fold_left (fun h c => sha256.Write h (sha256.Sum newHash (Raw c))) ch newHash in
  copy (replicate hashSize 0) (sha256.Sum h []).

#[global] Arguments hash _ : simpl never.
#[global] Arguments hashChain _ : simpl never.

(** *** Slices of certificate pointers

    [hashBag] sorts in place, so the backing arrays of
    [[]*x509.Certificate] slices live in a store.  An element is a
    pointer: [None] is the nil pointer, [Some c] points to the (immutable)
    certificate [c]. *)
Abbreviation addr := positive.
Record slice := { base : addr; off : nat; len : nat }.
Abbreviation store := (gmap addr (list (option Certificate))).

(** State and panic monad over the store. *)
Definition M (A : Type) : Type := store -> option (A * store).
Definition ret {A} (x : A) : M A := fun st => Some (x, st).
Definition bind {A B} (m : M A) (k : A -> M B) : M B :=
  fun st => match m st with
            | Some (x, st') => k x st'
            | None => None
            end.
Definition panic {A} : M A := fun _ => None.

Declare Scope go_scope.
Delimit Scope go_scope with go.
Notation "'do' x <- m ; k" := (bind m (fun x => k))
  (at level 10, x name, m at level 100, k at level 200) : go_scope.
Local Open Scope go_scope.

(** [s[i]] as an expression: bounds-checked against [len(s)]. *)
Definition index (s : slice) (i : nat) : M (option Certificate) :=
  fun st =>
    if (i <? len s)%nat then
      match st !! base s with
      | Some arr => match arr !! (off s + i)%nat with
                    | Some p => Some (p, st)
                    | None => None
                    end
      | None => None
      end
    else None.

(** [s[i] = p]. *)
Definition assign (s : slice) (i : nat) (p : option Certificate) : M unit :=
  fun st =>
    if (i <? len s)%nat then
      match st !! base s with
      | Some arr => if (off s + i <? length arr)%nat
                    then Some (tt, <[base s := <[(off s + i)%nat := p]> arr]> st)
                    else None
      | None => None
      end
    else None.

(** Dereferencing a certificate pointer ([c.Raw] on nil panics). *)
Definition deref (p : option Certificate) : M Certificate :=
  match p with
  | Some c => ret c
  | None => panic
  end.

(** [make([]*x509.Certificate, n)]: a fresh, nil-filled backing array. *)
Definition make (n : nat) : M slice :=
  fun st =>
    let a := fresh (dom st) in
    Some ({| base := a; off := 0; len := n |}, <[a := replicate n None]> st).

(** Reads [s[i]] for [i] in [idx], in order. *)
Fixpoint index_all (s : slice) (idx : list nat) : M (list (option Certificate)) :=
  match idx with
  | [] => ret []
  | i :: is' => do p <- index s i; do ps <- index_all s is'; ret (p :: ps)
  end.

(** Writes [ps] to [s[i]], [s[i+1]], ... *)
Fixpoint assign_from (s : slice) (i : nat) (ps : list (option Certificate)) : M unit :=
  match ps with
  | [] => ret tt
  | p :: ps' => do _ <- assign s i p; assign_from s (S i) ps'
  end.

(** Go's builtin [copy(dst, src)] on slices, with [memmove] semantics. *)
Definition copy_slice (dst src : slice) : M nat :=
  let n := Nat.min (len dst) (len src) in
  do ps <- index_all src (seq 0 n);
  do _ <- assign_from dst 0 ps;
  ret n.

(** [for _, c := range ch]: the certificates a slice points to, in order;
    panics on a nil element, as [c.Raw] does. *)
Fixpoint deref_all (ps : list (option Certificate)) : M (list Certificate) :=
  match ps with
  | [] => ret []
  | p :: ps' => do c <- deref p; do cs <- deref_all ps'; ret (c :: cs)
  end.

Definition load (s : slice) : M (list Certificate) :=
  do ps <- index_all s (seq 0 (len s)); deref_all ps.

(** *** [bag] and its [sort.Interface] methods *)

Record bag := { certs : slice }.

(** [func (b bag) Len() int] *)
Definition bag_Len (b : bag) : nat := len (certs b).

(** The loop of [bag.Less] over two raw encodings of equal length. *)
Fixpoint Less_loop (ci cj : list Z) : bool :=
  match ci, cj with
  | x :: ci', y :: cj' =>
      if x <? y then true
      else if x >? y then false
      else Less_loop ci' cj'
  | _, _ => false
  end.

Definition Less_raw (ci cj : list Z) : bool :=
  if negb (length ci =? length cj)%nat then (length ci <? length cj)%nat
  else Less_loop ci cj.

(** [func (b bag) Less(i, j int) bool] *)
Definition bag_Less (b : bag) (i j : nat) : M bool :=
  do pi <- index (certs b) i; do ci <- deref pi;
  do pj <- index (certs b) j; do cj <- deref pj;
  ret (Less_raw (Raw ci) (Raw cj)).

(** [func (b bag) Swap(i, j int)] *)
Definition bag_Swap (b : bag) (i j : nat) : M unit :=
  do t <- index (certs b) i;
  do u <- index (certs b) j;
  do _ <- assign (certs b) i u;
  assign (certs b) j t.

(** *** [sort.Sort]

    [sort.Sort(data)] touches [data] only through [Len], [Less] and [Swap].
    A sorting routine is therefore the tree of calls it makes, each [Less]
    branching on its answer. *)
Inductive sortProg :=
| Done
| CallLess (i j : nat) (k : bool -> sortProg)
| CallSwap (i j : nat) (k : sortProg).

(** Runs a sorting routine against a [bag]. *)
Fixpoint run (b : bag) (p : sortProg) : M unit :=
  match p with
  | Done => ret tt
  | CallLess i j k => do lt <- bag_Less b i j; run b (k lt)
  | CallSwap i j k => do _ <- bag_Swap b i j; run b k
  end.

(** [insertionSort(data, a, b)] of package sort: the inner loop
    [for j := i; j > a && data.Less(j, j-1); j-- { data.Swap(j, j-1) }]
    followed by [k]. *)
Fixpoint insertion_inner (a j : nat) (k : sortProg) : sortProg :=
  match j with
  | O => k
  | S j' =>
      if (a <? j)%nat
      then CallLess j j' (fun lt => if lt then CallSwap j j' (insertion_inner a j' k) else k)
      else k
  end.

Definition insertionSort (a b : nat) : sortProg :=
  fold_right (fun i k => insertion_inner a i k) Done (seq (a + 1) (b - (a + 1))).

(** [sort.Sort] on data of length [n], for the lengths at which package
    sort runs a plain insertion sort. *)
Definition insertion_Sort (n : nat) : sortProg := insertionSort 0 n.

Section hashBag.
(** The routine [sort.Sort] runs on data of a given length. *)
Variable sort_Sort : nat -> sortProg.

(** [func hashBag(chain []*x509.Certificate) [hashSize]byte] *)
Definition hashBag (chain : slice) : M (list Z) :=
  do cs <- make (len chain);
  let b := {| certs := cs |} in
  do _n <- copy_slice (certs b) chain;
  do _ <- run b (sort_Sort (bag_Len b));
  do l <- load (certs b);
  ret (hashChain l).
End hashBag.

(** *** Reading a store without the monad *)

(** [s[i]] in the store [st], if it can be read. *)
Definition peek (st : store) (s : slice) (i : nat) : option (option Certificate) :=
  if (i <? len s)%nat
  then st !! base s ≫= (fun arr => arr !! (off s + i)%nat)
  else None.

(** The certificates of the slice [s] in the store [st], if every element
    can be read and none is nil. *)
Definition contents (st : store) (s : slice) : option (list Certificate) :=
  mapM (peek st s) (seq 0 (len s)) ≫= mapM id.

(** What a sorting routine does to the certificates [l] of a bag. *)
Fixpoint interp (p : sortProg) (l : list Certificate) : option (list Certificate) :=
  match p with
  | Done => Some l
  | CallLess i j k =>
      match l !! i, l !! j with
      | Some ci, Some cj => interp (k (Less_raw (Raw ci) (Raw cj))) l
      | _, _ => None
      end
  | CallSwap i j k =>
      match l !! i, l !! j with
      | Some ci, Some cj => interp k (<[j := ci]> (<[i := cj]> l))
      | _, _ => None
      end
  end.

(** Ascending order as determined by [Less]: the later element is not
    less than the earlier one. *)
Definition ascending : relation Certificate :=
  fun a b => Less_raw (Raw b) (Raw a) = false.

(** The contract of [sort.Sort]: it sorts data in ascending order as
    determined by the [Less] method. *)
Definition sorts (sort_Sort : nat -> sortProg) : Prop :=
  forall l : list Certificate,
    exists l', interp (sort_Sort (length l)) l = Some l' /\ Sorted ascending l'.

(** A slice that spans its whole backing array. *)
Definition whole (a : addr) (n : nat) : slice := {| base := a; off := 0; len := n |}.

(** ** fixchain/logger.go *)

(** Modelled from the spec: [lockedMap] (declared outside the files at
    hand).  A mapping from 32-byte key to boolean behind one mutex; [get]
    returns false for absent keys, [set] inserts or overwrites. *)
Record lockedMap := { m : gmap (list Z) bool }.
Definition newLockedMap : lockedMap := {| m := ∅ |}.
Definition lockedMap_get (lm : lockedMap) (h : list Z) : bool :=
  default false (m lm !! h).
Definition lockedMap_set (lm : lockedMap) (h : list Z) (b : bool) : lockedMap :=
  {| m := <[h := b]> (m lm) |}.

(** Modelled from the spec: the closed enumeration [errorType] and the
    fields of [FixError] (declared outside the files at hand). *)
Inductive errorType :=
| None_ | ParseFailure | CannotFetchURL | BadURL
| FailedHTTPRequest | LogPostFailed | VerifyFailed | FixFailed.

Record FixError := {
  Type_ : errorType;
  URL : string;
  Chain : list Certificate;
  Error : string
}.

(** Modelled from the spec: [ct.ASN1Cert] (declared outside the files at
    hand), the DER bytes of one certificate of the chain given to
    [add-chain]. *)
Record ASN1Cert := { Data : list Z }.

(** Modelled from the spec: [client.AddLogClient] (declared outside the
    files at hand).  The remote log is seen as the record of the
    [AddChain] calls it has received.  The answer to a call is chosen by
    the log: [None] for an SCT, [Some e] for the error [e]. *)
Record AddLogClient := { addChainCalls : list (list ASN1Cert) }.

Definition AddChain (c : AddLogClient) (derChain : list ASN1Cert)
    (reply : option string) : AddLogClient * option string :=
  ({| addChainCalls := addChainCalls c ++ [derChain] |}, reply).

(** [type toPost struct] *)
Record toPost_t := { chain : list Certificate }.

(** [type Logger struct].  The channel [toPost] holds the sends that no
    [postServer] has received yet; the channel [errors] holds what has
    been sent to its consumer.  [ctx], [roots] and [limiter] carry no
    state of their own here. *)
Record Logger := {
  client : AddLogClient;
  toPost : list toPost_t;
  errors : list FixError;
  active : Z;
  queued : Z;
  posted : Z;
  reposted : Z;
  chainReposted : Z;
  wg : Z;
  postCertCache : lockedMap;
  postChainCache : lockedMap
}.

(** Field updates. *)
Definition with_client (l : Logger) v : Logger :=
  {| client := v; toPost := toPost l; errors := errors l; active := active l;
     queued := queued l; posted := posted l; reposted := reposted l;
     chainReposted := chainReposted l; wg := wg l;
     postCertCache := postCertCache l; postChainCache := postChainCache l |}.
Definition with_toPost (l : Logger) v : Logger :=
  {| client := client l; toPost := v; errors := errors l; active := active l;
     queued := queued l; posted := posted l; reposted := reposted l;
     chainReposted := chainReposted l; wg := wg l;
     postCertCache := postCertCache l; postChainCache := postChainCache l |}.
Definition with_errors (l : Logger) v : Logger :=
  {| client := client l; toPost := toPost l; errors := v; active := active l;
     queued := queued l; posted := posted l; reposted := reposted l;
     chainReposted := chainReposted l; wg := wg l;
     postCertCache := postCertCache l; postChainCache := postChainCache l |}.
Definition with_active (l : Logger) v : Logger :=
  {| client := client l; toPost := toPost l; errors := errors l; active := v;
     queued := queued l; posted := posted l; reposted := reposted l;
     chainReposted := chainReposted l; wg := wg l;
     postCertCache := postCertCache l; postChainCache := postChainCache l |}.
Definition with_queued (l : Logger) v : Logger :=
  {| client := client l; toPost := toPost l; errors := errors l;
     active := active l; queued := v; posted := posted l;
     reposted := reposted l; chainReposted := chainReposted l; wg := wg l;
     postCertCache := postCertCache l; postChainCache := postChainCache l |}.
Definition with_posted (l : Logger) v : Logger :=
  {| client := client l; toPost := toPost l; errors := errors l;
     active := active l; queued := queued l; posted := v;
     reposted := reposted l; chainReposted := chainReposted l; wg := wg l;
     postCertCache := postCertCache l; postChainCache := postChainCache l |}.
Definition with_reposted (l : Logger) v : Logger :=
  {| client := client l; toPost := toPost l; errors := errors l;
     active := active l; queued := queued l; posted := posted l;
     reposted := v; chainReposted := chainReposted l; wg := wg l;
     postCertCache := postCertCache l; postChainCache := postChainCache l |}.
Definition with_chainReposted (l : Logger) v : Logger :=
  {| client := client l; toPost := toPost l; errors := errors l;
     active := active l; queued := queued l; posted := posted l;
     reposted := reposted l; chainReposted := v; wg := wg l;
     postCertCache := postCertCache l; postChainCache := postChainCache l |}.
Definition with_wg (l : Logger) v : Logger :=
  {| client := client l; toPost := toPost l; errors := errors l;
     active := active l; queued := queued l; posted := posted l;
     reposted := reposted l; chainReposted := chainReposted l; wg := v;
     postCertCache := postCertCache l; postChainCache := postChainCache l |}.
Definition with_postCertCache (l : Logger) v : Logger :=
  {| client := client l; toPost := toPost l; errors := errors l;
     active := active l; queued := queued l; posted := posted l;
     reposted := reposted l; chainReposted := chainReposted l; wg := wg l;
     postCertCache := v; postChainCache := postChainCache l |}.
Definition with_postChainCache (l : Logger) v : Logger :=
  {| client := client l; toPost := toPost l; errors := errors l;
     active := active l; queued := queued l; posted := posted l;
     reposted := reposted l; chainReposted := chainReposted l; wg := wg l;
     postCertCache := postCertCache l; postChainCache := v |}.

(** [atomic.AddUint32(&x, delta)] *)
Definition AddUint32 (x delta : Z) : Z := (x + delta) mod 2 ^ 32.

(** [func (l *Logger) IsPosted(cert *x509.Certificate) bool] *)
Definition IsPosted (l : Logger) (cert : Certificate) : bool :=
  lockedMap_get (postCertCache l) (hash cert).

(** [func (l *Logger) postToLog(p *toPost)] *)
Definition postToLog (l : Logger) (p : toPost_t) : Logger :=
  let l := with_wg l (wg l + 1) in
  with_toPost l (toPost l ++ [p]).

(** [func (l *Logger) QueueChain(chain []*x509.Certificate)].  The
    argument [None] is the nil slice; [chain[0]] on an empty non-nil
    slice panics. *)
Definition QueueChain (l : Logger) (chain : option (list Certificate)) : option Logger :=
  match chain with
  | None => Some l
  | Some ch =>
      let l := with_queued l (AddUint32 (queued l) 1) in
      match ch with
      | [] => None
      | c0 :: _ =>
          let h := hash c0 in
          if lockedMap_get (postCertCache l) h then
            Some (with_reposted l (AddUint32 (reposted l) 1))
          else
            let h := hashChain ch in
            if lockedMap_get (postChainCache l) h then
              Some (with_chainReposted l (AddUint32 (chainReposted l) 1))
            else
              let l := with_postChainCache l (lockedMap_set (postChainCache l) h true) in
              Some (postToLog l {| chain := ch |})
      end
  end.

(** [func (l *Logger) postChain(p *toPost)].  [wait] is the result of
    [l.limiter.Wait] (an error is only logged); [reply] is the answer of
    the log to [AddChain], should it be called. *)
Definition postChain (l : Logger) (p : toPost_t)
    (wait reply : option string) : option Logger :=
  match chain p with
  | [] => None
  | c0 :: _ =>
      let h := hash c0 in
      if lockedMap_get (postCertCache l) h then
        Some (with_reposted l (AddUint32 (reposted l) 1))
      else
        let derChain := map (fun cert => {| Data := Raw cert |}) (chain p) in
        let l := with_posted l (AddUint32 (posted l) 1) in
        let '(cl, err) := AddChain (client l) derChain reply in
        let l := with_client l cl in
        match err with
        | Some err =>
            Some (with_errors l
                    (errors l ++ [ {| Type_ := LogPostFailed; URL := EmptyString;
                                      Chain := chain p;
                                      Error := String.append "add-chain failed: " err |} ]))
        | None =>
            Some (with_postCertCache l (lockedMap_set (postCertCache l) h true))
        end
  end.

(** [wg.Done()]: a negative counter panics. *)
Definition wg_Done (l : Logger) : option Logger :=
  if wg l - 1 <? 0 then None else Some (with_wg l (wg l - 1)).

(** One iteration of the loop of [func (l *Logger) postServer()], run by
    a worker that receives the [i]-th pending send on [l.toPost]. *)
Definition postServer (l : Logger) (i : nat) (wait reply : option string) : option Logger :=
  match toPost l !! i with
  | None => None
  | Some c =>
      let l := with_toPost l (delete i (toPost l)) in
      let l := with_active l (AddUint32 (active l) 1) in
      match postChain l c wait reply with
      | None => None
      | Some l =>
          let l := with_active l (AddUint32 (active l) (2 ^ 32 - 1)) in
          wg_Done l
      end
  end.

(** *** The goroutines of a Logger, and [NewLogger]

    Any number of goroutines call [QueueChain]; [NewLogger] starts
    [workerCount] goroutines that run [postServer]. *)

(** Where a goroutine stands inside [QueueChain(chain)], [chain] not nil,
    after [atomic.AddUint32(&l.queued, 1)]: the access it makes next.  As
    in [QueueChain], the certificates of a chain are not nil. *)
Inductive caller :=
| Counted (ch : list Certificate)     (* l.postCertCache.get(hash(chain[0])) *)
| CertHit (ch : list Certificate)     (* atomic.AddUint32(&l.reposted, 1) *)
| CertMiss (ch : list Certificate)    (* l.postChainCache.get(hashChain(chain)) *)
| ChainHit (ch : list Certificate)    (* atomic.AddUint32(&l.chainReposted, 1) *)
| ChainMiss (ch : list Certificate)   (* l.postChainCache.set(h, true) *)
| Recorded (ch : list Certificate)    (* l.wg.Add(1) *)
| Added (ch : list Certificate).      (* l.toPost <- p *)

(** Where a [postServer] goroutine stands: the access it makes next, with
    the [toPost] it has received and, once [postChain] has computed it,
    [h = hash(p.chain[0])].  In [Called p h] the worker has called
    [AddChain] and waits for the answer, which decides its next access. *)
Inductive worker :=
| Ready                       (* c := <-l.toPost *)
| Received (p : toPost_t)     (* atomic.AddUint32(&l.active, 1) *)
| Got (p : toPost_t)          (* l.postCertCache.get(hash(p.chain[0])) *)
| Hit (p : toPost_t)          (* atomic.AddUint32(&l.reposted, 1) *)
| Miss (p : toPost_t) (h : list Z)
                              (* l.limiter.Wait(l.ctx); atomic.AddUint32(&l.posted, 1) *)
| Posting (p : toPost_t) (h : list Z)
                              (* l.client.AddChain(l.ctx, derChain) *)
| Called (p : toPost_t) (h : list Z)
                              (* l.errors <- &FixError{...}, or l.postCertCache.set(h, true) *)
| Returned                    (* atomic.AddUint32(&l.active, ^uint32(0)) *)
| Leaving.                    (* l.wg.Done() *)

(** The Logger, the goroutines inside [QueueChain] and the pool of
    [postServer] goroutines. *)
Record system := {
  logger : Logger;
  callers : list caller;
  workers : list worker
}.

(** [func NewLogger(ctx, workerCount, errors, client, limiter, logStats)]:
    the Logger it returns and the [workerCount] goroutines it starts with
    [go l.postServer()] (none when [workerCount] is not positive).  The
    call [l.RootCerts()] fills [l.roots], see [RootCerts]: when it ends
    the process there is no Logger to speak of.  [logStats] only prints
    the counters. *)
Definition NewLogger (workerCount : Z) (cl : AddLogClient) : system :=
  {| logger :=
       {| client := cl; toPost := []; errors := [];
          active := 0; queued := 0; posted := 0; reposted := 0; chainReposted := 0;
          wg := 0; postCertCache := newLockedMap; postChainCache := newLockedMap |};
     callers := [];
     workers := replicate (Z.to_nat workerCount) Ready |}.

(** What can happen to a Logger: a caller queues a chain, or a
    [postServer] worker receives a pending chain and posts it. *)
Inductive step : Logger -> Logger -> Prop :=
| step_QueueChain l chain l' :
    QueueChain l chain = Some l' -> step l l'
| step_postServer l i wait reply l' :
    postServer l i wait reply = Some l' -> step l l'.

(** Two certificates whose encodings differ only after the first 32 bytes. *)
Definition cert_a : Certificate :=
  {| Raw := [0x30; 0x22] ++ map Z.of_nat (seq 1 32) ++ [0xaa; 0xbb] |}.
Definition cert_b : Certificate :=
  {| Raw := [0x30; 0x22] ++ map Z.of_nat (seq 1 32) ++ [0xcc; 0xdd] |}.

(** A store with two arrays: [cert_b; cert_a] at 1 and [cert_a; cert_b] at 2. *)
Definition store_ab : store :=
  <[1%positive := [Some cert_b; Some cert_a]]>
    (<[2%positive := [Some cert_a; Some cert_b]]> ∅).

(** The DER chain [postChain] builds from [p.chain]. *)
Definition der (ch : list Certificate) : list ASN1Cert :=
  map (fun cert => {| Data := Raw cert |}) ch.


(** The Logger [NewLogger] returns, for a log that has received no call
    yet. *)
Definition logger0 : Logger := logger (NewLogger 1 {| addChainCalls := [] |}).

(** *** The Logger and its goroutines, one access at a time

    Each access of a goroutine to a cache, a counter, the WaitGroup, a
    channel or the log is one step; between two of its accesses any other
    goroutine may act. *)

(** What the next access of a goroutine comes to: it is made, the
    goroutine blocks, or the Go runtime panics (index out of range,
    negative WaitGroup counter) and the process ends. *)
Inductive outcome (A : Type) :=
| Next (a : A)
| Blocked
| Panic.
Arguments Next {A} a.
Arguments Blocked {A}.
Arguments Panic {A}.

(** The next access of a goroutine inside [QueueChain]: the Logger after
    it and where the goroutine stands then ([None]: it makes no further
    access).  The send [l.toPost <- p] puts [p] among the pending sends of
    the channel, where the goroutine is parked until a [postServer]
    receives it. *)
Definition QueueChain_step (l : Logger) (c : caller) : outcome (Logger * option caller) :=
  match c with
  | Counted ch =>
      match ch with
      | [] => Panic
      | c0 :: _ =>
          if lockedMap_get (postCertCache l) (hash c0)
          then Next (l, Some (CertHit ch))
          else Next (l, Some (CertMiss ch))
      end
  | CertHit ch => Next (with_reposted l (AddUint32 (reposted l) 1), None)
  | CertMiss ch =>
      if lockedMap_get (postChainCache l) (hashChain ch)
      then Next (l, Some (ChainHit ch))
      else Next (l, Some (ChainMiss ch))
  | ChainHit ch => Next (with_chainReposted l (AddUint32 (chainReposted l) 1), None)
  | ChainMiss ch =>
      Next (with_postChainCache l (lockedMap_set (postChainCache l) (hashChain ch) true),
            Some (Recorded ch))
  | Recorded ch => Next (with_wg l (wg l + 1), Some (Added ch))
  | Added ch => Next (with_toPost l (toPost l ++ [ {| chain := ch |} ]), None)
  end.

(** The next access of a [postServer] goroutine.  From outside come [i],
    the pending send it receives when it is at [<-l.toPost], and [reply],
    the answer of the log when it waits for one ([None] for an SCT,
    [Some err] for an error).  A receive takes any of the pending sends.
    The consumer of [l.errors] is taken to receive what is sent, and
    [l.limiter] to let every waiter through. *)
Definition postServer_step (l : Logger) (w : worker) (i : nat) (reply : option string)
    : outcome (Logger * worker) :=
  match w with
  | Ready =>
      match toPost l !! i with
      | Some p => Next (with_toPost l (delete i (toPost l)), Received p)
      | None => Blocked
      end
  | Received p => Next (with_active l (AddUint32 (active l) 1), Got p)
  | Got p =>
      match chain p with
      | [] => Panic
      | c0 :: _ =>
          let h := hash c0 in
          if lockedMap_get (postCertCache l) h
          then Next (l, Hit p)
          else Next (l, Miss p h)
      end
  | Hit p => Next (with_reposted l (AddUint32 (reposted l) 1), Returned)
  | Miss p h => Next (with_posted l (AddUint32 (posted l) 1), Posting p h)
  | Posting p h =>
      Next (with_client l (fst (AddChain (client l) (der (chain p)) reply)), Called p h)
  | Called p h =>
      match reply with
      | Some err =>
          Next (with_errors l
                  (errors l ++ [ {| Type_ := LogPostFailed; URL := EmptyString;
                                    Chain := chain p;
                                    Error := String.append "add-chain failed: " err |} ]),
                Returned)
      | None =>
          Next (with_postCertCache l (lockedMap_set (postCertCache l) h true), Returned)
      end
  | Returned => Next (with_active l (AddUint32 (active l) (2 ^ 32 - 1)), Leaving)
  | Leaving =>
      match wg_Done l with
      | Some l' => Next (l', Ready)
      | None => Panic
      end
  end.

(** A step of a goroutine that is already running: one inside
    [QueueChain], or a [postServer]. *)
Inductive work : system -> system -> Prop :=
| w_caller l cs1 c cs2 ws l' c' :
    QueueChain_step l c = Next (l', c') ->
    work {| logger := l; callers := cs1 ++ c :: cs2; workers := ws |}
         {| logger := l'; callers := cs1 ++ option_list c' ++ cs2; workers := ws |}
| w_worker l cs ws1 w ws2 i reply l' w' :
    postServer_step l w i reply = Next (l', w') ->
    work {| logger := l; callers := cs; workers := ws1 ++ w :: ws2 |}
         {| logger := l'; callers := cs; workers := ws1 ++ w' :: ws2 |}.

(** A step of the system: a goroutine calls [QueueChain(chain)] with a
    chain that is not nil and counts it in [queued], or a running
    goroutine makes its next access. *)
Inductive sstep : system -> system -> Prop :=
| s_call l cs ws ch :
    sstep {| logger := l; callers := cs; workers := ws |}
          {| logger := with_queued l (AddUint32 (queued l) 1);
             callers := Counted ch :: cs; workers := ws |}
| s_work s s' : work s s' -> sstep s s'.

(** The system when [NewLogger] returns, for a log that has received no
    call yet. *)
Definition system0 (workerCount : Z) : system :=
  NewLogger workerCount {| addChainCalls := [] |}.

(** The steps of a system in which [QueueChain] is called by one goroutine
    at a time. *)
Definition one_caller (s : system) : Prop := (length (callers s) <= 1)%nat.
Definition sstep1 (s s' : system) : Prop := sstep s s' /\ one_caller s'.

(** Schedules: which goroutine acts next, and what it gets from outside. *)
Inductive action :=
| Call (ch : list Certificate)
| Caller (k : nat)
| Worker (k i : nat) (reply : option string).

Definition act (s : system) (a : action) : option system :=
  match a with
  | Call ch =>
      Some {| logger := with_queued (logger s) (AddUint32 (queued (logger s)) 1);
              callers := Counted ch :: callers s; workers := workers s |}
  | Caller k =>
      match callers s !! k with
      | Some c =>
          match QueueChain_step (logger s) c with
          | Next (l', c') =>
              Some {| logger := l';
                      callers := take k (callers s) ++ option_list c' ++ drop (S k) (callers s);
                      workers := workers s |}
          | _ => None
          end
      | None => None
      end
  | Worker k i reply =>
      match workers s !! k with
      | Some w =>
          match postServer_step (logger s) w i reply with
          | Next (l', w') =>
              Some {| logger := l'; callers := callers s;
                      workers := take k (workers s) ++ w' :: drop (S k) (workers s) |}
          | _ => None
          end
      | None => None
      end
  end.

Fixpoint schedule (s : system) (acts : list action) : option system :=
  match acts with
  | [] => Some s
  | a :: acts' =>
      match act s a with
      | Some s' => schedule s' acts'
      | None => None
      end
  end.

(** Runs of a schedule during which at most one goroutine is inside
    [QueueChain]. *)
Fixpoint schedule1 (s : system) (acts : list action) : option system :=
  match acts with
  | [] => Some s
  | a :: acts' =>
      match act s a with
      | Some s' => if (length (callers s') <=? 1)%nat then schedule1 s' acts' else None
      | None => None
      end
  end.

(** The Logger after [cert_a] alone has been queued, queued again, and
    posted with success. *)
Definition logger1 : Logger := default logger0 (QueueChain logger0 (Some [cert_a])).
Definition logger2 : Logger := default logger1 (QueueChain logger1 (Some [cert_a])).
Definition logger3 : Logger := default logger2 (postServer logger2 0 None None).

(** A Logger whose cert cache already has the leaf [cert_a]. *)
Definition logger_posted_a : Logger :=
  with_postCertCache logger0 (lockedMap_set newLockedMap (hash cert_a) true).

(** [func (l *Logger) Wait()]: [l.wg.Wait()] blocks until the counter of
    the WaitGroup is zero.  This is whether the call returns in the state
    [l]. *)
Definition Wait (l : Logger) : bool := wg l =? 0.

(** *** Bookkeeping of the Logger

    What the counters, the WaitGroup and the caches stand for, in terms
    of the goroutines of a [system]. *)

(** The [toPost] a worker holds. *)
Definition task (w : worker) : option toPost_t :=
  match w with
  | Received p | Got p | Hit p | Miss p _ | Posting p _ | Called p _ => Some p
  | Ready | Returned | Leaving => None
  end.

(** A caller between [l.wg.Add(1)] and its send. *)
Definition added (c : caller) : nat :=
  match c with Added _ => 1 | _ => 0 end.

(** A worker between its receive and [l.wg.Done()]. *)
Definition busy (w : worker) : nat :=
  match w with Ready => 0 | _ => 1 end.

(** A worker between its two updates of [l.active]. *)
Definition in_postChain (w : worker) : nat :=
  match w with
  | Got _ | Hit _ | Miss _ _ | Posting _ _ | Called _ _ | Returned => 1
  | Ready | Received _ | Leaving => 0
  end.

(** A worker that holds a chain it has counted neither in [reposted] nor
    in [posted] yet. *)
Definition got (w : worker) : nat :=
  match w with
  | Received _ | Got _ | Hit _ | Miss _ _ => 1
  | _ => 0
  end.

(** A worker between [atomic.AddUint32(&l.posted, 1)] and its call of
    [AddChain]; a worker that waits for the answer to its call. *)
Definition posting (w : worker) : nat :=
  match w with Posting _ _ => 1 | _ => 0 end.

Definition called (w : worker) : nat :=
  match w with Called _ _ => 1 | _ => 0 end.

(** The chain a caller was given. *)
Definition chain_of (c : caller) : list Certificate :=
  match c with
  | Counted ch | CertHit ch | CertMiss ch | ChainHit ch | ChainMiss ch
  | Recorded ch | Added ch => ch
  end.

(** [hash] of the first certificate of a DER chain given to [AddChain]. *)
Definition leaf_hash (derChain : list ASN1Cert) : option (list Z) :=
  match derChain with
  | [] => None
  | a :: _ => Some (hash {| Raw := Data a |})
  end.

(** What the counters count.  [wg]: the pending sends on [toPost], the
    callers about to send and the busy workers.  [active]: the workers
    inside [postChain].  [posted]: the [AddChain] calls made and those
    about to be made.  [queued]: whatever [reposted], [chainReposted] and
    [posted] count, the pending sends, the workers that have not counted
    their chain yet and the callers. *)
Definition counters_inv (s : system) : Prop :=
  let l := logger s in
  wg l = Z.of_nat (length (toPost l) + sum_list (map added (callers s)) +
                   sum_list (map busy (workers s))) /\
  active l = Z.of_nat (sum_list (map in_postChain (workers s))) mod 2 ^ 32 /\
  posted l = Z.of_nat (length (addChainCalls (client l)) +
                       sum_list (map posting (workers s))) mod 2 ^ 32 /\
  queued l =
    (reposted l + chainReposted l + posted l +
     Z.of_nat (length (toPost l) + sum_list (map got (workers s)) +
               length (callers s)))
    mod 2 ^ 32.

(** The [toPost] and the [h] of a worker that is past its lookup in
    [postCertCache]. *)
Definition past_lookup (w : worker) : option (toPost_t * list Z) :=
  match w with
  | Miss p h | Posting p h | Called p h => Some (p, h)
  | _ => None
  end.

(** What holds of the chains on their way: each has a leaf once
    [chain[0]] has been read; the [h] of a worker is the hash of the leaf
    of its chain; a worker that waits for an answer has its DER chain
    among the calls; every error sent is a [LogPostFailed] for
    a chain that was handed to [AddChain]; every hash in [postCertCache]
    is the leaf hash of a call; and there are no more outcomes than
    calls. *)
Definition posts_inv (s : system) : Prop :=
  let l := logger s in
  (forall p, p ∈ toPost l -> chain p <> []) /\
  (forall w p, w ∈ workers s -> task w = Some p -> chain p <> []) /\
  (forall w p h, w ∈ workers s -> past_lookup w = Some (p, h) ->
     leaf_hash (der (chain p)) = Some h) /\
  (forall p h, Called p h ∈ workers s -> der (chain p) ∈ addChainCalls (client l)) /\
  (forall c, c ∈ callers s -> (forall ch, c <> Counted ch) -> chain_of c <> []) /\
  Forall (fun e => Type_ e = LogPostFailed /\ URL e = EmptyString /\
                   der (Chain e) ∈ addChainCalls (client l)) (errors l) /\
  (forall h, lockedMap_get (postCertCache l) h = true ->
     exists d, d ∈ addChainCalls (client l) /\ leaf_hash d = Some h) /\
  (length (errors l) + sum_list (map called (workers s)) <=
   length (addChainCalls (client l)))%nat.





(** The [AddChain] calls made for chains whose leaf has the hash [h], and
    the workers that have read [postCertCache] for such a chain, found
    nothing, and have not called [AddChain] yet. *)
Definition for_leaf (h : list Z) (derChain : list ASN1Cert) : nat :=
  if decide (leaf_hash derChain = Some h) then 1 else 0.

Definition calls_for (h : list Z) (l : Logger) : nat :=
  sum_list (map (for_leaf h) (addChainCalls (client l))).

Definition missed (h : list Z) (w : worker) : nat :=
  match w with
  | Miss p _ | Posting p _ => for_leaf h (der (chain p))
  | _ => 0
  end.

(** The accesses left to the goroutines that are running, should every
    cache lookup miss: one for each state a goroutine has yet to go
    through, a pending send counting for the worker that will receive
    it. *)
Definition caller_backlog (c : caller) : nat :=
  match c with
  | Counted _ => 13
  | CertHit _ => 1
  | CertMiss _ => 12
  | ChainHit _ => 1
  | ChainMiss _ => 11
  | Recorded _ => 10
  | Added _ => 9
  end.

Definition worker_backlog (w : worker) : nat :=
  match w with
  | Ready => 0
  | Received _ => 7
  | Got _ => 6
  | Hit _ => 3
  | Miss _ _ => 5
  | Posting _ _ => 4
  | Called _ _ => 3
  | Returned => 2
  | Leaving => 1
  end.

Definition backlog (s : system) : nat :=
  (sum_list (map caller_backlog (callers s)) +
   8 * length (toPost (logger s)) +
   sum_list (map worker_backlog (workers s)))%nat.

(** *** Named states *)

(** A certificate with a short encoding. *)
Definition cert_c : Certificate := {| Raw := [0x30; 0x03; 0x01; 0x02; 0x03] |}.

(** A certificate whose encoding is that of [cert_c], the digest of the
    empty input, and that of [cert_c] again. *)
Definition cert_cc : Certificate :=
  {| Raw := Raw cert_c ++ sha256.Sum256 [] ++ Raw cert_c |}.


(** The system with one worker and the Logger [logger3], drained. *)
Definition system3 : system := {| logger := logger3; callers := []; workers := [Ready] |}.

(** Two goroutines call [QueueChain] with the chain [cert_a]; both find
    [postChainCache] empty before either sets it, both send, and the one
    worker posts the chain twice: the log refuses it the first time. *)
Definition overlap : list action :=
  [ Call [cert_a]; Call [cert_a];
    Caller 0; Caller 1; Caller 0; Caller 1;
    Caller 0; Caller 0; Caller 0; Caller 0; Caller 0; Caller 0;
    Worker 0 0 None; Worker 0 0 None; Worker 0 0 None; Worker 0 0 None;
    Worker 0 0 None; Worker 0 0 (Some "refused"%string); Worker 0 0 None; Worker 0 0 None;
    Worker 0 0 None; Worker 0 0 None; Worker 0 0 None; Worker 0 0 None;
    Worker 0 0 None ].

Definition system_overlap : system := default (system0 1) (schedule (system0 1) overlap).

(** Two chains with the leaf [cert_a] are queued, two workers receive one
    each and both find [postCertCache] empty; the first worker posts its
    chain and the log accepts it. *)
Definition two_posts : list action :=
  [ Call [cert_a]; Call [cert_a; cert_c];
    Caller 0; Caller 0; Caller 0; Caller 0; Caller 0;
    Caller 0; Caller 0; Caller 0; Caller 0; Caller 0;
    Worker 0 0 None; Worker 1 0 None; Worker 0 0 None; Worker 1 0 None;
    Worker 0 0 None; Worker 1 0 None;
    Worker 0 0 None; Worker 0 0 None; Worker 0 0 None ].

Definition system_posted_a : system :=
  default (system0 2) (schedule (system0 2) two_posts).

(** Then the second worker, which is past its lookup, posts its chain. *)
Definition late_call : list action := [ Worker 1 0 None; Worker 1 0 None ].

Definition system_late_call : system :=
  default system_posted_a (schedule system_posted_a late_call).

(** A Logger without workers to which [cert_a] has been queued. *)
Definition system_stuck : system :=
  default (system0 0)
    (schedule (system0 0)
       [ Call [cert_a]; Caller 0; Caller 0; Caller 0; Caller 0; Caller 0 ]).

(** *** [Logger.RootCerts] and [Logger.getRoots]

    The pool type, its constructor, [AddCert] and the parser belong to
    package x509: they are arguments of the model.  The parser gives the
    certificate pointer it returns and whether [x509.IsFatal] holds of
    its error. *)
Section RootCerts.
Variable CertPool : Type.
Variable NewCertPool : CertPool.
Variable AddCert : CertPool -> option Certificate -> CertPool.
Variable ParseCertificate : list Z -> option Certificate * bool.

(** The loop [for _, root := range roots] of [getRoots] on the pool [ret];
    [None] is the error return. *)
Fixpoint addRoots (ret : CertPool) (roots : list ASN1Cert) : option CertPool :=
  match roots with
  | [] => Some ret
  | root :: rest =>
      let '(r, fatal) := ParseCertificate (Data root) in
      if fatal then None else addRoots (AddCert ret r) rest
  end.

(** [func (l *Logger) getRoots()], given the answer of the log to
    [GetAcceptedRoots] ([None] is an error); [None] is the error return. *)
Definition getRoots (answer : option (list ASN1Cert)) : option CertPool :=
  match answer with
  | None => None
  | Some roots => addRoots NewCertPool roots
  end.

(** The loop [for i := 0; i < 10; i++] of [RootCerts] with [n] turns to
    go, [i] calls of [getRoots] made so far and [answers j] the answer of
    the log to the [j]-th of them: the pool returned ([None] when the loop
    runs out and [log.Fatalf] ends the process) and the number of calls
    made. *)
Fixpoint RootCerts_loop (answers : nat -> option (list ASN1Cert)) (n i : nat)
    : option CertPool * nat :=
  match n with
  | O => (None, i)
  | S n' =>
      match getRoots (answers i) with
      | Some roots => (Some roots, S i)
      | None => RootCerts_loop answers n' (S i)
      end
  end.

(** [func (l *Logger) RootCerts()] on the field [l.roots] ([None] is nil):
    the pool returned, the field after the call, and the number of
    [GetAcceptedRoots] calls made. *)
Definition RootCerts (roots : option CertPool) (answers : nat -> option (list ASN1Cert))
    : option CertPool * option CertPool * nat :=
  match roots with
  | Some r => (Some r, roots, 0%nat)
  | None =>
      let '(res, calls) := RootCerts_loop answers 10 0 in
      (res, res, calls)
  end.
End RootCerts.

(** ** fixchain/functions_test.go: [matchTestErrorList] *)

#[global] Instance errorType_eq_dec : EqDecision errorType.
Proof. solve_decision. Defined.

(** The inner loop of [matchTestErrorList] for an output error of type
    [ty]: the first expected type that is not yet seen and equals [ty] is
    marked as seen; [None] when the loop ends without a match. *)
Fixpoint markSeen (ty : errorType) (want : list errorType) (seen : list bool)
    : option (list bool) :=
  match want, seen with
  | expErr :: want', s :: seen' =>
      if s then cons s <$> markSeen ty want' seen'
      else if bool_decide (ty = expErr) then Some (true :: seen')
      else cons s <$> markSeen ty want' seen'
  | _, _ => None
  end.

(** The loop over the output errors: the number of [t.Errorf] calls and
    the final [seen]. *)
Fixpoint matchErrs (want : list errorType) (got : list FixError) (seen : list bool)
    : nat * list bool :=
  match got with
  | [] => (0%nat, seen)
  | err :: got' =>
      match markSeen (Type_ err) want seen with
      | Some seen' => matchErrs want got' seen'
      | None => let '(n, seen') := matchErrs want got' seen in (S n, seen')
      end
  end.

(** [func matchTestErrorList(t, i, want, got)]: the number of [t.Errorf]
    calls it makes, on output errors that are not nil. *)
Definition matchTestErrorList (want : list errorType) (got : list FixError) : nat :=
  let n0 := if (length want =? length got)%nat then 0%nat else 1%nat in
  let '(n1, seen) := matchErrs want got (replicate (length want) false) in
  (n0 + n1 + length (filter (fun val => val = false) seen))%nat.

(** The expected types that are not yet seen. *)
Fixpoint unmatched (want : list errorType) (seen : list bool) : list errorType :=
  match want, seen with
  | expErr :: want', s :: seen' =>
      if s then unmatched want' seen' else expErr :: unmatched want' seen'
  | _, _ => []
  end.

End fixchain.

(** ** scanner/fetcher.go *)

Module scanner.

(** Conversion to [int64]: two's complement wrap-around. *)
Definition int64 (x : Z) : Z := (x + 2 ^ 63) mod 2 ^ 64 - 2 ^ 63.
Definition add64 (a b : Z) : Z := int64 (a + b).
Definition sub64 (a b : Z) : Z := int64 (a - b).

(** Modelled from the spec: [ct.SignedTreeHead], of which the Fetcher reads
    the tree size (a [uint64]), and [ct.LeafEntry], the bytes of one entry
    ([LeafInput], [ExtraData]); both are declared outside the files at
    hand. *)
Record SignedTreeHead := { TreeSize : Z }.
Definition LeafEntry : Type := list Z * list Z.

(** [type FetcherOptions struct]; [int] is 64 bits wide. *)
Record FetcherOptions := {
  BatchSize : Z;
  ParallelFetch : Z;
  StartIndex : Z;
  EndIndex : Z;
  Continuous : bool
}.

(** [func DefaultFetcherOptions() *FetcherOptions] *)
Definition DefaultFetcherOptions : FetcherOptions :=
  {| BatchSize := 1000; ParallelFetch := 1; StartIndex := 0; EndIndex := 0;
     Continuous := false |}.

(** [type Fetcher struct]: the options and the cached STH. *)
Record Fetcher := { opts : FetcherOptions; sth : option SignedTreeHead }.

(** [type EntryBatch struct] *)
Record EntryBatch := { Start : Z; Entries : list LeafEntry }.

(** [type fetchRange struct], both ends inclusive. *)
Record fetchRange := { start : Z; end_ : Z }.

(** [func NewFetcher(client LogClient, opts *FetcherOptions) *Fetcher] *)
Definition NewFetcher (o : FetcherOptions) : Fetcher := {| opts := o; sth := None |}.

(** [func min(a, b int64) int64] *)
Definition min (a b : Z) : Z := if a <? b then a else b.

(** What the surroundings of one [Run] decide: the answer to [GetSTH] in
    [Prepare] ([None] is an error); whether [ctx.Done()] wins the select
    at the [n]-th turn of the range generator; the result of [updateSTH]
    at that turn ([None] is an error, [Some e] the new [EndIndex]); which
    worker receives the [i]-th range; and per worker, at the [k]-th turn of
    its inner loop, whether [ctx.Err()] is non-nil and what
    [bo.Retry(GetRawEntries)] yields ([None] is an error). *)
Record env := {
  GetSTH : option SignedTreeHead;
  genDone : nat -> bool;
  updateSTH : nat -> Z -> option Z;
  recv : nat -> nat;
  ctxErr : nat -> nat -> bool;
  GetRawEntries : nat -> nat -> Z -> Z -> option (list LeafEntry)
}.

(** [func (f *Fetcher) Prepare(ctx)], returning the STH or an error ([None]). *)
Definition Prepare (f : Fetcher) (e : env) : Fetcher * option SignedTreeHead :=
  match sth f with
  | Some s => (f, Some s)
  | None =>
      match GetSTH e with
      | None => (f, None)
      | Some s =>
          let size := int64 (TreeSize s) in
          let o := opts f in
          let o' :=
            if (EndIndex o =? 0) || (EndIndex o >? size)
            then {| BatchSize := BatchSize o; ParallelFetch := ParallelFetch o;
                    StartIndex := StartIndex o; EndIndex := size;
                    Continuous := Continuous o |}
            else o in
          ({| opts := o'; sth := Some s |}, Some s)
      end
  end.

(** The loop of the goroutine started by [genRanges], at its [n]-th turn
    with the loop variables [start] and [end].  The result is the ranges
    sent on the channel and whether the channel has been closed; with no
    fuel left the generator is still running. *)
Fixpoint genRanges_loop (e : env) (continuous : bool) (batch : Z)
    (fuel n : nat) (start_ end' : Z) : list fetchRange * bool :=
  match fuel with
  | O => ([], false)
  | S fuel' =>
      if (start_ <? end') || continuous then
        match (if start_ =? end' then updateSTH e n end' else Some end') with
        | None => ([], true)
        | Some end'' =>
            let batchEnd := add64 start_ (min (sub64 end'' start_) batch) in
            let next := {| start := start_; end_ := sub64 batchEnd 1 |} in
            if genDone e n then ([], true)
            else
              let '(rs, closed) :=
                genRanges_loop e continuous batch fuel' (S n) batchEnd end'' in
              (next :: rs, closed)
        end
      else ([], true)
  end.

(** [func (f *Fetcher) genRanges(ctx) <-chan fetchRange] *)
Definition genRanges (f : Fetcher) (e : env) (fuel : nat) : list fetchRange * bool :=
  let batch := int64 (BatchSize (opts f)) in
  genRanges_loop e (Continuous (opts f)) batch fuel 0
    (StartIndex (opts f)) (EndIndex (opts f)).

Inductive status := Running | Cancelled | Completed.

(** The inner loop [for r.start <= r.end] of [runWorker], run by worker
    [w] at its [k]-th turn: the final status, the next turn and the
    batches handed to [fn]. *)
Fixpoint runRange (e : env) (w : nat) (fuel k : nat) (r : fetchRange)
    : status * nat * list EntryBatch :=
  match fuel with
  | O => (Running, k, [])
  | S fuel' =>
      if start r <=? end_ r then
        if ctxErr e w k then (Cancelled, k, [])
        else
          match GetRawEntries e w k (start r) (end_ r) with
          | None => runRange e w fuel' (S k) r
          | Some entries =>
              let b := {| Start := start r; Entries := entries |} in
              let r' := {| start := add64 (start r) (int64 (Z.of_nat (length entries)));
                           end_ := end_ r |} in
              let '(st, k', bs) := runRange e w fuel' (S k) r' in
              (st, k', b :: bs)
          end
      else (Completed, k, [])
  end.

(** [func (f *Fetcher) runWorker(ctx, ranges, fn)] on the ranges this
    worker receives before the channel is closed. *)
Fixpoint runWorker (e : env) (w : nat) (fuel k : nat) (ranges : list fetchRange)
    : status * list EntryBatch :=
  match ranges with
  | [] => (Completed, [])
  | r :: rs =>
      let '(st, k', bs) := runRange e w fuel k r in
      match st with
      | Completed =>
          let '(st', bs') := runWorker e w fuel k' rs in (st', bs ++ bs')
      | _ => (st, bs)
      end
  end.

(** The ranges worker [w] of [cnt] receives: the [i]-th range goes to
    worker [recv i mod cnt]. *)
Fixpoint received (e : env) (cnt w : nat) (i : nat) (ranges : list fetchRange)
    : list fetchRange :=
  match ranges with
  | [] => []
  | r :: rs =>
      if (recv e i mod cnt =? w)%nat
      then r :: received e cnt w (S i) rs
      else received e cnt w (S i) rs
  end.

Definition returned (st : status) : bool :=
  match st with Running => false | _ => true end.

(** [func (f *Fetcher) Run(ctx, fn) error].  [None]: [Run] has not
    returned with this fuel.  Otherwise the Fetcher, whether an error is
    returned, and for each worker the batches it handed to [fn], in
    order. *)
Definition Run (f : Fetcher) (e : env) (fuel : nat)
    : option (Fetcher * bool * list (list EntryBatch)) :=
  let '(f', r) := Prepare f e in
  match r with
  | None => Some (f', true, [])
  | Some _ =>
      let cnt := Z.to_nat (ParallelFetch (opts f')) in
      if (cnt =? 0)%nat then Some (f', false, [])
      else
        let '(ranges, closed) := genRanges f' e fuel in
        let outs := map (fun w => runWorker e w fuel 0 (received e cnt w 0 ranges)) (seq 0 cnt) in
        if closed && forallb (fun o => returned (fst o)) outs
        then Some (f', false, map snd outs)
        else None
  end.

(** The index span [[Start, Start+len(Entries))] of a batch. *)
Definition covers (i : Z) (b : EntryBatch) : bool :=
  (Start b <=? i) && (i <? Start b + Z.of_nat (length (Entries b))).

Definition in_range (i : Z) (r : fetchRange) : bool :=
  (start r <=? i) && (i <=? end_ r).

(** An [int64] value. *)
Definition is_int64 (x : Z) : Prop := - 2 ^ 63 <= x < 2 ^ 63.

(** The ranges [rs] tile the indices from [s] up to but excluding [e], each
    holding between one and [batch] indices. *)
Fixpoint tiles (batch : Z) (s : Z) (rs : list fetchRange) (e : Z) : Prop :=
  match rs with
  | [] => s = e
  | r :: rs' =>
      start r = s /\ s <= end_ r /\ end_ r - s + 1 <= batch /\
      tiles batch (end_ r + 1) rs' e
  end.

(** How many of the batches [bs] cover the index [i], and how many of the
    ranges [rs] hold it. *)
Definition cover (i : Z) (bs : list EntryBatch) : nat :=
  length (filter (fun b => covers i b = true) bs).

Definition rcover (i : Z) (rs : list fetchRange) : nat :=
  length (filter (fun r => in_range i r = true) rs).

(** A range of int64 indices that ends before the largest int64 and holds
    fewer than 2^63 indices, as every range from [genRanges] does. *)
Definition good_range (r : fetchRange) : Prop :=
  is_int64 (start r) /\ end_ r < 2 ^ 63 - 1 /\ end_ r - start r + 1 < 2 ^ 63.

(** What is assumed of the log and of the context, for worker [w]: the
    context is never cancelled, every request is answered without error
    after finitely many attempts, and an answer to a request for
    [[s, e]] holds between 1 and [e - s + 1] entries. *)
Definition well_served (e : env) (w : nat) : Prop :=
  (forall k, ctxErr e w k = false) /\
  (forall k s en, exists d, GetRawEntries e w (k + d) s en <> None) /\
  (forall k s en es, s <= en -> GetRawEntries e w k s en = Some es ->
     1 <= Z.of_nat (length es) <= en - s + 1).

(** Surroundings in which nothing is cancelled, the log has 25 entries and
    answers every request in full. *)
Definition env_quiet : env :=
  {| GetSTH := Some {| TreeSize := 25 |};
     genDone := fun _ => false;
     updateSTH := fun _ _ => None;
     recv := fun i => i;
     ctxErr := fun _ _ => false;
     GetRawEntries := fun _ _ s e => Some (replicate (Z.to_nat (e - s + 1)) ([], [])) |}.

(** Surroundings in which every other request fails and an answer holds at
    most 4 entries. *)
Definition env_partial : env :=
  {| GetSTH := Some {| TreeSize := 25 |};
     genDone := fun _ => false;
     updateSTH := fun _ _ => None;
     recv := fun i => i;
     ctxErr := fun _ _ => false;
     GetRawEntries := fun _ k s e =>
       if Nat.even k then None
       else Some (replicate (Z.to_nat (Z.min 4 (e - s + 1))) ([], [])) |}.

(** Surroundings in which the first answer to a worker holds no entry and
    the later ones are complete. *)
Definition env_empty_once : env :=
  {| GetSTH := Some {| TreeSize := 25 |};
     genDone := fun _ => false;
     updateSTH := fun _ _ => None;
     recv := fun i => i;
     ctxErr := fun _ _ => false;
     GetRawEntries := fun _ k s e =>
       if (k =? 0)%nat then Some []
       else Some (replicate (Z.to_nat (e - s + 1)) ([], [])) |}.

(** A new Fetcher for the indices from 3 to the end of the log, in batches
    of 10, with two workers. *)
Definition fetcher_new : Fetcher :=
  NewFetcher {| BatchSize := 10; ParallelFetch := 2; StartIndex := 3;
                EndIndex := 0; Continuous := false |}.

(** A Fetcher without workers. *)
Definition fetcher_idle : Fetcher :=
  {| opts := {| BatchSize := 10; ParallelFetch := 0; StartIndex := 3;
                EndIndex := 25; Continuous := false |};
     sth := Some {| TreeSize := 25 |} |}.

(** A Fetcher prepared for the indices 3 to 24 in batches of 10, with two
    workers. *)
Definition fetcher_3_25 : Fetcher :=
  {| opts := {| BatchSize := 10; ParallelFetch := 2; StartIndex := 3;
                EndIndex := 25; Continuous := false |};
     sth := Some {| TreeSize := 25 |} |}.

(** A Fetcher whose index span is wider than an int64. *)
Definition fetcher_wide : Fetcher :=
  {| opts := {| BatchSize := 1000; ParallelFetch := 1; StartIndex := -1;
                EndIndex := 2 ^ 63 - 1; Continuous := false |};
     sth := Some {| TreeSize := 2 ^ 63 - 1 |} |}.

(** *** [Fetcher.updateSTH] *)

(** Conversion to [uint64]. *)
Definition uint64 (x : Z) : Z := x mod 2 ^ 64.

(** What the [n]-th attempt of [f.sthBackoff.Retry] in [updateSTH] meets:
    whether the context is done before the attempt (then [Retry] returns
    the error of the context), the answer to [GetSTH] ([None] is an error),
    and whether the attempt comes before [quickDeadline]. *)
Record sthAttempt := {
  ctxDone : bool;
  gotSTH : option SignedTreeHead;
  quick : bool
}.

Definition with_EndIndex (o : FetcherOptions) (v : Z) : FetcherOptions :=
  {| BatchSize := BatchSize o; ParallelFetch := ParallelFetch o;
     StartIndex := StartIndex o; EndIndex := v; Continuous := Continuous o |}.

(** The test [sth.TreeSize <= lastSize || quick && sth.TreeSize < targetSize]
    under which the attempt is to be retried. *)
Definition tooSmall (lastSize targetSize : Z) (q : bool) (s : SignedTreeHead) : bool :=
  (TreeSize s <=? lastSize) || (q && (TreeSize s <? targetSize)).

(** [f.sthBackoff.Retry(ctx, func() error {...})] from its [n]-th attempt
    on: the Fetcher and whether an error is returned; [None] when the
    fuel runs out before [Retry] returns. *)
Fixpoint Retry_updateSTH (f : Fetcher) (lastSize targetSize : Z)
    (att : nat -> sthAttempt) (fuel n : nat) : option (Fetcher * bool) :=
  match fuel with
  | O => None
  | S fuel' =>
      if ctxDone (att n) then Some (f, true)
      else
        match gotSTH (att n) with
        | None => Retry_updateSTH f lastSize targetSize att fuel' (S n)
        | Some s =>
            if tooSmall lastSize targetSize (quick (att n)) s
            then Retry_updateSTH f lastSize targetSize att fuel' (S n)
            else Some ({| opts := with_EndIndex (opts f) (int64 (TreeSize s));
                          sth := Some s |}, false)
        end
  end.

(** [func (f *Fetcher) updateSTH(ctx) error] *)
Definition Fetcher_updateSTH (f : Fetcher) (att : nat -> sthAttempt) (fuel : nat)
    : option (Fetcher * bool) :=
  let lastSize := uint64 (EndIndex (opts f)) in
  let targetSize := uint64 (lastSize + uint64 (BatchSize (opts f))) in
  Retry_updateSTH f lastSize targetSize att fuel 0.

(** An attempt that ends [Retry]: the context is done, or the STH is big
    enough. *)
Definition decisive (lastSize targetSize : Z) (a : sthAttempt) : bool :=
  ctxDone a ||
  match gotSTH a with
  | Some s => negb (tooSmall lastSize targetSize (quick a) s)
  | None => false
  end.

(** What [updateSTH] ensures of the [EndIndex] it sets, when the old one
    is not negative and the tree has fewer than 2^63 leaves: the new
    [EndIndex] is a bigger int64. *)
Definition growing (e : env) : Prop :=
  forall n en en', updateSTH e n en = Some en' ->
    en < en' /\ en' < 2 ^ 63 /\ en' - en < 2 ^ 63.

(** The log never answers a request for [[s, en]] with more than
    [en - s + 1] entries. *)
Definition bounded_answers (e : env) (w : nat) : Prop :=
  forall k s en es, s <= en -> GetRawEntries e w k s en = Some es ->
    Z.of_nat (length es) <= en - s + 1.

(** A log whose first answer to [GetSTH] fails, whose second has 29
    leaves before the quick deadline and whose later ones have 33 and
    more after it. *)
Definition log_grows : nat -> sthAttempt := fun n =>
  {| ctxDone := false;
     gotSTH := if (n =? 0)%nat then None else Some {| TreeSize := 25 + 4 * Z.of_nat n |};
     quick := (n <? 2)%nat |}.

(** Surroundings in which the range generator is cancelled at its third
    turn while the context of the workers stays live. *)
Definition env_stopped : env :=
  {| GetSTH := Some {| TreeSize := 25 |};
     genDone := fun n => (2 <=? n)%nat;
     updateSTH := fun _ _ => None;
     recv := fun i => i;
     ctxErr := fun _ _ => false;
     GetRawEntries := fun _ _ s e => Some (replicate (Z.to_nat (e - s + 1)) ([], [])) |}.

(** Surroundings in which the context of the workers is cancelled after
    their first request and an answer holds at most 4 entries. *)
Definition env_cancelled : env :=
  {| GetSTH := Some {| TreeSize := 25 |};
     genDone := fun _ => false;
     updateSTH := fun _ _ => None;
     recv := fun i => i;
     ctxErr := fun _ k => (1 <=? k)%nat;
     GetRawEntries := fun _ _ s e =>
       Some (replicate (Z.to_nat (Z.min 4 (e - s + 1))) ([], [])) |}.

(** Surroundings in which the tree grows by 15 leaves at every
    [updateSTH]. *)
Definition env_growing : env :=
  {| GetSTH := Some {| TreeSize := 25 |};
     genDone := fun _ => false;
     updateSTH := fun _ en => if en <? 2 ^ 62 then Some (en + 15) else None;
     recv := fun i => i;
     ctxErr := fun _ _ => false;
     GetRawEntries := fun _ _ s e => Some (replicate (Z.to_nat (e - s + 1)) ([], [])) |}.

(** Surroundings in which the log answers every request with zero
    entries. *)
Definition env_always_empty : env :=
  {| GetSTH := Some {| TreeSize := 25 |};
     genDone := fun _ => false;
     updateSTH := fun _ _ => None;
     recv := fun i => i;
     ctxErr := fun _ _ => false;
     GetRawEntries := fun _ _ _ _ => Some [] |}.

(** [fetcher_3_25] in continuous mode, and a new Fetcher with
    [BatchSize = 0]. *)
Definition fetcher_continuous : Fetcher :=
  {| opts := {| BatchSize := 10; ParallelFetch := 2; StartIndex := 3;
                EndIndex := 25; Continuous := true |};
     sth := Some {| TreeSize := 25 |} |}.

Definition fetcher_zero_batch : Fetcher :=
  NewFetcher {| BatchSize := 0; ParallelFetch := 2; StartIndex := 3;
                EndIndex := 0; Continuous := false |}.

End scanner.

(** * Properties *)

(** ** The model of crypto/sha256 against the FIPS 180-4 test vectors *)

Example sha256_empty :
  sha256.Sum256 [] =
  [0xe3;0xb0;0xc4;0x42;0x98;0xfc;0x1c;0x14;0x9a;0xfb;0xf4;0xc8;0x99;0x6f;0xb9;0x24;
   0x27;0xae;0x41;0xe4;0x64;0x9b;0x93;0x4c;0xa4;0x95;0x99;0x1b;0x78;0x52;0xb8;0x55].
Proof. vm_compute. reflexivity. Qed.

Example sha256_abc :
  sha256.Sum256 [0x61; 0x62; 0x63] =
  [0xba;0x78;0x16;0xbf;0x8f;0x01;0xcf;0xea;0x41;0x41;0x40;0xde;0x5d;0xae;0x22;0x23;
   0xb0;0x03;0x61;0xa3;0x96;0x17;0x7a;0x9c;0xb4;0x10;0xff;0x61;0xf2;0x00;0x15;0xad].
Proof. vm_compute. reflexivity. Qed.

(** Two blocks: the 56-byte message abcdbcdecdefdefg...nopq. *)
Example sha256_two_blocks :
  sha256.Sum256
    (flat_map (fun i => map (fun j => 0x61 + Z.of_nat (i + j)) (seq 0 4)) (seq 0 14)) =
  [0x24;0x8d;0x6a;0x61;0xd2;0x06;0x38;0xb8;0xe5;0xc0;0x26;0x93;0x0c;0x3e;0x60;0x39;
   0xa3;0x3c;0xe4;0x59;0x64;0xff;0x21;0x67;0xf6;0xec;0xed;0xd4;0x19;0xdb;0x06;0xc1].
Proof. vm_compute. reflexivity. Qed.

Example sha256_constants :
  length sha256.K = 64%nat /\ nth 0 sha256.K 0 = 0x428a2f98 /\
  nth 63 sha256.K 0 = 0xc67178f2 /\
  length sha256.init = 8%nat /\ nth 0 sha256.init 0 = 0x6a09e667 /\
  nth 7 sha256.init 0 = 0x5be0cd19.
Proof. vm_compute. repeat split. Qed.

Lemma Sum256_empty_length : length (sha256.Sum256 []) = 32%nat.
Proof. vm_compute. reflexivity. Qed.

(** ** fixchain: [hash] *)

Section hash_facts.
Import x509 fixchain.

(** [newHash().Sum(c.Raw)] appends the digest of the empty input to the
    raw encoding; [copy] keeps the first 32 bytes of that. *)
Lemma hash_unfold (c : Certificate) :
  hash c = take 32 (Raw c ++ sha256.Sum256 []).
Proof.
  unfold hash, copy, sha256.Sum, newHash, sha256.New, hashSize, sha256.Size.
  simpl sha256.written.
  rewrite length_replicate, drop_ge; [apply app_nil_r |].
  rewrite length_replicate, length_app, Sum256_empty_length. lia.
Qed.

Lemma hash_prefix (c : Certificate) :
  (32 <= length (Raw c))%nat -> hash c = take 32 (Raw c).
Proof.
  intros H. rewrite hash_unfold, take_app_le by lia. reflexivity.
Qed.

Lemma hash_length (c : Certificate) : length (hash c) = 32%nat.
Proof.
  rewrite hash_unfold, length_take, length_app, Sum256_empty_length. lia.
Qed.

(** C1 (the code departs from the claim).  On [cert_a], whose encoding is
    36 bytes long, [hash] returns the first 32 bytes of the encoding, which
    is not the SHA-256 digest of the encoding; [cert_b], which differs from
    [cert_a] in the last two bytes only, gets the same [hash]. *)
Theorem hash_is_not_sha256_of_raw :
  hash cert_a = take 32 (Raw cert_a) /\
  hash cert_a <> sha256.Sum256 (Raw cert_a) /\
  cert_a <> cert_b /\ hash cert_a = hash cert_b.
Proof.
  split; [vm_compute; reflexivity |].
  split; [vm_compute; discriminate |].
  split; [vm_compute; discriminate |].
  vm_compute; reflexivity.
Qed.

End hash_facts.

(** ** fixchain: slices in the store, [bag], [sort.Sort] and [hashBag] *)

Section store_facts.
Import x509 fixchain.
Local Open Scope go_scope.

Lemma index_peek (s : slice) (i : nat) (st : store) :
  index s i st = (fun p => (p, st)) <$> peek st s i.
Proof.
  unfold index, peek. destruct (i <? len s)%nat; [|reflexivity].
  destruct (st !! base s) as [arr|]; [|reflexivity]. cbn.
  destruct (arr !! (off s + i)%nat); reflexivity.
Qed.

Lemma index_all_peek (s : slice) (idx : list nat) (st : store) :
  index_all s idx st = (fun ps => (ps, st)) <$> mapM (peek st s) idx.
Proof.
  induction idx as [|i idx IH]; [reflexivity|].
  cbn. unfold bind. rewrite index_peek.
  destruct (peek st s i) as [p|]; [|reflexivity]. cbn.
  rewrite IH. destruct (mapM (peek st s) idx); reflexivity.
Qed.

Lemma deref_all_mapM (ps : list (option Certificate)) (st : store) :
  deref_all ps st = (fun l => (l, st)) <$> mapM id ps.
Proof.
  induction ps as [|[c|] ps IH]; [reflexivity| |reflexivity].
  cbn. unfold bind, ret. cbn. rewrite IH.
  destruct (mapM id ps); reflexivity.
Qed.

Lemma load_contents (s : slice) (st : store) :
  load s st = (fun l => (l, st)) <$> contents st s.
Proof.
  unfold load, contents, bind. rewrite index_all_peek.
  destruct (mapM (peek st s) (seq 0 (len s))) as [ps|]; [|reflexivity].
  cbn. apply deref_all_mapM.
Qed.

Lemma mapM_id_Some (l : list Certificate) : mapM id (Some <$> l) = Some l.
Proof. apply mapM_Some. induction l; constructor; auto. Qed.

Lemma mapM_id_inv (ps : list (option Certificate)) (l : list Certificate) :
  mapM id ps = Some l -> ps = Some <$> l.
Proof.
  intros H%mapM_Some. induction H as [|p c ps l Hp H IH]; [reflexivity|].
  cbn in *. subst. reflexivity.
Qed.

Lemma peek_whole (st : store) (a : addr) (arr : list (option Certificate)) (i : nat) :
  st !! a = Some arr -> peek st (whole a (length arr)) i = arr !! i.
Proof.
  intros H. unfold peek, whole; cbn [base off len]. rewrite H.
  destruct (Nat.ltb_spec i (length arr)); [reflexivity|].
  symmetry. apply lookup_ge_None. lia.
Qed.

Lemma mapM_lookup_seq {A} (arr : list A) :
  mapM (fun i => arr !! i) (seq 0 (length arr)) = Some arr.
Proof.
  apply mapM_Some. apply Forall2_same_length_lookup. split.
  - rewrite length_seq. reflexivity.
  - intros i x y Hx Hy. apply lookup_seq in Hx as [-> _]. exact Hy.
Qed.

Lemma mapM_ext_in {A B} (f g : A -> option B) (l : list A) :
  (forall x, x ∈ l -> f x = g x) -> mapM f l = mapM g l.
Proof.
  induction l as [|x l IH]; intros H; [reflexivity|].
  cbn. rewrite (H x) by constructor. rewrite IH; [reflexivity|].
  intros y Hy. apply H. now constructor.
Qed.

Lemma contents_whole (st : store) (a : addr) (l : list Certificate) :
  st !! a = Some (Some <$> l) ->
  contents st (whole a (length l)) = Some l.
Proof.
  intros H. unfold contents.
  replace (length l) with (length (Some <$> l)) by apply length_fmap.
  rewrite (mapM_ext_in _ (fun i => (Some <$> l) !! i)).
  2:{ intros i _. apply peek_whole. exact H. }
  cbn [whole len]. rewrite mapM_lookup_seq. cbn. apply mapM_id_Some.
Qed.

(** Reading a slice depends on its backing array only. *)
Lemma contents_same_array (st st' : store) (s : slice) :
  (len s = 0%nat \/ st' !! base s = st !! base s) ->
  contents st' s = contents st s.
Proof.
  intros [H|H]; unfold contents.
  - rewrite H. reflexivity.
  - f_equal. apply mapM_ext_in. intros i _. unfold peek. rewrite H. reflexivity.
Qed.

Lemma contents_allocated (st : store) (s : slice) (l : list Certificate) :
  contents st s = Some l -> len s = 0%nat \/ base s ∈ dom st.
Proof.
  intros H. destruct (len s) as [|n] eqn:E; [auto|]. right.
  destruct (st !! base s) eqn:Hb; [apply elem_of_dom; eauto|].
  unfold contents in H. rewrite E in H. cbn [seq mapM] in H.
  assert (Hp : peek st s 0 = None).
  { unfold peek. rewrite Hb. destruct (_ <? _)%nat; reflexivity. }
  rewrite Hp in H. discriminate.
Qed.

Lemma contents_length (st : store) (s : slice) (l : list Certificate) :
  contents st s = Some l -> length l = len s.
Proof.
  unfold contents. intros H.
  destruct (mapM (peek st s) (seq 0 (len s))) as [ps|] eqn:E; [|discriminate].
  cbn in H. apply length_mapM in E. apply length_mapM in H.
  rewrite length_seq in E. lia.
Qed.
End store_facts.

Section store_writes.
Import x509 fixchain.
Local Open Scope go_scope.

Lemma assign_whole (st : store) (a : addr) (arr : list (option Certificate))
    (i : nat) (p : option Certificate) :
  st !! a = Some arr -> (i < length arr)%nat ->
  assign (whole a (length arr)) i p st = Some (tt, <[a := <[i := p]> arr]> st).
Proof.
  intros H Hi. unfold assign, whole; cbn [base off len]. rewrite H.
  destruct (Nat.ltb_spec i (length arr)); [|lia].
  destruct (Nat.ltb_spec (0 + i) (length arr)); [|lia]. reflexivity.
Qed.

Lemma assign_whole_oob (st : store) (a : addr) (n i : nat) (p : option Certificate) :
  (n <= i)%nat -> assign (whole a n) i p st = None.
Proof.
  intros Hi. unfold assign, whole; cbn [base off len].
  destruct (Nat.ltb_spec i n); [lia | reflexivity].
Qed.

(** [assign] writes to the backing array of its slice only. *)
Lemma assign_frame (s : slice) (i : nat) (p : option Certificate) (st st' : store) (u : unit) :
  assign s i p st = Some (u, st') ->
  forall a, a <> base s -> st' !! a = st !! a.
Proof.
  unfold assign. intros H a Ha.
  destruct (_ <? _)%nat; [|discriminate].
  destruct (st !! base s) as [arr|]; [|discriminate].
  destruct (_ <? _)%nat; [|discriminate].
  inversion H; subst. apply lookup_insert_ne. congruence.
Qed.

Lemma assign_from_whole (ps arr : list (option Certificate)) (st : store) (a : addr) (i : nat) :
  st !! a = Some arr -> (i + length ps <= length arr)%nat ->
  assign_from (whole a (length arr)) i ps st =
  Some (tt, <[a := take i arr ++ ps ++ drop (i + length ps) arr]> st).
Proof.
  revert arr st i. induction ps as [|p ps IH]; intros arr st i H Hlen.
  - cbn. unfold ret. rewrite Nat.add_0_r, take_drop, insert_id by exact H. reflexivity.
  - cbn [assign_from]. unfold bind. cbn [length] in Hlen.
    rewrite (assign_whole st a arr i p H) by lia.
    pose proof (IH (<[i:=p]> arr) (<[a:=<[i:=p]> arr]> st) (S i)) as IH'.
    rewrite length_insert in IH'. rewrite IH'.
    2:{ apply lookup_insert_eq. }
    2:{ lia. }
    rewrite insert_insert_eq. do 2 f_equal. f_equal.
    rewrite (take_S_r _ _ p).
    2:{ apply list_lookup_insert_eq. lia. }
    rewrite take_insert_ge by lia. rewrite drop_insert_lt by lia.
    rewrite <- app_assoc. cbn.
    replace (i + S (length ps))%nat with (S (i + length ps)) by lia. reflexivity.
Qed.

Lemma assign_from_frame (s : slice) (ps : list (option Certificate)) (i : nat)
    (st st' : store) (u : unit) :
  assign_from s i ps st = Some (u, st') ->
  forall a, a <> base s -> st' !! a = st !! a.
Proof.
  revert i st. induction ps as [|p ps IH]; intros i st H a Ha.
  - inversion H; subst. reflexivity.
  - cbn [assign_from] in H. unfold bind in H.
    destruct (assign s i p st) as [[[] st1]|] eqn:E; [|discriminate].
    rewrite (IH _ _ H a Ha). eapply assign_frame; eauto.
Qed.

Lemma bag_Less_whole (st : store) (a : addr) (l : list Certificate) (i j : nat) :
  st !! a = Some (Some <$> l) ->
  bag_Less {| certs := whole a (length l) |} i j st =
  match l !! i, l !! j with
  | Some ci, Some cj => Some (Less_raw (Raw ci) (Raw cj), st)
  | _, _ => None
  end.
Proof.
  intros H. unfold bag_Less, bind. cbn [certs].
  replace (length l) with (length (Some <$> l)) by apply length_fmap.
  rewrite index_peek, (peek_whole _ _ _ _ H), list_lookup_fmap.
  destruct (l !! i) as [ci|]; [|reflexivity]. cbn.
  rewrite index_peek, (peek_whole _ _ _ _ H), list_lookup_fmap.
  destruct (l !! j) as [cj|]; reflexivity.
Qed.

Lemma bag_Swap_whole (st : store) (a : addr) (l : list Certificate) (i j : nat) :
  st !! a = Some (Some <$> l) ->
  bag_Swap {| certs := whole a (length l) |} i j st =
  match l !! i, l !! j with
  | Some ci, Some cj => Some (tt, <[a := Some <$> <[j := ci]> (<[i := cj]> l)]> st)
  | _, _ => None
  end.
Proof.
  intros H. unfold bag_Swap, bind. cbn [certs].
  replace (length l) with (length (Some <$> l)) by apply length_fmap.
  rewrite index_peek, (peek_whole _ _ _ _ H), list_lookup_fmap.
  destruct (l !! i) as [ci|] eqn:Hi; [|reflexivity]. cbn.
  rewrite index_peek, (peek_whole _ _ _ _ H), list_lookup_fmap.
  destruct (l !! j) as [cj|] eqn:Hj; [|reflexivity]. cbn.
  apply lookup_lt_Some in Hi, Hj.
  rewrite (assign_whole st a _ i (Some cj) H) by (rewrite length_fmap; lia).
  pose proof (assign_whole (<[a:=<[i:=Some cj]> (Some <$> l)]> st) a
                (<[i:=Some cj]> (Some <$> l)) j (Some ci)) as H2.
  rewrite length_insert in H2. rewrite H2.
  2:{ apply lookup_insert_eq. }
  2:{ rewrite length_fmap; lia. }
  rewrite insert_insert_eq, !list_fmap_insert. reflexivity.
Qed.

Lemma bag_Swap_frame (b : bag) (i j : nat) (st st' : store) (u : unit) :
  bag_Swap b i j st = Some (u, st') ->
  forall a, a <> base (certs b) -> st' !! a = st !! a.
Proof.
  unfold bag_Swap, bind. rewrite index_peek. intros H a Ha.
  destruct (peek st (certs b) i) as [t|]; [|discriminate]. cbn in H.
  rewrite index_peek in H.
  destruct (peek st (certs b) j) as [v|]; [|discriminate]. cbn in H.
  destruct (assign (certs b) i v st) as [[[] st1]|] eqn:E1; [|discriminate].
  rewrite (assign_frame _ _ _ _ _ _ H a Ha). eapply assign_frame; eauto.
Qed.

Lemma bag_Less_frame (b : bag) (i j : nat) (st st' : store) (r : bool) :
  bag_Less b i j st = Some (r, st') -> st' = st.
Proof.
  unfold bag_Less, bind. rewrite index_peek. intros H.
  destruct (peek st (certs b) i) as [[ci|]|]; try discriminate. cbn in H.
  rewrite index_peek in H.
  destruct (peek st (certs b) j) as [[cj|]|]; try discriminate. cbn in H.
  inversion H; reflexivity.
Qed.

(** Running a sorting routine against a bag that spans the array at [a]. *)
Lemma run_interp (p : sortProg) (st : store) (a : addr) (l : list Certificate) :
  st !! a = Some (Some <$> l) ->
  run {| certs := whole a (length l) |} p st =
  match interp p l with
  | Some l' => Some (tt, <[a := Some <$> l']> st)
  | None => None
  end.
Proof.
  revert st l. induction p as [|i j k IH|i j k IH]; intros st l H.
  - cbn. unfold ret. rewrite insert_id by exact H. reflexivity.
  - cbn [run interp]. unfold bind. rewrite (bag_Less_whole _ _ _ _ _ H).
    destruct (l !! i) as [ci|]; [|reflexivity].
    destruct (l !! j) as [cj|]; [|reflexivity].
    apply IH. exact H.
  - cbn [run interp]. unfold bind. rewrite (bag_Swap_whole _ _ _ _ _ H).
    destruct (l !! i) as [ci|]; [|reflexivity].
    destruct (l !! j) as [cj|]; [|reflexivity].
    pose proof (IH (<[a:=Some <$> <[j:=ci]> (<[i:=cj]> l)]> st) (<[j:=ci]> (<[i:=cj]> l))) as IH'.
    rewrite !length_insert in IH'. rewrite IH' by apply lookup_insert_eq.
    destruct (interp k _); [|reflexivity].
    rewrite insert_insert_eq. reflexivity.
Qed.

(** A sorting routine writes to the backing array of the bag only. *)
Lemma run_frame (p : sortProg) (b : bag) (st st' : store) (u : unit) :
  run b p st = Some (u, st') ->
  forall a, a <> base (certs b) -> st' !! a = st !! a.
Proof.
  revert st. induction p as [|i j k IH|i j k IH]; intros st H a Ha.
  - inversion H; reflexivity.
  - cbn [run] in H. unfold bind in H.
    destruct (bag_Less b i j st) as [[r st1]|] eqn:E; [|discriminate].
    apply bag_Less_frame in E as ->. eapply IH; eauto.
  - cbn [run] in H. unfold bind in H.
    destruct (bag_Swap b i j st) as [[[] st1]|] eqn:E; [|discriminate].
    rewrite (IH _ H a Ha). eapply bag_Swap_frame; eauto.
Qed.

(** A sorting routine permutes. *)
Lemma interp_Permutation (p : sortProg) (l l' : list Certificate) :
  interp p l = Some l' -> l' ≡ₚ l.
Proof.
  revert l. induction p as [|i j k IH|i j k IH]; intros l H.
  - inversion H; reflexivity.
  - cbn in H. destruct (l !! i); [|discriminate]. destruct (l !! j); [|discriminate].
    eapply IH; eauto.
  - cbn in H. destruct (l !! i) eqn:Hi; [|discriminate].
    destruct (l !! j) eqn:Hj; [|discriminate].
    rewrite (IH _ H). apply Permutation_insert_swap; assumption.
Qed.
End store_writes.

Section hashBag_facts.
Import x509 fixchain.
Local Open Scope go_scope.

Lemma contents_inv (st : store) (s : slice) (l : list Certificate) :
  contents st s = Some l ->
  mapM (peek st s) (seq 0 (len s)) = Some (Some <$> l).
Proof.
  unfold contents. intros H.
  destruct (mapM (peek st s) (seq 0 (len s))) as [ps|]; [|discriminate].
  cbn in H. apply mapM_id_inv in H. congruence.
Qed.

Lemma fresh_not_allocated (st : store) : st !! fresh (dom st) = None.
Proof. apply not_elem_of_dom. apply is_fresh. Qed.

(** [hashBag] on a slice holding the certificates [l]: the result is
    [hashChain] of what the sorting routine makes of [l], and the store
    gains one array, the sorted copy. *)
Lemma hashBag_spec (sort_Sort : nat -> sortProg) (st : store) (chain : slice)
    (l : list Certificate) :
  contents st chain = Some l ->
  hashBag sort_Sort chain st =
  match interp (sort_Sort (length l)) l with
  | Some l' => Some (hashChain l', <[fresh (dom st) := Some <$> l']> st)
  | None => None
  end.
Proof.
  intros Hc.
  pose proof (contents_length _ _ _ Hc) as Hlen.
  pose proof (contents_allocated _ _ _ Hc) as Halloc.
  pose proof (contents_inv _ _ _ Hc) as Hps.
  pose proof (fresh_not_allocated st) as Hfresh.
  set (a := fresh (dom st)) in *.
  set (st1 := <[a := replicate (len chain) None]> st).
  assert (Hread : index_all chain (seq 0 (len chain)) st1 = Some (Some <$> l, st1)).
  { rewrite index_all_peek.
    rewrite (mapM_ext_in _ (peek st chain)).
    - rewrite Hps. reflexivity.
    - intros i Hi. unfold peek. destruct Halloc as [H0|Hd].
      + rewrite H0. reflexivity.
      + unfold st1. rewrite lookup_insert_ne; [reflexivity|].
        intros ->. apply elem_of_dom in Hd as [x Hx]. congruence. }
  unfold hashBag, bind, make. fold a. fold st1.
  unfold copy_slice, bind. cbn [certs len]. rewrite Nat.min_id, Hread.
  unfold bag_Len. cbn [certs len]. subst st1. clear Hread Hps Halloc Hc.
  rewrite <- Hlen. clear Hlen.
  change {| base := a; off := 0; len := length l |} with (whole a (length l)).
  pose proof (assign_from_whole (Some <$> l) (replicate (length l) None)
                (<[a:=replicate (length l) None]> st) a 0) as Hw.
  rewrite length_replicate, length_fmap in Hw.
  rewrite Hw; [| apply lookup_insert_eq | lia].
  clear Hw. cbn [take app]. rewrite drop_ge by (rewrite length_replicate; lia).
  rewrite app_nil_r, insert_insert_eq. unfold ret.
  rewrite (run_interp _ _ a l) by apply lookup_insert_eq.
  destruct (interp (sort_Sort (length l)) l) as [l'|] eqn:Hi; [|reflexivity].
  rewrite insert_insert_eq, load_contents.
  apply interp_Permutation in Hi. apply Permutation_length in Hi.
  rewrite <- Hi.
  rewrite (contents_whole _ a l') by apply lookup_insert_eq. reflexivity.
Qed.

(** Whatever the sorting routine, [hashBag] writes to no array that was
    allocated before the call. *)
Lemma hashBag_frame (sort_Sort : nat -> sortProg) (st st' : store) (chain : slice)
    (h : list Z) :
  hashBag sort_Sort chain st = Some (h, st') ->
  forall a, a ∈ dom st -> st' !! a = st !! a.
Proof.
  unfold hashBag, bind, make. set (a0 := fresh (dom st)).
  unfold copy_slice, bind. cbn [certs].
  intros H a Ha.
  assert (Hne : a <> a0).
  { intros ->. apply elem_of_dom in Ha as [x Hx].
    pose proof (fresh_not_allocated st). unfold a0 in Hx. congruence. }
  rewrite index_all_peek in H.
  destruct (mapM _ _) as [ps|]; [|discriminate]. cbn in H.
  destruct (assign_from _ 0 ps _) as [[[] st2]|] eqn:E2; [|discriminate].
  unfold ret in H.
  destruct (run _ _ st2) as [[[] st3]|] eqn:E3; [|discriminate].
  rewrite load_contents in H.
  destruct (contents st3 _) as [l'|]; [|discriminate]. cbn in H.
  inversion H; subst.
  rewrite (run_frame _ _ _ _ _ E3 a) by exact Hne.
  rewrite (assign_from_frame _ _ _ _ _ _ E2 a) by exact Hne.
  apply lookup_insert_ne. congruence.
Qed.
End hashBag_facts.

Section Less_order.
Import x509 fixchain.

Lemma Less_loop_negtrans (c b a : list Z) :
  length c = length b -> length b = length a ->
  Less_loop c a = true -> Less_loop c b = true \/ Less_loop b a = true.
Proof.
  revert b a. induction c as [|x c IH]; intros [|y b] [|z a] Hcb Hba; cbn;
    try discriminate; try (simpl in *; lia).
  rewrite !Z.gtb_ltb.
  destruct (Z.ltb_spec x z), (Z.ltb_spec z x), (Z.ltb_spec x y),
           (Z.ltb_spec y x), (Z.ltb_spec y z), (Z.ltb_spec z y);
    try lia; auto; try discriminate.
  all: try (apply IH; simpl in *; lia).
Qed.

Lemma Less_loop_antisym (a b : list Z) :
  length a = length b ->
  Less_loop a b = false -> Less_loop b a = false -> a = b.
Proof.
  revert b. induction a as [|x a IH]; intros [|y b] Hlen; cbn;
    try discriminate; [reflexivity|].
  rewrite !Z.gtb_ltb.
  destruct (Z.ltb_spec x y), (Z.ltb_spec y x); try lia; try discriminate.
  intros H1 H2. assert (x = y) by lia. subst. f_equal.
  apply IH; simpl in *; auto; lia.
Qed.

Lemma Less_loop_asym (a b : list Z) :
  Less_loop a b = true -> Less_loop b a = false.
Proof.
  revert b. induction a as [|x a IH]; intros [|y b]; cbn; try discriminate.
  rewrite !Z.gtb_ltb.
  destruct (Z.ltb_spec x y), (Z.ltb_spec y x); try lia; try discriminate; auto.
Qed.

(** [Less] is a strict total order on raw encodings: shorter first, then
    byte by byte. *)
Lemma Less_raw_negtrans (c b a : list Z) :
  Less_raw c a = true -> Less_raw c b = true \/ Less_raw b a = true.
Proof.
  unfold Less_raw.
  destruct (Nat.eqb_spec (length c) (length a)),
           (Nat.eqb_spec (length c) (length b)),
           (Nat.eqb_spec (length b) (length a)); cbn [negb];
    intros H; rewrite ?Nat.ltb_lt in *;
    first [ lia | left; lia | right; lia
          | apply Less_loop_negtrans; assumption ].
Qed.

Lemma Less_raw_antisym (a b : list Z) :
  Less_raw a b = false -> Less_raw b a = false -> a = b.
Proof.
  unfold Less_raw.
  destruct (Nat.eqb_spec (length a) (length b)),
           (Nat.eqb_spec (length b) (length a)); cbn [negb];
    intros H1 H2; rewrite ?Nat.ltb_ge in *;
    first [ lia | apply Less_loop_antisym; assumption ].
Qed.

Lemma Less_raw_asym (a b : list Z) :
  Less_raw a b = true -> Less_raw b a = false.
Proof.
  unfold Less_raw.
  destruct (Nat.eqb_spec (length a) (length b)),
           (Nat.eqb_spec (length b) (length a)); cbn [negb];
    intros H; rewrite ?Nat.ltb_lt, ?Nat.ltb_ge in *;
    first [ lia | apply Less_loop_asym; assumption ].
Qed.

Lemma Less_raw_irrefl (a : list Z) : Less_raw a a = false.
Proof.
  destruct (Less_raw a a) eqn:E; [|reflexivity].
  apply Less_raw_asym in E as E'. congruence.
Qed.

#[local] Instance ascending_trans : Transitive ascending.
Proof.
  intros a b c Hab Hbc. unfold ascending in *.
  destruct (Less_raw (Raw c) (Raw a)) eqn:E; [|reflexivity].
  apply (Less_raw_negtrans _ (Raw b)) in E as [E|E]; congruence.
Qed.

#[local] Instance ascending_antisym : AntiSymm (=) ascending.
Proof.
  intros [a] [b] Hab Hba. unfold ascending in *; cbn in *.
  f_equal. apply Less_raw_antisym; assumption.
Qed.

#[local] Instance ascending_refl : Reflexive ascending.
Proof. intros a. apply Less_raw_irrefl. Qed.

(** Two sorted arrangements of the same certificates are equal. *)
Lemma ascending_unique (l1 l2 : list Certificate) :
  Sorted ascending l1 -> Sorted ascending l2 -> l1 ≡ₚ l2 -> l1 = l2.
Proof. apply Sorted_unique; typeclasses eauto. Qed.
End Less_order.

Section insertion_sort.
Import x509 fixchain.

Lemma insertion_inner_spec (k : sortProg) (pre : list Certificate) :
  forall (x : Certificate) (post : list Certificate),
  exists A B,
    pre = A ++ B /\
    Forall (fun b => Less_raw (Raw x) (Raw b) = true) B /\
    (A = [] \/ exists A' y, A = A' ++ [y] /\ Less_raw (Raw x) (Raw y) = false) /\
    interp (insertion_inner 0 (length pre) k) (pre ++ x :: post) =
    interp k (A ++ x :: B ++ post).
Proof.
  induction pre as [|y pre IH] using rev_ind; intros x post.
  - exists [], []. repeat split; auto.
  - rewrite length_app. cbn [length]. rewrite Nat.add_1_r.
    cbn [insertion_inner Nat.ltb Nat.leb interp].
    rewrite <- app_assoc. cbn [app].
    assert (H1 : (pre ++ y :: x :: post) !! S (length pre) = Some x).
    { rewrite lookup_app_r by lia.
      replace (S (length pre) - length pre)%nat with 1%nat by lia. reflexivity. }
    assert (H0 : (pre ++ y :: x :: post) !! length pre = Some y).
    { apply list_lookup_middle. reflexivity. }
    rewrite H1, H0.
    destruct (Less_raw (Raw x) (Raw y)) eqn:E.
    + cbn [interp]. rewrite H1, H0.
      assert (Hsw : <[length pre := x]> (<[S (length pre) := y]> (pre ++ y :: x :: post))
                    = pre ++ x :: y :: post).
      { rewrite !insert_app_r_alt by lia.
        replace (S (length pre) - length pre)%nat with 1%nat by lia.
        rewrite Nat.sub_diag. reflexivity. }
      rewrite Hsw.
      destruct (IH x (y :: post)) as (A & B & Hpre & HB & HA & Hint).
      exists A, (B ++ [y]). split; [rewrite Hpre, app_assoc; reflexivity|].
      split; [apply Forall_app; split; [exact HB | constructor; [exact E | constructor]]|].
      split; [exact HA|].
      rewrite Hint, <- app_assoc. reflexivity.
    + exists (pre ++ [y]), []. split; [rewrite app_nil_r; reflexivity|].
      split; [constructor|]. split; [right; eauto|].
      rewrite <- app_assoc. reflexivity.
Qed.

Lemma ascending_insert (A B : list Certificate) (x : Certificate) :
  StronglySorted ascending (A ++ B) ->
  Forall (fun b => Less_raw (Raw x) (Raw b) = true) B ->
  (A = [] \/ exists A' y, A = A' ++ [y] /\ Less_raw (Raw x) (Raw y) = false) ->
  StronglySorted ascending (A ++ x :: B).
Proof.
  intros Hs HB HA.
  apply StronglySorted_app in Hs as (HAB & HsA & HsB).
  apply StronglySorted_app. split; [|split; [exact HsA|]].
  - intros a b Ha Hb.
    assert (Hax : ascending a x).
    { destruct HA as [-> | (A' & y & -> & Hy)]; [inversion Ha|].
      apply StronglySorted_app in HsA as (HA'y & _ & _).
      apply elem_of_app in Ha as [Ha | Ha].
      - apply (ascending_trans a y x); [apply HA'y; [exact Ha | constructor] | exact Hy].
      - apply list_elem_of_singleton in Ha as ->. exact Hy. }
    apply elem_of_cons in Hb as [-> | Hb]; [exact Hax|].
    apply HAB; assumption.
  - constructor; [exact HsB|].
    eapply Forall_impl; [exact HB|]. intros b Hb. apply Less_raw_asym. exact Hb.
Qed.

Lemma insertion_outer_spec (d : nat) :
  forall (m : nat) (l : list Certificate),
    length l = (m + d)%nat ->
    StronglySorted ascending (take m l) ->
    exists l',
      interp (fold_right (fun i k => insertion_inner 0 i k) Done (seq m d)) l = Some l' /\
      StronglySorted ascending l'.
Proof.
  induction d as [|d IH]; intros m l Hlen Hs.
  - exists l. split; [reflexivity|]. rewrite take_ge in Hs by lia. exact Hs.
  - cbn [seq fold_right].
    destruct (lookup_lt_is_Some_2 l m) as [x Hx]; [lia|].
    pose proof (take_drop_middle l m x Hx) as Hl.
    set (K := fold_right _ Done (seq (S m) d)).
    destruct (insertion_inner_spec K (take m l) x (drop (S m) l))
      as (A & B & Hpre & HB & HA & Hint).
    rewrite length_take, Nat.min_l, Hl in Hint by lia. rewrite Hint.
    assert (HlenAB : length (A ++ B) = m).
    { rewrite <- Hpre, length_take. lia. }
    rewrite length_app in HlenAB.
    apply (IH (S m)).
    + rewrite length_app. cbn [length]. rewrite length_app, length_drop. lia.
    + replace (A ++ x :: B ++ drop (S m) l) with ((A ++ x :: B) ++ drop (S m) l)
        by (rewrite <- app_assoc; reflexivity).
      rewrite take_app_length'.
      2:{ rewrite length_app. cbn [length]. lia. }
      apply ascending_insert; [rewrite <- Hpre; exact Hs | exact HB | exact HA].
Qed.

(** Package sort's insertion sort meets the contract of [sort.Sort]. *)
Lemma insertion_Sort_sorts : sorts insertion_Sort.
Proof.
  intros l. unfold insertion_Sort, insertionSort. cbn [Nat.add].
  destruct l as [|x l].
  - exists []. split; [reflexivity | constructor].
  - destruct (insertion_outer_spec (length l) 1 (x :: l)) as (l' & H & Hs).
    + cbn. reflexivity.
    + cbn. repeat constructor.
    + exists l'. cbn [length]. rewrite Nat.sub_succ, Nat.sub_0_r.
      split; [exact H | apply StronglySorted_Sorted; exact Hs].
Qed.
End insertion_sort.

(** ** fixchain: what [hashChain] hashes *)

Section hashChain_facts.
Import x509 fixchain.

Lemma be_bytes_length (n : nat) (x : Z) : length (sha256.be_bytes n x) = n.
Proof. unfold sha256.be_bytes. rewrite length_map, length_seq. reflexivity. Qed.

Lemma block_length (h bs : list Z) : length (sha256.block h bs) = 8%nat.
Proof. unfold sha256.block. rewrite length_map, length_seq. reflexivity. Qed.

Lemma blocks_length (n : nat) :
  forall h bs, length h = 8%nat -> length (sha256.blocks n h bs) = 8%nat.
Proof.
induction n as [|n IH]; intros h bs Hh; [exact Hh|].
cbn [sha256.blocks]. apply IH. apply block_length.
Qed.

Lemma flat_map_length_const {A B} (f : A -> list B) (k : nat) (l : list A) :
  (forall x, length (f x) = k) -> length (flat_map f l) = (length l * k)%nat.
Proof.
intros Hf. induction l as [|x l IH]; [reflexivity|].
cbn. rewrite length_app, Hf, IH. reflexivity.
Qed.

Lemma Sum256_length (msg : list Z) : length (sha256.Sum256 msg) = 32%nat.
Proof.
unfold sha256.Sum256.
rewrite (flat_map_length_const _ 4) by (intros; apply be_bytes_length).
rewrite blocks_length; [reflexivity|]. vm_compute. reflexivity.
Qed.

Lemma copy_digest (d : list Z) :
  length d = 32%nat -> copy (replicate hashSize 0) d = d.
Proof.
intros H. unfold copy, hashSize, sha256.Size.
rewrite length_replicate, take_ge, drop_ge by (rewrite ?length_replicate; lia).
apply app_nil_r.
Qed.

Lemma hashChain_fold (ch : list Certificate) (d : sha256.digest) :
  sha256.written
    (fold_left (fun h c => sha256.Write h (sha256.Sum newHash (Raw c))) ch d) =
  sha256.written d ++ flat_map (fun c => Raw c ++ sha256.Sum256 []) ch.
Proof.
revert d. induction ch as [|c ch IH]; intros d; cbn [fold_left flat_map].
- symmetry. apply app_nil_r.
- rewrite IH. unfold sha256.Write, sha256.Sum at 1, newHash, sha256.New.
  cbn [sha256.written app]. rewrite <- app_assoc. reflexivity.
Qed.

Lemma hashChain_digest (ch : list Certificate) :
  hashChain ch = sha256.Sum256 (flat_map (fun c => Raw c ++ sha256.Sum256 []) ch).
Proof.
unfold hashChain. cbv zeta.
change (sha256.Sum ?d []) with (sha256.Sum256 (sha256.written d)).
rewrite hashChain_fold. unfold newHash, sha256.New.
cbn [sha256.written app]. apply copy_digest, Sum256_length.
Qed.

End hashChain_facts.

Section hashBag_claims.
Import x509 fixchain.

Lemma load_Some (s : slice) (st st' : store) (l : list Certificate) :
  load s st = Some (l, st') <-> contents st s = Some l /\ st' = st.
Proof.
  rewrite load_contents. destruct (contents st s) as [l0|]; cbn.
  - split; [intros H; inversion H; auto | intros [H ->]; inversion H; reflexivity].
  - split; [discriminate | intros [H _]; discriminate].
Qed.

(** The sorted copies of [cert_cc; cert_c; cert_cc] and of
    [cert_c; cert_cc; cert_c; cert_c] make [hashChain] write the same
    bytes, so [hashBag] gives both chains the same hash. *)
Example store_cc_written :
  flat_map (fun c => Raw c ++ sha256.Sum256 []) [cert_c; cert_cc; cert_cc] =
  flat_map (fun c => Raw c ++ sha256.Sum256 []) [cert_c; cert_c; cert_c; cert_cc].
Proof. vm_compute. reflexivity. Qed.





(** C10.  [hashBag] leaves its argument alone.  If the slice [chain]
    holds the certificates [l] before the call then, whatever the
    sorting routine, it holds [l] in the same order when the call
    returns, and so does every array that existed before the call; and
    with a sorting routine that meets the contract of [sort.Sort] the
    call does return. *)
Theorem hashBag_leaves_argument
    (sort_Sort : nat -> sortProg) (st : store) (chain : slice)
    (l : list Certificate) :
  load chain st = Some (l, st) ->
  (forall h st', hashBag sort_Sort chain st = Some (h, st') ->
     load chain st' = Some (l, st') /\
     forall a, a ∈ dom st -> st' !! a = st !! a) /\
  (sorts sort_Sort -> exists h st', hashBag sort_Sort chain st = Some (h, st')).
Proof.
  intros [Hc _]%load_Some. split.
  - intros h st' H.
    pose proof (hashBag_frame _ _ _ _ _ H) as Hframe.
    split; [|exact Hframe].
    apply load_Some. split; [|reflexivity].
    rewrite <- Hc. apply contents_same_array.
    destruct (contents_allocated _ _ _ Hc) as [H0|Hd]; [left; exact H0|].
    right. apply Hframe. exact Hd.
  - intros Hsorts. rewrite (hashBag_spec _ _ _ _ Hc).
    destruct (Hsorts l) as (s & E & _). rewrite E. eauto.
Qed.

Lemma hashBag_leaves_argument_witness :
  (forall h st', hashBag insertion_Sort (whole 1 2) store_ab = Some (h, st') ->
     load (whole 1 2) st' = Some ([cert_b; cert_a], st') /\
     forall a, a ∈ dom store_ab -> st' !! a = store_ab !! a) /\
  exists h st', hashBag insertion_Sort (whole 1 2) store_ab = Some (h, st').
Proof.
  destruct (hashBag_leaves_argument insertion_Sort store_ab (whole 1 2)
              [cert_b; cert_a]) as [H1 H2].
  - vm_compute. reflexivity.
  - split; [exact H1 | exact (H2 insertion_Sort_sorts)].
Defined.

(** The sorted copy is a new array: the argument [cert_b; cert_a] is
    still in place after the call. *)
Example hashBag_store_ab :
  exists h st', hashBag insertion_Sort (whole 1 2) store_ab = Some (h, st') /\
    st' !! 1%positive = Some [Some cert_b; Some cert_a] /\
    st' !! fresh (dom store_ab) = Some [Some cert_a; Some cert_b].
Proof. eexists _, _. split; [vm_compute; reflexivity |]. split; vm_compute; reflexivity. Qed.

(** [hashBag] tells these two bags apart, which differ in which
    certificate is duplicated, and [hashChain] tells apart two orders. *)
Example hashBag_counts_duplicates :
  fst <$> hashBag insertion_Sort (whole 1 3) (<[1%positive := [Some cert_a; Some cert_a; Some cert_b]]> ∅) <>
  fst <$> hashBag insertion_Sort (whole 1 3) (<[1%positive := [Some cert_a; Some cert_b; Some cert_b]]> ∅).
Proof. vm_compute. discriminate. Qed.

Example hashChain_order_sensitive :
  hashChain [cert_a; cert_b] <> hashChain [cert_b; cert_a].
Proof. vm_compute. discriminate. Qed.
End hashBag_claims.

(** ** fixchain: [Logger.QueueChain] *)

Section logger_queue.
Import x509 fixchain.

Lemma lockedMap_get_set (lm : lockedMap) (h h' : list Z) (b : bool) :
  lockedMap_get (lockedMap_set lm h b) h' =
  if decide (h = h') then b else lockedMap_get lm h'.
Proof.
  unfold lockedMap_get, lockedMap_set; cbn.
  rewrite lookup_insert. destruct (decide (h = h')); reflexivity.
Qed.

(** [QueueChain] on a chain with a leaf, branch by branch. *)
Lemma QueueChain_unfold (l : Logger) (c : Certificate) (rest : list Certificate) :
  QueueChain l (Some (c :: rest)) =
  let l1 := with_queued l (AddUint32 (queued l) 1) in
  if lockedMap_get (postCertCache l) (hash c) then
    Some (with_reposted l1 (AddUint32 (reposted l) 1))
  else if lockedMap_get (postChainCache l) (hashChain (c :: rest)) then
    Some (with_chainReposted l1 (AddUint32 (chainReposted l) 1))
  else
    Some (postToLog
            (with_postChainCache l1
               (lockedMap_set (postChainCache l) (hashChain (c :: rest)) true))
            {| chain := c :: rest |}).
Proof. reflexivity. Qed.

(** C4, as stated, fails: a call suppressed by the cert cache still
    increments [queued]. *)
Lemma queued_counts_suppressed_calls :
  ~ (forall (l : Logger) (ch : list Certificate) (l' : Logger),
       QueueChain l (Some ch) = Some l' ->
       toPost l' = toPost l -> queued l' = queued l).
Proof.
  intros H.
  specialize (H logger_posted_a [cert_a] _ eq_refl).
  vm_compute in H. specialize (H eq_refl). discriminate.
Qed.

(** C4 (amended).  Every call of [QueueChain] on a chain with a leaf
    increments [queued], whether or not it enqueues a [toPost]: a call
    suppressed by [postCertCache] increments [queued] and [reposted], a
    call suppressed by [postChainCache] increments [queued] and
    [chainReposted], and a call that enqueues increments [queued] only. *)
Theorem QueueChain_always_counts_queued
    (l : Logger) (c : Certificate) (rest : list Certificate) :
  exists l', QueueChain l (Some (c :: rest)) = Some l' /\
    queued l' = AddUint32 (queued l) 1 /\
    match lockedMap_get (postCertCache l) (hash c),
          lockedMap_get (postChainCache l) (hashChain (c :: rest)) with
    | true, _ =>
        toPost l' = toPost l /\
        reposted l' = AddUint32 (reposted l) 1 /\
        chainReposted l' = chainReposted l
    | false, true =>
        toPost l' = toPost l /\
        reposted l' = reposted l /\
        chainReposted l' = AddUint32 (chainReposted l) 1
    | false, false =>
        toPost l' = toPost l ++ [ {| chain := c :: rest |} ] /\
        reposted l' = reposted l /\
        chainReposted l' = chainReposted l
    end.
Proof.
  rewrite QueueChain_unfold. cbv zeta.
  destruct (lockedMap_get (postCertCache l) (hash c));
    [| destruct (lockedMap_get (postChainCache l) (hashChain (c :: rest)))];
    eexists; (split; [reflexivity|]); repeat split.
Qed.


(** The nil chain is ignored; an empty chain that is not nil panics on
    [chain[0]]. *)
Lemma QueueChain_nil (l : Logger) : QueueChain l None = Some l.
Proof. reflexivity. Qed.

Lemma QueueChain_empty (l : Logger) : QueueChain l (Some []) = None.
Proof. reflexivity. Qed.

End logger_queue.

(** ** fixchain: [Logger.postChain] *)

Section logger_post.
Import x509 fixchain.

(** C9.  When [postChain] reaches [AddChain] (the leaf is not in
    [postCertCache]) and the call fails with [err], exactly one
    [FixError] of type [LogPostFailed] with the chain and the wrapped
    error is sent on [errors] and [postCertCache] is unchanged; when the
    call succeeds, [postCertCache[hash(chain[0])]] is set and nothing is
    sent on [errors]. *)
Theorem postChain_AddChain_outcome
    (l : Logger) (p : toPost_t) (c : Certificate) (rest : list Certificate)
    (wait reply : option string) :
  chain p = c :: rest ->
  lockedMap_get (postCertCache l) (hash c) = false ->
  exists l', postChain l p wait reply = Some l' /\
    addChainCalls (client l') = addChainCalls (client l) ++ [der (chain p)] /\
    match reply with
    | Some err =>
        errors l' = errors l ++
          [ {| Type_ := LogPostFailed; URL := EmptyString; Chain := chain p;
               Error := String.append "add-chain failed: " err |} ] /\
        postCertCache l' = postCertCache l /\
        lockedMap_get (postCertCache l') (hash c) = false
    | None =>
        errors l' = errors l /\
        postCertCache l' = lockedMap_set (postCertCache l) (hash c) true /\
        lockedMap_get (postCertCache l') (hash c) = true
    end.
Proof.
  intros Hp Hmiss. unfold postChain. rewrite Hp, Hmiss.
  destruct reply as [err|]; cbn.
  - eexists; split; [reflexivity|]. cbn. repeat split. exact Hmiss.
  - eexists; split; [reflexivity|]. cbn. repeat split.
    rewrite lockedMap_get_set. destruct (decide _); congruence.
Qed.

Lemma postChain_AddChain_outcome_witness :
  exists l', postChain logger0 {| chain := [cert_a] |}
               None (Some "rejected"%string) = Some l' /\
    errors l' = [ {| Type_ := LogPostFailed; URL := EmptyString; Chain := [cert_a];
                     Error := "add-chain failed: rejected"%string |} ] /\
    postCertCache l' = newLockedMap.
Proof.
  destruct (postChain_AddChain_outcome logger0
              {| chain := [cert_a] |} cert_a [] None (Some "rejected"%string)
              eq_refl eq_refl) as (l' & H1 & _ & H2 & H3 & _).
  exists l'. split; [exact H1|]. split; [exact H2 | exact H3].
Defined.

(** A chain whose leaf is already in [postCertCache] is not posted. *)
Lemma postChain_suppressed
    (l : Logger) (p : toPost_t) (c : Certificate) (rest : list Certificate)
    (wait reply : option string) :
  chain p = c :: rest ->
  lockedMap_get (postCertCache l) (hash c) = true ->
  postChain l p wait reply = Some (with_reposted l (AddUint32 (reposted l) 1)).
Proof. intros Hp Hhit. unfold postChain. rewrite Hp, Hhit. reflexivity. Qed.

End logger_post.

(** ** fixchain: the Logger as a transition system *)

Section logger_system.
Import x509 fixchain.

Lemma sum_map_split {A} (f : A -> nat) (l1 l2 : list A) (x : A) :
  sum_list (map f (l1 ++ x :: l2)) = (f x + sum_list (map f (l1 ++ l2)))%nat.
Proof. induction l1 as [|y l1 IH]; cbn in *; lia. Qed.

Lemma sum_map_app {A} (f : A -> nat) (l1 l2 : list A) :
  sum_list (map f (l1 ++ l2)) = (sum_list (map f l1) + sum_list (map f l2))%nat.
Proof. induction l1 as [|y l1 IH]; cbn in *; lia. Qed.

Lemma wg_Done_effect (l l' : Logger) :
  wg_Done l = Some l' -> 1 <= wg l /\ l' = with_wg l (wg l - 1).
Proof.
unfold wg_Done. destruct (Z.ltb_spec (wg l - 1) 0); [discriminate|].
intros [= <-]. split; [lia | reflexivity].
Qed.

Lemma wg_Done_Some (l : Logger) : 1 <= wg l -> wg_Done l = Some (with_wg l (wg l - 1)).
Proof. intros H. unfold wg_Done. destruct (Z.ltb_spec (wg l - 1) 0); [lia | reflexivity]. Qed.

(** The steps of a caller and of a worker, case by case. *)
Inductive caller_case (l : Logger) : caller -> Logger -> option caller -> Prop :=
| cc_cert_hit c0 rest :
    lockedMap_get (postCertCache l) (hash c0) = true ->
    caller_case l (Counted (c0 :: rest)) l (Some (CertHit (c0 :: rest)))
| cc_cert_miss c0 rest :
    lockedMap_get (postCertCache l) (hash c0) = false ->
    caller_case l (Counted (c0 :: rest)) l (Some (CertMiss (c0 :: rest)))
| cc_reposted ch :
    caller_case l (CertHit ch) (with_reposted l (AddUint32 (reposted l) 1)) None
| cc_chain_hit ch :
    lockedMap_get (postChainCache l) (hashChain ch) = true ->
    caller_case l (CertMiss ch) l (Some (ChainHit ch))
| cc_chain_miss ch :
    lockedMap_get (postChainCache l) (hashChain ch) = false ->
    caller_case l (CertMiss ch) l (Some (ChainMiss ch))
| cc_chainReposted ch :
    caller_case l (ChainHit ch) (with_chainReposted l (AddUint32 (chainReposted l) 1)) None
| cc_record ch :
    caller_case l (ChainMiss ch)
      (with_postChainCache l (lockedMap_set (postChainCache l) (hashChain ch) true))
      (Some (Recorded ch))
| cc_add ch :
    caller_case l (Recorded ch) (with_wg l (wg l + 1)) (Some (Added ch))
| cc_send ch :
    caller_case l (Added ch) (with_toPost l (toPost l ++ [ {| chain := ch |} ])) None.

Lemma QueueChain_step_case (l l' : Logger) (c : caller) (c' : option caller) :
  QueueChain_step l c = Next (l', c') -> caller_case l c l' c'.
Proof.
destruct c as [[|c0 rest]|ch|ch|ch|ch|ch|ch]; cbn.
- discriminate.
- destruct (lockedMap_get _ _) eqn:E; intros [= <- <-]; constructor; exact E.
- intros [= <- <-]; constructor.
- destruct (lockedMap_get _ _) eqn:E; intros [= <- <-]; constructor; exact E.
- intros [= <- <-]; constructor.
- intros [= <- <-]; constructor.
- intros [= <- <-]; constructor.
- intros [= <- <-]; constructor.
Qed.

Inductive worker_case (l : Logger) : worker -> Logger -> worker -> Prop :=
| wc_receive i p :
    toPost l !! i = Some p ->
    worker_case l Ready (with_toPost l (delete i (toPost l))) (Received p)
| wc_active p :
    worker_case l (Received p) (with_active l (AddUint32 (active l) 1)) (Got p)
| wc_hit p c0 rest :
    chain p = c0 :: rest ->
    lockedMap_get (postCertCache l) (hash c0) = true ->
    worker_case l (Got p) l (Hit p)
| wc_miss p c0 rest :
    chain p = c0 :: rest ->
    lockedMap_get (postCertCache l) (hash c0) = false ->
    worker_case l (Got p) l (Miss p (hash c0))
| wc_reposted p :
    worker_case l (Hit p) (with_reposted l (AddUint32 (reposted l) 1)) Returned
| wc_posted p h :
    worker_case l (Miss p h) (with_posted l (AddUint32 (posted l) 1)) (Posting p h)
| wc_AddChain p h :
    worker_case l (Posting p h)
      (with_client l {| addChainCalls := addChainCalls (client l) ++ [der (chain p)] |})
      (Called p h)
| wc_failed p h err :
    worker_case l (Called p h)
      (with_errors l
         (errors l ++ [ {| Type_ := LogPostFailed; URL := EmptyString;
                           Chain := chain p;
                           Error := String.append "add-chain failed: " err |} ]))
      Returned
| wc_accepted p h :
    worker_case l (Called p h)
      (with_postCertCache l (lockedMap_set (postCertCache l) h true))
      Returned
| wc_inactive :
    worker_case l Returned (with_active l (AddUint32 (active l) (2 ^ 32 - 1))) Leaving
| wc_done :
    1 <= wg l ->
    worker_case l Leaving (with_wg l (wg l - 1)) Ready.

Lemma postServer_step_case (l l' : Logger) (w w' : worker) (i : nat) (reply : option string) :
  postServer_step l w i reply = Next (l', w') -> worker_case l w l' w'.
Proof.
destruct w as [|p|p|p|p h|p h|p h| |]; cbn.
- destruct (toPost l !! i) as [p|] eqn:E; [|discriminate].
  intros [= <- <-]. econstructor; exact E.
- intros [= <- <-]; constructor.
- destruct (chain p) as [|c0 rest] eqn:Hc; [discriminate|].
  destruct (lockedMap_get _ _) eqn:E; intros [= <- <-]; econstructor; eauto.
- intros [= <- <-]; constructor.
- intros [= <- <-]; constructor.
- intros [= <- <-]; constructor.
- destruct reply as [err|]; intros [= <- <-]; constructor.
- intros [= <- <-]; constructor.
- destruct (wg_Done l) as [l1|] eqn:E; [|discriminate].
  apply wg_Done_effect in E as [H ->]. intros [= <- <-]; constructor; exact H.
Qed.












Lemma postCertCache_sstep (s s' : system) (h : list Z) :
  sstep s s' ->
  lockedMap_get (postCertCache (logger s)) h = true ->
  lockedMap_get (postCertCache (logger s')) h = true.
Proof.
intros [l cs ws ch | s1 s2 [l cs1 c cs2 ws l' c' H | l cs ws1 w ws2 i reply l' w' H]];
  cbn [logger]; [auto | |].
- apply QueueChain_step_case in H. destruct H; cbn; auto.
- apply postServer_step_case in H. destruct H; cbn; auto.
  intros Hget. rewrite lockedMap_get_set. destruct (decide _); auto.
Qed.

End logger_system.
Section logger_system_claims.
Import x509 fixchain.

(** Schedules are runs. *)
Lemma act_sstep (s s' : system) (a : action) : act s a = Some s' -> sstep s s'.
Proof.
destruct s as [l cs ws]. destruct a as [ch|k|k i reply]; cbn.
- intros [= <-]. apply s_call.
- destruct (cs !! k) as [c|] eqn:Hk; [|discriminate].
  destruct (QueueChain_step l c) as [[l' c']| |] eqn:E; [|discriminate..].
  intros [= <-]. apply s_work.
  rewrite <- (take_drop_middle _ _ _ Hk) at 1. apply w_caller. exact E.
- destruct (ws !! k) as [w|] eqn:Hk; [|discriminate].
  destruct (postServer_step l w i reply) as [[l' w']| |] eqn:E; [|discriminate..].
  intros [= <-]. apply s_work.
  rewrite <- (take_drop_middle _ _ _ Hk) at 1. eapply w_worker. exact E.
Qed.

Lemma schedule_rtc (acts : list action) :
  forall s s', schedule s acts = Some s' -> rtc sstep s s'.
Proof.
induction acts as [|a acts IH]; intros s s'; cbn.
- intros [= <-]. apply rtc_refl.
- destruct (act s a) as [s1|] eqn:E; [|discriminate].
  intros H. eapply rtc_l; [eapply act_sstep; exact E | apply IH; exact H].
Qed.

Lemma schedule1_rtc (acts : list action) :
  forall s s', schedule1 s acts = Some s' -> rtc sstep1 s s'.
Proof.
induction acts as [|a acts IH]; intros s s'; cbn.
- intros [= <-]. apply rtc_refl.
- destruct (act s a) as [s1|] eqn:E; [|discriminate].
  destruct (Nat.leb_spec (length (callers s1)) 1) as [Hle|]; [|discriminate].
  intros H. eapply rtc_l; [|apply IH; exact H].
  split; [eapply act_sstep; exact E | exact Hle].
Qed.

Lemma sstep1_sstep (s s' : system) : rtc sstep1 s s' -> rtc sstep s s'.
Proof. apply rtc_subrel. intros x y [H _]. exact H. Qed.

Lemma sstep1_caller (l l' : Logger) (c : caller) (c' : option caller) (ws : list worker) :
  QueueChain_step l c = Next (l', c') ->
  sstep1 {| logger := l; callers := [c]; workers := ws |}
         {| logger := l'; callers := option_list c'; workers := ws |}.
Proof.
intros H. split.
- apply s_work. pose proof (w_caller l [] c [] ws l' c' H) as Hw.
  cbn [app] in Hw. rewrite app_nil_r in Hw. exact Hw.
- unfold one_caller. destruct c'; cbn; lia.
Qed.

Lemma sstep1_worker (l l' : Logger) (w w' : worker) (ws1 ws2 : list worker)
    (i : nat) (reply : option string) :
  postServer_step l w i reply = Next (l', w') ->
  sstep1 {| logger := l; callers := []; workers := ws1 ++ w :: ws2 |}
         {| logger := l'; callers := []; workers := ws1 ++ w' :: ws2 |}.
Proof.
intros H. split; [apply s_work; eapply w_worker; exact H | unfold one_caller; cbn; lia].
Qed.

(** A call of [QueueChain] is a run of one caller. *)
Lemma QueueChain_sstep1 (l l' : Logger) (arg : option (list Certificate)) (ws : list worker) :
  QueueChain l arg = Some l' ->
  rtc sstep1 {| logger := l; callers := []; workers := ws |}
             {| logger := l'; callers := []; workers := ws |}.
Proof.
destruct arg as [[|c rest]|]; [discriminate | | intros [= <-]; apply rtc_refl].
rewrite QueueChain_unfold. cbv zeta. intros H.
eapply rtc_l; [split; [apply (s_call l [] ws (c :: rest)) | unfold one_caller; cbn; lia]|].
set (l1 := with_queued l (AddUint32 (queued l) 1)) in *.
destruct (lockedMap_get (postCertCache l) (hash c)) eqn:Hcert.
{ eapply rtc_l; [eapply (sstep1_caller l1 l1 (Counted (c :: rest)) (Some (CertHit (c :: rest))));
                 cbn; rewrite Hcert; reflexivity|].
  inversion H; subst.
  apply rtc_once. eapply (sstep1_caller l1 _ (CertHit (c :: rest)) None). reflexivity. }
eapply rtc_l; [eapply (sstep1_caller l1 l1 (Counted (c :: rest)) (Some (CertMiss (c :: rest))));
               cbn; rewrite Hcert; reflexivity|].
cbn [option_list].
destruct (lockedMap_get (postChainCache l) (hashChain (c :: rest))) eqn:Hchain.
{ eapply rtc_l; [eapply (sstep1_caller l1 l1 (CertMiss (c :: rest)) (Some (ChainHit (c :: rest))));
                 cbn; rewrite Hchain; reflexivity|].
  inversion H; subst.
  apply rtc_once. eapply (sstep1_caller l1 _ (ChainHit (c :: rest)) None). reflexivity. }
eapply rtc_l; [eapply (sstep1_caller l1 l1 (CertMiss (c :: rest)) (Some (ChainMiss (c :: rest))));
               cbn; rewrite Hchain; reflexivity|].
cbn [option_list].
eapply rtc_l; [eapply (sstep1_caller l1 _ (ChainMiss (c :: rest)) (Some (Recorded (c :: rest))));
               reflexivity|].
cbn [option_list].
eapply rtc_l; [eapply (sstep1_caller _ _ (Recorded (c :: rest)) (Some (Added (c :: rest))));
               reflexivity|].
cbn [option_list].
inversion H; subst.
apply rtc_once. eapply (sstep1_caller _ _ (Added (c :: rest)) None). reflexivity.
Qed.

(** An iteration of [postServer] is a run of one worker. *)
Lemma postServer_sstep1 (l l' : Logger) (i : nat) (wait reply : option string)
    (ws1 ws2 : list worker) :
  postServer l i wait reply = Some l' ->
  rtc sstep1 {| logger := l; callers := []; workers := ws1 ++ Ready :: ws2 |}
             {| logger := l'; callers := []; workers := ws1 ++ Ready :: ws2 |}.
Proof.
unfold postServer. destruct (toPost l !! i) as [p|] eqn:Hp; [|discriminate].
unfold postChain. destruct (chain p) as [|c rest] eqn:Hc; [discriminate|].
cbn [postCertCache with_active with_toPost].
intros H.
eapply rtc_l; [eapply (sstep1_worker l _ Ready _ ws1 ws2 i None); cbn; rewrite Hp; reflexivity|].
eapply rtc_l; [eapply (sstep1_worker _ _ (Received p) _ ws1 ws2 i None); reflexivity|].
cbn [active with_toPost].
set (l1 := with_active (with_toPost l (delete i (toPost l))) (AddUint32 (active l) 1)) in *.
destruct (lockedMap_get (postCertCache l) (hash c)) eqn:Hcert.
- eapply rtc_l; [eapply (sstep1_worker l1 _ (Got p) _ ws1 ws2 i None);
                 cbn; rewrite Hc, Hcert; reflexivity|].
  eapply rtc_l; [eapply (sstep1_worker l1 _ (Hit p) _ ws1 ws2 i None); reflexivity|].
  eapply rtc_l; [eapply (sstep1_worker _ _ Returned _ ws1 ws2 i None); reflexivity|].
  apply rtc_once. eapply (sstep1_worker _ _ Leaving _ ws1 ws2 i None).
  cbn [postServer_step]. rewrite ?Hc.
  match goal with
  | |- match ?d with _ => _ end = _ => replace d with (Some l') by (symmetry; exact H)
  end.
  reflexivity.
- eapply rtc_l; [eapply (sstep1_worker l1 _ (Got p) _ ws1 ws2 i None);
                 cbn; rewrite Hc, Hcert; reflexivity|].
  eapply rtc_l; [eapply (sstep1_worker l1 _ (Miss p (hash c)) _ ws1 ws2 i None); reflexivity|].
  eapply rtc_l; [eapply (sstep1_worker _ _ (Posting p (hash c)) _ ws1 ws2 i reply); reflexivity|].
  destruct reply as [err|].
  + eapply rtc_l; [eapply (sstep1_worker _ _ (Called p (hash c)) _ ws1 ws2 i (Some err)); reflexivity|].
    eapply rtc_l; [eapply (sstep1_worker _ _ Returned _ ws1 ws2 i None); reflexivity|].
    apply rtc_once. eapply (sstep1_worker _ _ Leaving _ ws1 ws2 i None).
    cbn [postServer_step]. rewrite ?Hc.
    match goal with
    | |- match ?d with _ => _ end = _ => replace d with (Some l') by (symmetry; exact H)
    end.
    reflexivity.
  + eapply rtc_l; [eapply (sstep1_worker _ _ (Called p (hash c)) _ ws1 ws2 i None);
                   reflexivity|].
    eapply rtc_l; [eapply (sstep1_worker _ _ Returned _ ws1 ws2 i None); reflexivity|].
    apply rtc_once. eapply (sstep1_worker _ _ Leaving _ ws1 ws2 i None).
    cbn [postServer_step]. rewrite ?Hc.
    match goal with
    | |- match ?d with _ => _ end = _ => replace d with (Some l') by (symmetry; exact H)
    end.
    reflexivity.
Qed.

Lemma step_sstep1 (l l' : Logger) (ws1 ws2 : list worker) :
  step l l' ->
  rtc sstep1 {| logger := l; callers := []; workers := ws1 ++ Ready :: ws2 |}
             {| logger := l'; callers := []; workers := ws1 ++ Ready :: ws2 |}.
Proof.
intros [l0 arg l0' H | l0 i wait reply l0' H];
  eauto using QueueChain_sstep1, postServer_sstep1.
Qed.

Lemma step_reachable (l : Logger) :
  rtc step logger0 l ->
  rtc sstep1 (system0 1) {| logger := l; callers := []; workers := [Ready] |}.
Proof.
intros H.
apply (rtc_ind_r (R := step)
         (fun l => rtc sstep1 (system0 1)
                     {| logger := l; callers := []; workers := [Ready] |})
         logger0); [apply rtc_refl | | exact H].
intros l1 l2 _ Hstep IH. etrans; [exact IH|]. apply (step_sstep1 l1 l2 [] []). exact Hstep.
Qed.

Lemma logger3_step_reachable : rtc step logger0 logger3.
Proof.
eapply rtc_l; [apply (step_QueueChain logger0 (Some [cert_a]) logger1); vm_compute; reflexivity|].
eapply rtc_l; [apply (step_QueueChain logger1 (Some [cert_a]) logger2); vm_compute; reflexivity|].
apply rtc_once. apply (step_postServer logger2 0 None None logger3). vm_compute. reflexivity.
Qed.

Lemma system3_reachable1 : rtc sstep1 (system0 1) system3.
Proof. apply step_reachable, logger3_step_reachable. Qed.

Lemma system3_reachable : rtc sstep (system0 1) system3.
Proof. apply sstep1_sstep, system3_reachable1. Qed.

Lemma system_overlap_reachable : rtc sstep (system0 1) system_overlap.
Proof. apply (schedule_rtc overlap). vm_compute. reflexivity. Qed.





Example logger3_calls : addChainCalls (client logger3) = [der [cert_a]].
Proof. vm_compute. reflexivity. Qed.

End logger_system_claims.

(** ** scanner: [Fetcher.genRanges], [Fetcher.runWorker], [Fetcher.Run] *)

Section int64_facts.
Import scanner.

Lemma int64_id (x : Z) : is_int64 x -> int64 x = x.
Proof.
unfold is_int64, int64. intros H.
rewrite Z.mod_small by lia. lia.
Qed.

Lemma int64_range (x : Z) : is_int64 (int64 x).
Proof.
unfold is_int64, int64.
pose proof (Z.mod_pos_bound (x + 2 ^ 63) (2 ^ 64) ltac:(lia)). lia.
Qed.

Lemma min_spec (a b : Z) : min a b = Z.min a b.
Proof. unfold min. destruct (Z.ltb_spec a b); lia. Qed.

End int64_facts.

Section genRanges_facts.
Import scanner.

Lemma tiles_in_range (batch : Z) (rs : list fetchRange) :
  forall s e, tiles batch s rs e ->
  s <= e /\
  forall i, (exists r, r ∈ rs /\ in_range i r = true) <-> s <= i < e.
Proof.
induction rs as [|r rs IH]; intros s e H; cbn in H.
- subst. split; [lia|]. intros i. split; [intros (r & Hr & _); inversion Hr | lia].
- destruct H as (Hs & Hle & Hsz & Ht). apply IH in Ht as [Hle' Hcov].
  split; [lia|]. intros i. split.
  + intros (r' & Hr' & Hin). apply elem_of_cons in Hr' as [-> | Hr'].
    * unfold in_range in Hin. lia.
    * assert (end_ r + 1 <= i < e) by (apply Hcov; eauto). lia.
  + intros Hi. destruct (Z.le_gt_cases i (end_ r)).
    * exists r. split; [constructor|]. unfold in_range. lia.
    * destruct (proj2 (Hcov i)) as (r' & Hr' & Hin); [lia|].
      exists r'. split; [now constructor | exact Hin].
Qed.

Lemma tiles_lookup (batch : Z) (rs : list fetchRange) :
  forall s e, tiles batch s rs e ->
  (forall r, head rs = Some r -> start r = s) /\
  (forall r, r ∈ rs -> s <= start r /\ start r <= end_ r /\
                       end_ r - start r + 1 <= batch /\ end_ r < e) /\
  (forall i r r', rs !! i = Some r -> rs !! S i = Some r' -> start r' = end_ r + 1) /\
  (forall i j r r', (i < j)%nat -> rs !! i = Some r -> rs !! j = Some r' ->
                    end_ r < start r').
Proof.
induction rs as [|r0 rs IH]; intros s e H; cbn in H.
- split; [|split; [|split]].
  + intros r Hr. discriminate.
  + intros r Hr. inversion Hr.
  + intros i r r' Hr. rewrite lookup_nil in Hr. discriminate.
  + intros i j r r' _ Hr. rewrite lookup_nil in Hr. discriminate.
- destruct H as (Hs & Hle & Hsz & Ht).
  pose proof (tiles_in_range _ _ _ _ Ht) as [Hle' _].
  destruct (IH _ _ Ht) as (Hhd & Hall & Hnext & Hlt).
  split; [|split; [|split]].
  + intros r [= <-]. exact Hs.
  + intros r Hr. apply elem_of_cons in Hr as [-> | Hr]; [lia|].
    specialize (Hall r Hr). lia.
  + intros [|i] r r' Hr Hr'; cbn in *.
    * inversion Hr; subst. apply Hhd. destruct rs; [discriminate|]. cbn in *. congruence.
    * eauto.
  + intros [|i] [|j] r r' Hij Hr Hr'; cbn in *; try lia.
    * inversion Hr; subst.
      assert (r' ∈ rs) by (eapply list_elem_of_lookup_2; eauto).
      specialize (Hall r' H). lia.
    * eapply Hlt; [|eauto..]. lia.
Qed.

(** The generator loop in non-continuous mode, never cancelled, on a span
    [start, end] whose length fits in an int64. *)
Lemma genRanges_loop_tiles (e : env) (batch : Z) :
  (forall n, genDone e n = false) ->
  1 <= batch -> is_int64 batch ->
  forall (k : nat) (n : nat) (s en : Z),
    is_int64 s -> is_int64 en -> s <= en -> en - s < 2 ^ 63 ->
    en - s <= Z.of_nat k ->
    exists rs,
      tiles batch s rs en /\
      forall fuel, (k < fuel)%nat ->
        genRanges_loop e false batch fuel n s en = (rs, true).
Proof.
intros Hdone Hb1 Hb.
induction k as [|k IH]; intros n s en Hs He Hle Hov Hk.
- exists []. split; [cbn; lia|]. intros [|fuel] Hf; [lia|].
  cbn. destruct (Z.ltb_spec s en); [lia | reflexivity].
- destruct (Z.eq_dec s en) as [->|Hne].
  + exists []. split; [cbn; lia|]. intros [|fuel] Hf; [lia|].
    cbn. rewrite Z.ltb_irrefl. reflexivity.
  + set (m := Z.min (en - s) batch).
    assert (Hm : 1 <= m <= batch /\ m <= en - s) by (unfold m; lia).
    assert (Hsub : sub64 en s = en - s).
    { unfold sub64. apply int64_id. unfold is_int64 in *. lia. }
    assert (Hadd : add64 s m = s + m).
    { unfold add64. apply int64_id. unfold is_int64 in *. lia. }
    assert (Hend : sub64 (s + m) 1 = s + m - 1).
    { unfold sub64. apply int64_id. unfold is_int64 in *. lia. }
    destruct (IH (S n) (s + m) en) as (rs & Ht & Hrun);
      [unfold is_int64 in *; lia | assumption | lia | lia | lia |].
    exists ({| start := s; end_ := s + m - 1 |} :: rs). split.
    * cbn. replace (s + m - 1 + 1) with (s + m) by lia.
      repeat split; try lia. exact Ht.
    * intros [|fuel] Hf; [lia|].
      cbn [genRanges_loop]. destruct (Z.ltb_spec s en); [|lia]. cbn [orb].
      destruct (Z.eqb_spec s en); [lia|].
      rewrite Hsub, min_spec. fold m. rewrite Hadd, Hend, Hdone.
      rewrite (Hrun fuel) by lia. reflexivity.
Qed.

End genRanges_facts.
Section genRanges_claims.
Import scanner.

(** C6, as stated, fails when [EndIndex - StartIndex] does not fit in an
    int64: from [StartIndex = -1] to [EndIndex = 2^63 - 1] the generator
    emits the single range [-1, 2^63 - 2], far longer than [BatchSize]. *)
Lemma genRanges_overflow :
  ~ (forall (f : Fetcher) (e : env) (fuel : nat) (rs : list fetchRange),
       Continuous (opts f) = false ->
       1 <= BatchSize (opts f) ->
       StartIndex (opts f) <= EndIndex (opts f) ->
       is_int64 (BatchSize (opts f)) ->
       is_int64 (StartIndex (opts f)) -> is_int64 (EndIndex (opts f)) ->
       (forall n, genDone e n = false) ->
       genRanges f e fuel = (rs, true) ->
       forall r, r ∈ rs ->
         start r <= end_ r /\ end_ r - start r + 1 <= BatchSize (opts f)).
Proof.
intros H.
specialize (H fetcher_wide env_quiet 2%nat
              [ {| start := -1; end_ := 2 ^ 63 - 2 |} ]).
cbn [fetcher_wide opts Continuous BatchSize StartIndex EndIndex] in H.
unfold is_int64 in H.
destruct (H eq_refl ltac:(lia) ltac:(lia) ltac:(lia) ltac:(lia) ltac:(lia)
            (fun _ => eq_refl) ltac:(vm_compute; reflexivity)
            {| start := -1; end_ := 2 ^ 63 - 2 |} ltac:(constructor)) as [_ Hsz].
cbn in Hsz. lia.
Qed.

(** C6 (amended).  With [Continuous = false], [BatchSize >= 1],
    [StartIndex <= EndIndex] and [EndIndex - StartIndex] within int64 (as it
    is whenever [StartIndex >= 0]), a generator that is not cancelled
    closes the channel after sending ranges [rs] such that: the first
    starts at [StartIndex]; each has [start <= end] and at most [BatchSize]
    indices; each next one starts at the previous end plus one; they are
    strictly increasing and do not overlap; and an index lies in one of
    them exactly if it lies in [[StartIndex, EndIndex)]. *)
Theorem genRanges_tiles (f : Fetcher) (e : env) :
  Continuous (opts f) = false ->
  1 <= BatchSize (opts f) ->
  StartIndex (opts f) <= EndIndex (opts f) ->
  is_int64 (BatchSize (opts f)) ->
  is_int64 (StartIndex (opts f)) -> is_int64 (EndIndex (opts f)) ->
  EndIndex (opts f) - StartIndex (opts f) < 2 ^ 63 ->
  (forall n, genDone e n = false) ->
  exists rs,
    (exists fuel0, forall fuel, (fuel0 <= fuel)%nat -> genRanges f e fuel = (rs, true)) /\
    (forall r, head rs = Some r -> start r = StartIndex (opts f)) /\
    (forall r, r ∈ rs ->
       start r <= end_ r /\ end_ r - start r + 1 <= BatchSize (opts f)) /\
    (forall i r r', rs !! i = Some r -> rs !! S i = Some r' ->
       start r' = end_ r + 1) /\
    (forall i j r r', (i < j)%nat -> rs !! i = Some r -> rs !! j = Some r' ->
       end_ r < start r') /\
    (forall i, (exists r, r ∈ rs /\ start r <= i <= end_ r) <->
               StartIndex (opts f) <= i < EndIndex (opts f)).
Proof.
intros Hc Hb1 Hle Hb Hs He Hov Hdone.
destruct (genRanges_loop_tiles e (BatchSize (opts f)) Hdone Hb1 Hb
            (Z.to_nat (EndIndex (opts f) - StartIndex (opts f))) 0
            (StartIndex (opts f)) (EndIndex (opts f)))
  as (rs & Ht & Hrun); try assumption; [lia|].
exists rs.
destruct (tiles_lookup _ _ _ _ Ht) as (Hhd & Hall & Hnext & Hlt).
destruct (tiles_in_range _ _ _ _ Ht) as (_ & Hcov).
split; [|split; [|split; [|split; [|split]]]]; try assumption.
- exists (S (Z.to_nat (EndIndex (opts f) - StartIndex (opts f)))).
  intros fuel Hf. unfold genRanges. rewrite Hc, (int64_id _ Hb).
  apply Hrun. lia.
- intros r Hr. specialize (Hall r Hr). lia.
- intros i. rewrite <- Hcov. split; intros (r & Hr & Hin); exists r;
    (split; [exact Hr|]); unfold in_range in *; lia.
Qed.

Lemma genRanges_tiles_witness :
  exists rs,
    (exists fuel0, forall fuel, (fuel0 <= fuel)%nat ->
       genRanges fetcher_3_25 env_quiet fuel = (rs, true)) /\
    (forall i, (exists r, r ∈ rs /\ start r <= i <= end_ r) <-> 3 <= i < 25).
Proof.
destruct (genRanges_tiles fetcher_3_25 env_quiet) as (rs & H1 & _ & _ & _ & _ & H2);
  try (cbn; unfold is_int64; lia); try reflexivity.
exists rs. split; [exact H1 | exact H2].
Defined.

(** With [BatchSize = 0] the generator never closes the channel: it keeps
    sending the empty range [3, 2]. *)
Example genRanges_zero_batch :
  genRanges {| opts := {| BatchSize := 0; ParallelFetch := 1; StartIndex := 3;
                          EndIndex := 25; Continuous := false |};
               sth := Some {| TreeSize := 25 |} |} env_quiet 4 =
  (replicate 4 {| start := 3; end_ := 2 |}, false).
Proof. vm_compute. reflexivity. Qed.

Example genRanges_3_25 :
  genRanges fetcher_3_25 env_quiet 4 =
  ([ {| start := 3; end_ := 12 |}; {| start := 13; end_ := 22 |};
     {| start := 23; end_ := 24 |} ], true).
Proof. vm_compute. reflexivity. Qed.

End genRanges_claims.
Section runWorker_facts.
Import scanner.

Lemma cover_cons (i : Z) (b : EntryBatch) (bs : list EntryBatch) :
  cover i (b :: bs) = ((if covers i b then 1 else 0) + cover i bs)%nat.
Proof.
unfold cover. rewrite filter_cons. destruct (covers i b) eqn:E.
- rewrite decide_True by reflexivity. reflexivity.
- rewrite decide_False by discriminate. reflexivity.
Qed.

Lemma cover_app (i : Z) (bs1 bs2 : list EntryBatch) :
  cover i (bs1 ++ bs2) = (cover i bs1 + cover i bs2)%nat.
Proof. unfold cover. rewrite filter_app, length_app. reflexivity. Qed.

Lemma rcover_cons (i : Z) (r : fetchRange) (rs : list fetchRange) :
  rcover i (r :: rs) = ((if in_range i r then 1 else 0) + rcover i rs)%nat.
Proof.
unfold rcover. rewrite filter_cons. destruct (in_range i r) eqn:E.
- rewrite decide_True by reflexivity. reflexivity.
- rewrite decide_False by discriminate. reflexivity.
Qed.

(** More fuel does not change a finished run. *)
Lemma runRange_mono (e : env) (w : nat) (fuel : nat) :
  forall k r st k' bs,
    runRange e w fuel k r = (st, k', bs) -> st <> Running ->
    forall fuel', (fuel <= fuel')%nat -> runRange e w fuel' k r = (st, k', bs).
Proof.
induction fuel as [|fuel IH]; intros k r st k' bs H Hst fuel' Hf.
- cbn in H. inversion H; subst. congruence.
- destruct fuel' as [|fuel']; [lia|]. cbn [runRange] in *.
  destruct (start r <=? end_ r); [|exact H].
  destruct (ctxErr e w k); [exact H|].
  destruct (GetRawEntries e w k (start r) (end_ r)) as [es|].
  + destruct (runRange e w fuel (S k) _) as [[st1 k1] bs1] eqn:E.
    inversion H; subst.
    rewrite (IH _ _ _ _ _ E Hst fuel') by lia. reflexivity.
  + apply IH; [exact H | exact Hst | lia].
Qed.

Lemma runWorker_mono (e : env) (w : nat) (fuel : nat) (rs : list fetchRange) :
  forall k st bs,
    runWorker e w fuel k rs = (st, bs) -> st <> Running ->
    forall fuel', (fuel <= fuel')%nat -> runWorker e w fuel' k rs = (st, bs).
Proof.
induction rs as [|r rs IH]; intros k st bs H Hst fuel' Hf; [exact H|].
cbn [runWorker] in *.
destruct (runRange e w fuel k r) as [[st1 k1] bs1] eqn:E.
assert (Hst1 : st1 <> Running).
{ destruct st1; [inversion H; subst; congruence | discriminate..]. }
rewrite (runRange_mono _ _ _ _ _ _ _ _ E Hst1 fuel' Hf).
destruct st1; [exact H | exact H |].
destruct (runWorker e w fuel k1 rs) as [st2 bs2] eqn:E2.
inversion H; subst.
rewrite (IH _ _ _ E2 Hst fuel' Hf). reflexivity.
Qed.

Lemma runRange_covers (e : env) (w : nat) :
  well_served e w ->
  forall (n : nat) (r : fetchRange) (k : nat),
    is_int64 (start r) -> end_ r < 2 ^ 63 - 1 ->
    end_ r - start r + 1 < 2 ^ 63 ->
    end_ r - start r + 1 <= Z.of_nat n ->
    exists fuel k' bs,
      runRange e w fuel k r = (Completed, k', bs) /\
      (forall b, b ∈ bs -> Entries b <> []) /\
      forall i, cover i bs = if in_range i r then 1%nat else 0%nat.
Proof.
intros (Hctx & Hlive & Hresp).
assert (Hdone : forall r k, end_ r < start r ->
          exists fuel k' bs,
            runRange e w fuel k r = (Completed, k', bs) /\
            (forall b, b ∈ bs -> Entries b <> []) /\
            forall i, cover i bs = if in_range i r then 1%nat else 0%nat).
{ intros r k Hgt. exists 1%nat, k, []. cbn.
  destruct (Z.leb_spec (start r) (end_ r)); [lia|].
  split; [reflexivity|]. split; [intros b Hb; inversion Hb|].
  intros i. unfold in_range.
  destruct (Z.leb_spec (start r) i), (Z.leb_spec i (end_ r)); cbn; try reflexivity; lia. }
induction n as [|n IHn]; intros r k Hs He Hw Hn.
- apply Hdone. lia.
- destruct (Z.leb_spec (start r) (end_ r)) as [Hle|Hgt]; [|apply Hdone; lia].
  assert (Hsucc : forall k es, GetRawEntries e w k (start r) (end_ r) = Some es ->
            exists fuel k' bs,
              runRange e w fuel k r = (Completed, k', bs) /\
              (forall b, b ∈ bs -> Entries b <> []) /\
              forall i, cover i bs = if in_range i r then 1%nat else 0%nat).
  { clear k. intros k es E.
    pose proof (Hresp _ _ _ _ Hle E) as Hlen.
    set (r' := {| start := add64 (start r) (int64 (Z.of_nat (length es)));
                  end_ := end_ r |}).
    assert (Hstart : start r' = start r + Z.of_nat (length es)).
    { cbn. unfold add64. rewrite (int64_id (Z.of_nat _)) by (unfold is_int64 in *; lia).
      apply int64_id. unfold is_int64 in *. lia. }
    destruct (IHn r' (S k)) as (fuel & k' & bs & Hrun & Hne & Hcov).
    { rewrite Hstart. unfold is_int64 in *. lia. }
    { exact He. }
    { rewrite Hstart. cbn [end_ r']. lia. }
    { rewrite Hstart. cbn [end_ r']. lia. }
    exists (S fuel), k', ({| Start := start r; Entries := es |} :: bs).
    split; [|split].
    - cbn [runRange]. destruct (Z.leb_spec (start r) (end_ r)); [|lia].
      rewrite Hctx, E. fold r'. rewrite Hrun. reflexivity.
    - intros b Hb. apply elem_of_cons in Hb as [-> | Hb]; [|auto].
      cbn. destruct es; [cbn in Hlen; lia | discriminate].
    - intros i. rewrite cover_cons, Hcov. unfold covers, in_range. cbn [Start Entries].
      rewrite Hstart. cbn [end_ r'].
      destruct (Z.leb_spec (start r) i), (Z.ltb_spec i (start r + Z.of_nat (length es))),
               (Z.leb_spec (start r + Z.of_nat (length es)) i), (Z.leb_spec i (end_ r));
        cbn; try reflexivity; lia. }
  destruct (Hlive k (start r) (end_ r)) as [d Hd].
  revert k Hd. induction d as [|d IHd]; intros k Hd;
    destruct (GetRawEntries e w k (start r) (end_ r)) as [es|] eqn:E;
    try (eapply Hsucc; exact E).
  + rewrite Nat.add_0_r in Hd. congruence.
  + destruct (IHd (S k)) as (fuel & k' & bs & Hrun & Hne & Hcov).
    { replace (S k + d)%nat with (k + S d)%nat by lia. exact Hd. }
    exists (S fuel), k', bs. split; [|split; assumption].
    cbn [runRange]. destruct (Z.leb_spec (start r) (end_ r)); [|lia].
    rewrite Hctx, E. exact Hrun.
Qed.

End runWorker_facts.
Section Run_facts.
Import scanner.

Lemma runWorker_covers (e : env) (w : nat) :
  well_served e w ->
  forall (rs : list fetchRange) (k : nat),
    Forall good_range rs ->
    exists fuel bs,
      runWorker e w fuel k rs = (Completed, bs) /\
      (forall b, b ∈ bs -> Entries b <> []) /\
      forall i, cover i bs = rcover i rs.
Proof.
intros Hws. induction rs as [|r rs IH]; intros k Hgood.
- exists 0%nat, []. split; [reflexivity|]. split; [intros b Hb; inversion Hb | reflexivity].
- apply Forall_cons in Hgood as [(Hs & He & Hw) Hgood].
  destruct (runRange_covers e w Hws (Z.to_nat (end_ r - start r + 1)) r k)
    as (fuel1 & k1 & bs1 & Hrun1 & Hne1 & Hcov1); try assumption; [lia|].
  destruct (IH k1 Hgood) as (fuel2 & bs2 & Hrun2 & Hne2 & Hcov2).
  exists (Nat.max fuel1 fuel2), (bs1 ++ bs2). split; [|split].
  + cbn [runWorker].
    rewrite (runRange_mono _ _ _ _ _ _ _ _ Hrun1 ltac:(discriminate) (Nat.max fuel1 fuel2))
      by lia.
    rewrite (runWorker_mono _ _ _ _ _ _ _ Hrun2 ltac:(discriminate) (Nat.max fuel1 fuel2))
      by lia.
    reflexivity.
  + intros b Hb. apply elem_of_app in Hb as [Hb|Hb]; auto.
  + intros i. rewrite cover_app, rcover_cons, Hcov1, Hcov2. reflexivity.
Qed.

Lemma received_good (e : env) (cnt w : nat) (rs : list fetchRange) :
  forall j, Forall good_range rs -> Forall good_range (received e cnt w j rs).
Proof.
induction rs as [|r rs IH]; intros j H; [constructor|].
apply Forall_cons in H as [Hr H]. cbn.
destruct (_ =? _)%nat; [constructor|]; auto.
Qed.

Lemma sum_list_pick_absent (x c : nat) (f : nat -> nat) (ws : list nat) :
  x ∉ ws ->
  sum_list (map (fun w => (if (x =? w)%nat then c else 0) + f w)%nat ws) =
  sum_list (map f ws).
Proof.
induction ws as [|w ws IH]; intros Hx; [reflexivity|].
apply not_elem_of_cons in Hx as [Hne Hx]. cbn.
destruct (Nat.eqb_spec x w); [congruence|]. rewrite IH by exact Hx. reflexivity.
Qed.

Lemma sum_list_pick (x c : nat) (f : nat -> nat) (ws : list nat) :
  NoDup ws -> x ∈ ws ->
  sum_list (map (fun w => (if (x =? w)%nat then c else 0) + f w)%nat ws) =
  (c + sum_list (map f ws))%nat.
Proof.
induction ws as [|w ws IH]; intros Hnd Hx; [inversion Hx|].
apply NoDup_cons in Hnd as [Hw Hnd]. cbn.
destruct (Nat.eqb_spec x w) as [->|Hne].
- rewrite sum_list_pick_absent by exact Hw. lia.
- apply elem_of_cons in Hx as [Hx|Hx]; [congruence|].
  rewrite IH by assumption. lia.
Qed.

(** Every range is received by exactly one of the [cnt] workers. *)
Lemma received_sum (e : env) (cnt : nat) (i : Z) (rs : list fetchRange) :
  (0 < cnt)%nat ->
  forall j,
    sum_list (map (fun w => rcover i (received e cnt w j rs)) (seq 0 cnt)) = rcover i rs.
Proof.
intros Hcnt. induction rs as [|r rs IH]; intros j.
- cbn [received]. unfold rcover at 1. cbn.
  induction (seq 0 cnt); [reflexivity | cbn; assumption].
- rewrite rcover_cons, <- (IH (S j)).
  rewrite <- (sum_list_pick (recv e j mod cnt));
    [| apply NoDup_seq | apply elem_of_seq; pose proof (Nat.mod_upper_bound (recv e j) cnt); lia].
  f_equal. apply map_ext. intros w. cbn [received].
  destruct (Nat.eqb_spec (recv e j mod cnt) w); [apply rcover_cons | reflexivity].
Qed.

Lemma cover_concat (i : Z) (L : list (list EntryBatch)) :
  cover i (concat L) = sum_list (map (cover i) L).
Proof.
induction L as [|bs L IH]; [reflexivity|].
cbn [concat]. rewrite cover_app, IH. reflexivity.
Qed.

Lemma workers_complete (e : env) (cnt : nat) (ranges : list fetchRange) :
  (forall w, well_served e w) -> Forall good_range ranges ->
  forall ws : list nat,
    exists fuel0, forall fuel, (fuel0 <= fuel)%nat ->
      Forall (fun w => exists bs,
                runWorker e w fuel 0 (received e cnt w 0 ranges) = (Completed, bs) /\
                (forall b, b ∈ bs -> Entries b <> []) /\
                forall i, cover i bs = rcover i (received e cnt w 0 ranges)) ws.
Proof.
intros Hws Hgood. induction ws as [|w ws (fuel0 & IH)].
- exists 0%nat. constructor.
- destruct (runWorker_covers e w (Hws w) (received e cnt w 0 ranges) 0)
    as (fuel1 & bs & Hrun & Hne & Hcov); [apply received_good; exact Hgood|].
  exists (Nat.max fuel0 fuel1). intros fuel Hf. constructor; [|apply IH; lia].
  exists bs. split; [|split; assumption].
  apply (runWorker_mono _ _ _ _ _ _ _ Hrun); [discriminate | lia].
Qed.

Lemma cover_le_1_disjoint (i : Z) (bs : list EntryBatch) :
  (cover i bs <= 1)%nat ->
  forall p q b1 b2, p <> q -> bs !! p = Some b1 -> bs !! q = Some b2 ->
    covers i b1 = true -> covers i b2 = true -> False.
Proof.
induction bs as [|b bs IH]; intros Hc p q b1 b2 Hpq H1 H2 C1 C2.
- rewrite lookup_nil in H1. discriminate.
- rewrite cover_cons in Hc.
  assert (Hin : forall n b', bs !! n = Some b' -> covers i b' = true -> (1 <= cover i bs)%nat).
  { clear. intros n b' Hn Hb'. revert n Hn.
    induction bs as [|b0 bs IH]; intros n Hn; [rewrite lookup_nil in Hn; discriminate|].
    rewrite cover_cons. destruct n as [|n]; cbn in Hn.
    - inversion Hn; subst. rewrite Hb'. lia.
    - specialize (IH _ Hn). lia. }
  destruct p as [|p], q as [|q]; cbn in H1, H2; try congruence.
  + inversion H1; subst. rewrite C1 in Hc. specialize (Hin _ _ H2 C2). lia.
  + inversion H2; subst. rewrite C2 in Hc. specialize (Hin _ _ H1 C1). lia.
  + apply (IH ltac:(lia) p q b1 b2); auto.
Qed.

Lemma cover_ge_1_elem (i : Z) (bs : list EntryBatch) :
  (1 <= cover i bs)%nat <-> exists b, b ∈ bs /\ covers i b = true.
Proof.
induction bs as [|b bs IH].
- cbn. split; [lia | intros (b & Hb & _); inversion Hb].
- rewrite cover_cons. split.
  + intros H. destruct (covers i b) eqn:E.
    * exists b. split; [constructor | exact E].
    * destruct (proj1 IH ltac:(lia)) as (b' & Hb' & C). exists b'. split; [now constructor | exact C].
  + intros (b' & Hb' & C). apply elem_of_cons in Hb' as [-> | Hb'].
    * rewrite C. lia.
    * assert (1 <= cover i bs)%nat by (apply IH; eauto). lia.
Qed.

Lemma cover_Permutation (i : Z) (bs bs' : list EntryBatch) :
  bs ≡ₚ bs' -> cover i bs = cover i bs'.
Proof. intros H. unfold cover. rewrite H. reflexivity. Qed.

Lemma tiles_good (batch : Z) (rs : list fetchRange) :
  batch < 2 ^ 63 ->
  forall s e, is_int64 s -> is_int64 e -> tiles batch s rs e -> Forall good_range rs.
Proof.
intros Hb. induction rs as [|r rs IH]; intros s e Hs He H; [constructor|].
cbn in H. destruct H as (Hst & Hle & Hsz & Ht).
pose proof (tiles_in_range _ _ _ _ Ht) as [Hle' _].
constructor.
- unfold good_range, is_int64 in *. lia.
- apply (IH (end_ r + 1) e); [unfold is_int64 in *; lia | exact He | exact Ht].
Qed.

Lemma rcover_tiles (batch : Z) (rs : list fetchRange) (i : Z) :
  forall s e, tiles batch s rs e ->
    rcover i rs = if (s <=? i) && (i <? e) then 1%nat else 0%nat.
Proof.
induction rs as [|r rs IH]; intros s e H; cbn in H.
- subst. unfold rcover. cbn.
  destruct (Z.leb_spec e i), (Z.ltb_spec i e); cbn; try reflexivity; lia.
- destruct H as (Hst & Hle & Hsz & Ht).
  pose proof (tiles_in_range _ _ _ _ Ht) as [Hle' _].
  rewrite rcover_cons, (IH _ _ Ht). unfold in_range. rewrite Hst.
  destruct (Z.leb_spec s i), (Z.leb_spec i (end_ r)), (Z.leb_spec (end_ r + 1) i),
           (Z.ltb_spec i e); cbn; try reflexivity; lia.
Qed.

End Run_facts.
Section Run_claims.
Import scanner.

Lemma genRanges_rcover (f : Fetcher) (e : env) :
  Continuous (opts f) = false ->
  1 <= BatchSize (opts f) -> is_int64 (BatchSize (opts f)) ->
  is_int64 (StartIndex (opts f)) -> is_int64 (EndIndex (opts f)) ->
  EndIndex (opts f) - StartIndex (opts f) < 2 ^ 63 ->
  (forall n, genDone e n = false) ->
  exists rs fuel0,
    (forall fuel, (fuel0 <= fuel)%nat -> genRanges f e fuel = (rs, true)) /\
    Forall good_range rs /\
    forall i, rcover i rs =
              if (StartIndex (opts f) <=? i) && (i <? EndIndex (opts f))
              then 1%nat else 0%nat.
Proof.
intros Hc Hb1 Hb Hs He Hov Hdone.
destruct (Z.le_gt_cases (StartIndex (opts f)) (EndIndex (opts f))) as [Hle|Hgt].
- destruct (genRanges_loop_tiles e (BatchSize (opts f)) Hdone Hb1 Hb
              (Z.to_nat (EndIndex (opts f) - StartIndex (opts f))) 0
              (StartIndex (opts f)) (EndIndex (opts f)))
    as (rs & Ht & Hrun); try assumption; [lia|].
  exists rs, (S (Z.to_nat (EndIndex (opts f) - StartIndex (opts f)))).
  split; [|split].
  + intros fuel Hf. unfold genRanges. rewrite Hc, (int64_id _ Hb). apply Hrun. lia.
  + eapply tiles_good; [| | |exact Ht]; [unfold is_int64 in Hb; lia | assumption..].
  + intros i. eapply rcover_tiles. exact Ht.
- exists [], 1%nat. split; [|split].
  + intros [|fuel] Hf; [lia|]. unfold genRanges. rewrite Hc. cbn.
    destruct (Z.ltb_spec (StartIndex (opts f)) (EndIndex (opts f))); [lia | reflexivity].
  + constructor.
  + intros i. unfold rcover. cbn.
    destruct (Z.leb_spec (StartIndex (opts f)) i), (Z.ltb_spec i (EndIndex (opts f)));
      cbn; try reflexivity; lia.
Qed.

(** C7, as stated, fails without a worker: with [ParallelFetch = 0], [Run]
    returns at once and no batch is delivered. *)
Lemma Run_without_workers :
  ~ (forall (f f' : Fetcher) (e : env) (fuel : nat) (outs : list (list EntryBatch)),
       Continuous (opts f) = false ->
       1 <= BatchSize (opts f) ->
       0 <= StartIndex (opts f) <= EndIndex (opts f) ->
       (forall n, genDone e n = false) ->
       (forall w, well_served e w) ->
       Run f e fuel = Some (f', false, outs) ->
       forall i, StartIndex (opts f') <= i < EndIndex (opts f') ->
         exists b, b ∈ concat outs /\ covers i b = true).
Proof.
intros H.
destruct (H fetcher_idle fetcher_idle env_quiet 1%nat []) with (i := 3)
  as (b & Hb & _); try reflexivity; try (cbn; lia).
- intros w. split; [reflexivity|]. split.
  + intros k s en. exists 0%nat. discriminate.
  + intros k s en es Hle [= <-]. rewrite length_replicate. lia.
- inversion Hb.
Qed.

(** C7 (amended).  In non-continuous mode with at least one worker,
    [BatchSize >= 1] and an index span within int64, in a run that is not
    cancelled and in which every request is eventually answered with
    between 1 and [end - start + 1] entries: [Run] returns without error,
    no delivered batch is empty, an index lies in the span of a delivered
    batch exactly if it lies in [[StartIndex, EndIndex)], and the spans of
    two delivered batches never share an index, in whatever order the
    workers' calls of [fn] interleave. *)
Theorem Run_covers_exactly (f f' : Fetcher) (e : env) (s : SignedTreeHead) :
  Prepare f e = (f', Some s) ->
  Continuous (opts f') = false ->
  1 <= ParallelFetch (opts f') ->
  1 <= BatchSize (opts f') -> is_int64 (BatchSize (opts f')) ->
  is_int64 (StartIndex (opts f')) -> is_int64 (EndIndex (opts f')) ->
  EndIndex (opts f') - StartIndex (opts f') < 2 ^ 63 ->
  (forall n, genDone e n = false) ->
  (forall w, well_served e w) ->
  exists outs,
    (exists fuel0, forall fuel, (fuel0 <= fuel)%nat ->
       Run f e fuel = Some (f', false, outs)) /\
    forall delivered, delivered ≡ₚ concat outs ->
      (forall b, b ∈ delivered -> Entries b <> []) /\
      (forall i, (exists b, b ∈ delivered /\ covers i b = true) <->
                 StartIndex (opts f') <= i < EndIndex (opts f')) /\
      (forall i p q b1 b2, p <> q ->
         delivered !! p = Some b1 -> delivered !! q = Some b2 ->
         covers i b1 = true -> covers i b2 = true -> False).
Proof.
intros Hprep Hc Hp Hb1 Hb Hs He Hov Hdone Hws.
destruct (genRanges_rcover f' e Hc Hb1 Hb Hs He Hov Hdone)
  as (rs & fuelg & Hgen & Hgood & Hrc).
set (cnt := Z.to_nat (ParallelFetch (opts f'))).
assert (Hcnt : (0 < cnt)%nat) by (unfold cnt; lia).
destruct (workers_complete e cnt rs Hws Hgood (seq 0 cnt)) as (fuelw & Hwork).
set (fuel0 := Nat.max fuelg fuelw).
set (outs := map (fun w => snd (runWorker e w fuel0 0 (received e cnt w 0 rs))) (seq 0 cnt)).
assert (Hout : forall w, w ∈ seq 0 cnt ->
          runWorker e w fuel0 0 (received e cnt w 0 rs) =
            (Completed, snd (runWorker e w fuel0 0 (received e cnt w 0 rs))) /\
          (forall b, b ∈ snd (runWorker e w fuel0 0 (received e cnt w 0 rs)) ->
             Entries b <> []) /\
          forall i, cover i (snd (runWorker e w fuel0 0 (received e cnt w 0 rs))) =
                    rcover i (received e cnt w 0 rs)).
{ intros w Hw. specialize (Hwork fuel0 ltac:(lia)).
  rewrite Forall_forall in Hwork. destruct (Hwork w Hw) as (bs & Hrun & Hne & Hcov).
  rewrite Hrun. cbn. auto. }
exists outs. split.
- exists fuel0. intros fuel Hf. unfold Run. rewrite Hprep. fold cnt.
  destruct (Nat.eqb_spec cnt 0); [lia|].
  rewrite (Hgen fuel) by lia.
  assert (Hmap : map (fun w => runWorker e w fuel 0 (received e cnt w 0 rs)) (seq 0 cnt) =
                 map (fun w => (Completed, snd (runWorker e w fuel0 0 (received e cnt w 0 rs))))
                     (seq 0 cnt)).
  { apply map_ext_in. intros w Hw%list_elem_of_In.
    destruct (Hout w Hw) as (Hrun & _).
    apply (runWorker_mono _ _ _ _ _ _ _ Hrun); [discriminate | lia]. }
  rewrite Hmap, map_map. cbn [snd andb].
  replace (forallb _ _) with true; [reflexivity|].
  symmetry. apply forallb_forall. intros o Ho. apply in_map_iff in Ho as (w & <- & _).
  reflexivity.
- intros delivered Hperm.
  assert (Hcover : forall i, cover i delivered =
            if (StartIndex (opts f') <=? i) && (i <? EndIndex (opts f'))
            then 1%nat else 0%nat).
  { intros i. rewrite (cover_Permutation _ _ _ Hperm), cover_concat.
    unfold outs. rewrite map_map, <- Hrc, <- (received_sum e cnt i rs Hcnt 0).
    f_equal. apply map_ext_in. intros w Hw%list_elem_of_In.
    apply (Hout w Hw). }
  split; [|split].
  + intros b Hb'. rewrite Hperm in Hb'. apply list_elem_of_In, in_concat in Hb' as (bs & Hin & Hbs).
    apply list_elem_of_In in Hin, Hbs.
    unfold outs in Hin. apply list_elem_of_fmap in Hin as (w & -> & Hw).
    apply (Hout w Hw). exact Hbs.
  + intros i. rewrite <- cover_ge_1_elem, Hcover.
    destruct (Z.leb_spec (StartIndex (opts f')) i), (Z.ltb_spec i (EndIndex (opts f')));
      cbn; lia.
  + intros i. apply cover_le_1_disjoint. rewrite Hcover.
    destruct (_ && _); lia.
Qed.

Lemma env_partial_well_served (w : nat) : well_served env_partial w.
Proof.
split; [reflexivity|]. split.
- intros k s en. cbn. destruct (Nat.even k) eqn:E.
  + exists 1%nat. rewrite Nat.add_1_r, Nat.even_succ, <- Nat.negb_even, E. discriminate.
  + exists 0%nat. rewrite Nat.add_0_r, E. discriminate.
- intros k s en es Hle. cbn. destruct (Nat.even k); [discriminate|].
  intros [= <-]. rewrite length_replicate. lia.
Qed.

Lemma Run_covers_exactly_witness :
  exists outs,
    (exists fuel0, forall fuel, (fuel0 <= fuel)%nat ->
       Run fetcher_new env_partial fuel = Some (fetcher_3_25, false, outs)) /\
    forall i, (exists b, b ∈ concat outs /\ covers i b = true) <-> 3 <= i < 25.
Proof.
destruct (Run_covers_exactly fetcher_new fetcher_3_25 env_partial {| TreeSize := 25 |})
  as (outs & Hrun & Hdel);
  try reflexivity; try (cbn; unfold is_int64; lia).
- exact env_partial_well_served.
- exists outs. split; [exact Hrun|].
  destruct (Hdel (concat outs) (Permutation_refl _)) as (_ & Hcov & _). exact Hcov.
Defined.

Example Run_fetcher_new :
  Run fetcher_new env_partial 20 =
  Some (fetcher_3_25, false,
        [ map (fun p => {| Start := fst p; Entries := replicate (snd p) ([], []) |})
              [(3, 4%nat); (7, 4%nat); (11, 2%nat); (23, 2%nat)];
          map (fun p => {| Start := fst p; Entries := replicate (snd p) ([], []) |})
              [(13, 4%nat); (17, 4%nat); (21, 2%nat)] ]).
Proof. vm_compute. reflexivity. Qed.

End Run_claims.

Section empty_response.
Import scanner.

(** C3, as stated, fails: the answer with zero entries is handed to [fn]. *)
Lemma empty_response_is_delivered :
  ~ (forall (e : env) (w fuel k : nat) (r : fetchRange) st k' bs,
       runRange e w fuel k r = (st, k', bs) ->
       forall b, b ∈ bs -> Entries b <> []).
Proof.
intros H.
apply (H env_empty_once 0%nat 3%nat 0%nat {| start := 0; end_ := 2 |}
         Completed 2%nat
         [ {| Start := 0; Entries := [] |};
           {| Start := 0; Entries := replicate 3 ([], []) |} ]
         ltac:(vm_compute; reflexivity)
         {| Start := 0; Entries := [] |} ltac:(constructor)).
reflexivity.
Qed.

Lemma runRange_empty_step (e : env) (w fuel k : nat) (r : fetchRange) :
  is_int64 (start r) ->
  start r <= end_ r ->
  ctxErr e w k = false ->
  GetRawEntries e w k (start r) (end_ r) = Some [] ->
  runRange e w (S fuel) k r =
  let '(st, k', bs) := runRange e w fuel (S k) r in
  (st, k', {| Start := start r; Entries := [] |} :: bs).
Proof.
intros Hs Hle Hctx Hresp. cbn [runRange].
destruct (Z.leb_spec (start r) (end_ r)); [|lia].
rewrite Hctx, Hresp.
assert (Hz : add64 (start r) (int64 (Z.of_nat (length (@nil LeafEntry)))) = start r).
{ change (Z.of_nat (length (@nil LeafEntry))) with 0. unfold add64.
  rewrite (int64_id 0) by (unfold is_int64; lia).
  rewrite Z.add_0_r. apply int64_id. exact Hs. }
rewrite Hz. destruct r; reflexivity.
Qed.

(** C3 (amended).  A [GetRawEntries] call that succeeds with zero entries
    is handled as a success without progress: [fn] is called with an empty
    batch that starts at [r.start], [r] is left as it is, and the next turn
    of the loop requests the same range again. *)
Theorem runRange_empty_response (e : env) (w fuel k : nat) (r : fetchRange) :
  is_int64 (start r) ->
  start r <= end_ r ->
  ctxErr e w k = false ->
  GetRawEntries e w k (start r) (end_ r) = Some [] ->
  exists st k' bs,
    runRange e w fuel (S k) r = (st, k', bs) /\
    runRange e w (S fuel) k r =
      (st, k', {| Start := start r; Entries := [] |} :: bs).
Proof.
intros Hs Hle Hctx Hresp.
rewrite (runRange_empty_step e w fuel k r Hs Hle Hctx Hresp).
destruct (runRange e w fuel (S k) r) as [[st k'] bs]. eauto.
Qed.

Lemma runRange_empty_response_witness :
  exists st k' bs,
    runRange env_empty_once 0 2 1 {| start := 0; end_ := 2 |} = (st, k', bs) /\
    runRange env_empty_once 0 3 0 {| start := 0; end_ := 2 |} =
      (st, k', {| Start := 0; Entries := [] |} :: bs).
Proof.
apply (runRange_empty_response env_empty_once 0 2 0 {| start := 0; end_ := 2 |}).
- unfold is_int64. cbn. lia.
- cbn. lia.
- reflexivity.
- reflexivity.
Defined.

(** Against a log that answers every request with zero entries the worker
    stays on the range, calling [fn] at every turn. *)
Lemma runRange_always_empty (e : env) (w : nat) (r : fetchRange) :
  is_int64 (start r) -> start r <= end_ r ->
  (forall k, ctxErr e w k = false) ->
  (forall k, GetRawEntries e w k (start r) (end_ r) = Some []) ->
  forall fuel k,
    runRange e w fuel k r =
    (Running, (k + fuel)%nat, replicate fuel {| Start := start r; Entries := [] |}).
Proof.
intros Hs Hle Hctx Hresp. induction fuel as [|fuel IH]; intros k.
- cbn. rewrite Nat.add_0_r. reflexivity.
- rewrite runRange_empty_step by auto.
  rewrite IH. cbn. do 2 f_equal. lia.
Qed.

End empty_response.

(** * More of the code

    Properties of the functions around those above: the rest of
    fixchain/hash.go and fixchain/logger.go, a helper of the fixchain tests,
    and the rest of scanner/fetcher.go. *)

(** ** fixchain: [hash] and [hashChain] on every input *)

Section hash_extras.
Import x509 fixchain.

(** X1.  [hashChain] returns the SHA-256 digest of what it writes to the
    running hash: for each certificate of the chain, in order, the raw
    encoding followed by the 32-byte digest of the empty input (the result
    of [newHash().Sum(c.Raw)]).  The result always has 32 bytes.  Nothing
    marks where an encoding ends: the chain of the one certificate whose
    encoding is that of [x], the digest of the empty input and that of [y]
    gets the same hash as the chain [x; y]. *)
Theorem hashChain_frames_with_empty_digest :
  (forall ch : list Certificate,
     hashChain ch = sha256.Sum256 (flat_map (fun c => Raw c ++ sha256.Sum256 []) ch)) /\
  (forall ch : list Certificate, length (hashChain ch) = 32%nat) /\
  (forall x y : Certificate,
     hashChain [ {| Raw := Raw x ++ sha256.Sum256 [] ++ Raw y |} ] = hashChain [x; y]).
Proof.
split; [exact hashChain_digest|]. split.
- intros ch. rewrite hashChain_digest. apply Sum256_length.
- intros x y. rewrite !hashChain_digest. cbn [flat_map Raw]. f_equal.
  rewrite !app_nil_r, <- !app_assoc. reflexivity.
Qed.

(** X2.  For a certificate whose raw encoding has at least 32 bytes,
    [hash] returns the first 32 bytes of the encoding; so every
    certificate whose encoding starts with the same 32 bytes has the same
    [hash]. *)
Theorem hash_reads_32_bytes (c1 c2 : Certificate) :
  (32 <= length (Raw c1))%nat ->
  take 32 (Raw c1) = take 32 (Raw c2) ->
  hash c1 = take 32 (Raw c1) /\ hash c2 = hash c1.
Proof.
intros Hlen Heq.
assert (Hlen2 : (32 <= length (Raw c2))%nat).
{ apply (f_equal length) in Heq. rewrite !length_take in Heq. lia. }
rewrite !hash_prefix by assumption. auto.
Qed.

Lemma hash_reads_32_bytes_witness :
  hash cert_a = take 32 (Raw cert_a) /\ hash cert_b = hash cert_a.
Proof.
apply (hash_reads_32_bytes cert_a cert_b).
- cbn. lia.
- reflexivity.
Defined.

End hash_extras.

(** ** fixchain: [bag.Less], [bag.Swap] and nil elements *)

Section bag_extras.
Import x509 fixchain.
Local Open Scope go_scope.

(** X3.  The comparison [bag.Less] makes of two raw encodings (shorter
    first, then byte by byte) is a strict total order: no encoding is less
    than itself, the comparison is transitive, and of two different
    encodings exactly one is less than the other.  This is what
    [sort.Sort] needs of [Less] to sort. *)
Theorem Less_is_a_strict_total_order :
  (forall a : list Z, Less_raw a a = false) /\
  (forall a b c : list Z,
     Less_raw a b = true -> Less_raw b c = true -> Less_raw a c = true) /\
  (forall a b : list Z, a <> b -> Less_raw a b = negb (Less_raw b a)).
Proof.
split; [exact Less_raw_irrefl|]. split.
- intros a b c Hab Hbc.
  destruct (Less_raw_negtrans a c b Hab) as [H|H]; [exact H|].
  apply Less_raw_asym in Hbc. congruence.
- intros a b Hne.
  destruct (Less_raw a b) eqn:Eab, (Less_raw b a) eqn:Eba; try reflexivity.
  + apply Less_raw_asym in Eab. congruence.
  + exfalso. apply Hne. apply Less_raw_antisym; assumption.
Qed.

(** [bag.Swap] on a bag that spans the array at [a], whatever the
    pointers in it. *)
Lemma bag_Swap_array (st : store) (a : addr) (arr : list (option Certificate)) (i j : nat) :
  st !! a = Some arr ->
  bag_Swap {| certs := whole a (length arr) |} i j st =
  match arr !! i, arr !! j with
  | Some t, Some u => Some (tt, <[a := <[j := t]> (<[i := u]> arr)]> st)
  | _, _ => None
  end.
Proof.
intros H. unfold bag_Swap, bind. cbn [certs].
rewrite index_peek, (peek_whole _ _ _ _ H).
destruct (arr !! i) as [t|] eqn:Hi; [|reflexivity]. cbn.
rewrite index_peek, (peek_whole _ _ _ _ H).
destruct (arr !! j) as [u|] eqn:Hj; [|reflexivity]. cbn.
apply lookup_lt_Some in Hi, Hj.
rewrite (assign_whole st a _ i u H) by lia.
pose proof (assign_whole (<[a:=<[i:=u]> arr]> st) a (<[i:=u]> arr) j t) as H2.
rewrite length_insert in H2. rewrite H2.
2:{ apply lookup_insert_eq. }
2:{ lia. }
rewrite insert_insert_eq. reflexivity.
Qed.

(** X4.  On a bag that spans the array [arr]: with [i] and [j] in range,
    [Swap(i, j)] returns, the array then holds the old [arr[j]] at [i] and
    the old [arr[i]] at [j], every other element stays, the elements are
    the same as before up to order, no other array is written, and a
    second [Swap(i, j)] restores the store; with [i] or [j] out of range
    [Swap] panics. *)
Theorem bag_Swap_exchanges (st : store) (a : addr) (arr : list (option Certificate))
    (i j : nat) :
  st !! a = Some arr ->
  match arr !! i, arr !! j with
  | Some t, Some u =>
      exists st' arr',
        bag_Swap {| certs := whole a (length arr) |} i j st = Some (tt, st') /\
        st' !! a = Some arr' /\ length arr' = length arr /\
        arr' !! i = Some u /\ arr' !! j = Some t /\
        (forall k, k <> i -> k <> j -> arr' !! k = arr !! k) /\
        arr' ≡ₚ arr /\
        (forall a', a' <> a -> st' !! a' = st !! a') /\
        bag_Swap {| certs := whole a (length arr) |} i j st' = Some (tt, st)
  | _, _ => bag_Swap {| certs := whole a (length arr) |} i j st = None
  end.
Proof.
intros H. rewrite (bag_Swap_array _ _ _ _ _ H).
destruct (arr !! i) as [t|] eqn:Hi; [|reflexivity].
destruct (arr !! j) as [u|] eqn:Hj; [|reflexivity].
pose proof (lookup_lt_Some _ _ _ Hi) as Hil.
pose proof (lookup_lt_Some _ _ _ Hj) as Hjl.
assert (Hi' : <[j:=t]> (<[i:=u]> arr) !! i = Some u).
{ destruct (decide (i = j)) as [->|Hne].
  - rewrite list_lookup_insert_eq by (rewrite length_insert; lia). congruence.
  - rewrite list_lookup_insert_ne by congruence. apply list_lookup_insert_eq. lia. }
assert (Hj' : <[j:=t]> (<[i:=u]> arr) !! j = Some t).
{ apply list_lookup_insert_eq. rewrite length_insert. lia. }
exists (<[a:=<[j:=t]> (<[i:=u]> arr)]> st), (<[j:=t]> (<[i:=u]> arr)).
split; [reflexivity|]. split; [apply lookup_insert_eq|].
split; [rewrite !length_insert; reflexivity|].
split; [exact Hi'|]. split; [exact Hj'|]. split; [|split; [|split]].
- intros k Hki Hkj. rewrite !list_lookup_insert_ne by congruence. reflexivity.
- apply Permutation_insert_swap; assumption.
- intros a' Ha. apply lookup_insert_ne. congruence.
- pose proof (bag_Swap_array (<[a:=<[j:=t]> (<[i:=u]> arr)]> st) a
                (<[j:=t]> (<[i:=u]> arr)) i j) as H2.
  rewrite !length_insert in H2. rewrite H2 by apply lookup_insert_eq.
  rewrite Hi', Hj', insert_insert_eq. do 2 f_equal.
  rewrite <- (insert_id st a arr H) at 2. f_equal.
  apply list_eq. intros k.
  destruct (decide (k = j)) as [->|Hkj].
  + rewrite list_lookup_insert_eq by (rewrite !length_insert; lia). congruence.
  + rewrite list_lookup_insert_ne by congruence.
    destruct (decide (k = i)) as [->|Hki].
    * rewrite list_lookup_insert_eq by (rewrite !length_insert; lia). congruence.
    * rewrite !list_lookup_insert_ne by congruence. reflexivity.
Qed.

Lemma bag_Swap_exchanges_witness :
  exists st' arr',
    bag_Swap {| certs := whole 1 2 |} 0 1 store_ab = Some (tt, st') /\
    st' !! 1%positive = Some arr' /\ length arr' = 2%nat /\
    arr' !! 0%nat = Some (Some cert_a) /\ arr' !! 1%nat = Some (Some cert_b) /\
    (forall k, k <> 0%nat -> k <> 1%nat -> arr' !! k = [Some cert_b; Some cert_a] !! k) /\
    arr' ≡ₚ [Some cert_b; Some cert_a] /\
    (forall a', a' <> 1%positive -> st' !! a' = store_ab !! a') /\
    bag_Swap {| certs := whole 1 2 |} 0 1 st' = Some (tt, store_ab).
Proof.
exact (bag_Swap_exchanges store_ab 1 [Some cert_b; Some cert_a] 0 1 eq_refl).
Defined.


Lemma run_array (p : sortProg) (a : addr) :
  forall (st : store) (arr : list (option Certificate)) (st' : store) (u : unit),
    st !! a = Some arr ->
    run {| certs := whole a (length arr) |} p st = Some (u, st') ->
    exists arr', st' !! a = Some arr' /\ arr' ≡ₚ arr.
Proof.
induction p as [|i j k IH|i j k IH]; intros st arr st' u H Hrun.
- inversion Hrun; subst. eauto.
- cbn [run] in Hrun. unfold bind in Hrun.
  destruct (bag_Less _ i j st) as [[r st1]|] eqn:E; [|discriminate].
  apply bag_Less_frame in E as ->. eapply IH; eauto.
- cbn [run] in Hrun. unfold bind in Hrun.
  rewrite (bag_Swap_array _ _ _ _ _ H) in Hrun.
  destruct (arr !! i) as [t|] eqn:Hi; [|discriminate].
  destruct (arr !! j) as [v|] eqn:Hj; [|discriminate].
  pose proof (IH (<[a:=<[j:=t]> (<[i:=v]> arr)]> st) (<[j:=t]> (<[i:=v]> arr)) st' u) as IH'.
  rewrite !length_insert in IH'.
  destruct (IH' (lookup_insert_eq _ _ _) Hrun) as (arr' & Ha' & Hp).
  exists arr'. split; [exact Ha'|]. rewrite Hp.
  apply Permutation_insert_swap; assumption.
Qed.

Lemma mapM_id_None (ps : list (option Certificate)) :
  None ∈ ps -> mapM id ps = None.
Proof.
intros H. destruct (mapM id ps) as [l|] eqn:E; [|reflexivity].
apply mapM_id_inv in E. subst. apply list_elem_of_fmap in H as (c & Hc & _). discriminate.
Qed.

(** X5.  When every element of the slice [chain] can be read and one of
    them is the nil pointer, [hashBag] panics, whatever the sorting
    routine: a nil element survives the copy and every swap, and is
    dereferenced by [Less] or, at the latest, by [hashChain]. *)
Theorem hashBag_nil_element_panics
    (sort_Sort : nat -> sortProg) (st : store) (chain : slice)
    (ps : list (option Certificate)) :
  mapM (peek st chain) (seq 0 (len chain)) = Some ps ->
  None ∈ ps ->
  hashBag sort_Sort chain st = None.
Proof.
intros Hps Hnil.
pose proof (length_mapM _ _ _ Hps) as Hlen. rewrite length_seq in Hlen.
pose proof (fresh_not_allocated st) as Hfresh.
set (a := fresh (dom st)) in *.
set (st1 := <[a := replicate (len chain) None]> st).
assert (Hne : base chain <> a).
{ intros Hb. destruct (len chain) as [|n] eqn:Hn.
  - cbn in Hps. inversion Hps; subst. inversion Hnil.
  - assert (Hp0 : peek st chain 0 = None).
    { unfold peek. rewrite Hb, Hfresh. destruct (_ <? _)%nat; reflexivity. }
    cbn [seq mapM] in Hps. rewrite Hp0 in Hps. discriminate. }
assert (Hread : index_all chain (seq 0 (len chain)) st1 = Some (ps, st1)).
{ rewrite index_all_peek. rewrite (mapM_ext_in _ (peek st chain)).
  - rewrite Hps. reflexivity.
  - intros i Hi. unfold peek, st1. rewrite lookup_insert_ne by congruence. reflexivity. }
unfold hashBag, bind, make. fold a. fold st1.
unfold copy_slice, bind. cbn [certs len]. rewrite Nat.min_id, Hread.
unfold bag_Len. cbn [certs len]. subst st1.
rewrite Hlen.
change {| base := a; off := 0; len := length ps |} with (whole a (length ps)).
pose proof (assign_from_whole ps (replicate (length ps) None)
              (<[a:=replicate (length ps) None]> st) a 0) as Hw.
rewrite length_replicate in Hw.
rewrite Hw; [| apply lookup_insert_eq | lia].
clear Hw. cbn [take app]. rewrite drop_ge by (rewrite length_replicate; lia).
rewrite app_nil_r, insert_insert_eq. unfold ret.
destruct (run _ _ _) as [[u st3]|] eqn:Hrun; [|reflexivity].
destruct (run_array _ a _ ps _ _ (lookup_insert_eq _ _ _) Hrun) as (arr' & Ha' & Hp).
rewrite load_contents. unfold contents.
rewrite <- (Permutation_length Hp).
rewrite (mapM_ext_in _ (fun i => arr' !! i)).
2:{ intros i _. apply peek_whole. exact Ha'. }
cbn [whole len]. rewrite mapM_lookup_seq. cbn.
rewrite mapM_id_None; [reflexivity|]. rewrite Hp. exact Hnil.
Qed.

Lemma hashBag_nil_element_panics_witness :
  hashBag insertion_Sort (whole 1 2) (<[1%positive := [Some cert_a; None]]> ∅) = None.
Proof.
apply (hashBag_nil_element_panics insertion_Sort _ (whole 1 2) [Some cert_a; None]).
- reflexivity.
- right. left.
Defined.

(** X6.  With a sorting routine that meets the contract of [sort.Sort],
    [hashBag] of a slice whose certificates are already in ascending order
    under [Less] is [hashChain] of those certificates in the order given. *)
Theorem hashBag_of_sorted_is_hashChain
    (sort_Sort : nat -> sortProg) (st : store) (chain : slice)
    (l : list Certificate) :
  sorts sort_Sort ->
  load chain st = Some (l, st) ->
  Sorted ascending l ->
  exists st', hashBag sort_Sort chain st = Some (hashChain l, st').
Proof.
intros Hsorts [Hc _]%load_Some Hl.
rewrite (hashBag_spec _ _ _ _ Hc).
destruct (Hsorts l) as (l' & E & Hs'). rewrite E.
pose proof (interp_Permutation _ _ _ E) as Hp.
rewrite (ascending_unique l' l Hs' Hl Hp). eauto.
Qed.

Lemma hashBag_of_sorted_is_hashChain_witness :
  exists st',
    hashBag insertion_Sort (whole 2 2) store_ab = Some (hashChain [cert_a; cert_b], st').
Proof.
apply (hashBag_of_sorted_is_hashChain insertion_Sort store_ab (whole 2 2) [cert_a; cert_b]).
- exact insertion_Sort_sorts.
- vm_compute. reflexivity.
- repeat constructor.
Defined.

End bag_extras.

(** ** fixchain: what the counters, the WaitGroup and the caches of the Logger keep *)

Section logger_accounts.
Import x509 fixchain.

Ltac mod32 :=
  unfold AddUint32 in *;
  cbn [length app map sum_list got called posting busy added in_postChain option_list] in *;
  Z.div_mod_to_equations; lia.

Lemma counters_inv_init (workerCount : Z) (cl : AddLogClient) :
  addChainCalls cl = [] -> counters_inv (NewLogger workerCount cl).
Proof.
intros Hcl. unfold counters_inv, NewLogger. cbn. rewrite Hcl.
generalize (Z.to_nat workerCount). intros n.
assert (H : forall f : worker -> nat, f Ready = 0%nat ->
          sum_list (map f (replicate n Ready)) = 0%nat).
{ intros f Hf. induction n as [|n IH]; cbn; [reflexivity|]. rewrite Hf, IH. reflexivity. }
rewrite !H by reflexivity. repeat split.
Qed.

Lemma counters_inv_work (s s' : system) :
  work s s' -> counters_inv s -> counters_inv s'.
Proof.
intros Hstep (Hwg & Hact & Hpost & Hq). unfold counters_inv.
destruct Hstep as [l cs1 c cs2 ws l' c' H | l cs ws1 w ws2 i reply l' w' H];
  cbn [logger callers workers] in *.
- apply QueueChain_step_case in H.
  rewrite ?sum_map_split, ?length_app in *. cbn [length] in *.
  destruct H; cbn [option_list app length]; cbn;
    rewrite ?sum_map_split, ?length_app in *; cbn [length] in *;
    repeat split; try assumption; try lia; mod32.
- apply postServer_step_case in H.
  rewrite ?sum_map_split in *.
  destruct H; cbn; rewrite ?sum_map_split, ?length_app in *; cbn [length] in *;
    try (match goal with H : toPost _ !! _ = Some _ |- _ =>
           pose proof (lookup_lt_Some _ _ _ H);
           rewrite ?length_delete by eauto;
           destruct (length (toPost l)) eqn:Hlen; [lia|]; cbn [Nat.pred Nat.sub] in *;
           rewrite ?Nat.sub_0_r in *
         end);
    repeat split; try assumption; try lia; mod32.
Qed.

Lemma counters_inv_step (s s' : system) :
  sstep s s' -> counters_inv s -> counters_inv s'.
Proof.
intros [l cs ws ch | s1 s2 H]; [|apply counters_inv_work; exact H].
intros (Hwg & Hact & Hpost & Hq). unfold counters_inv. cbn in *.
repeat split; try assumption. mod32.
Qed.

Lemma leaf_hash_der (c : Certificate) (rest : list Certificate) :
  leaf_hash (der (c :: rest)) = Some (hash c).
Proof. destruct c. reflexivity. Qed.

Lemma elem_of_around {A} (x y : A) (l1 l2 : list A) :
  x ∈ l1 ++ y :: l2 <-> x = y \/ x ∈ l1 ++ l2.
Proof. rewrite !elem_of_app, elem_of_cons. tauto. Qed.

Lemma posts_inv_init (workerCount : Z) (cl : AddLogClient) :
  posts_inv (NewLogger workerCount cl).
Proof.
unfold posts_inv, NewLogger. cbn. repeat split.
- intros p Hp. inversion Hp.
- intros w p Hw%elem_of_replicate. destruct Hw as [-> _]. discriminate.
- intros w p h Hw%elem_of_replicate. destruct Hw as [-> _]. discriminate.
- intros p h Hp%elem_of_replicate. destruct Hp as [? _]. discriminate.
- intros c Hc. inversion Hc.
- constructor.
- intros h E. discriminate.
- assert (H : forall n, sum_list (map called (replicate n Ready)) = 0%nat).
  { intros n. induction n as [|n IH]; cbn; [reflexivity | exact IH]. }
  rewrite H. lia.
Qed.

Lemma posts_inv_work (s s' : system) :
  work s s' -> posts_inv s -> posts_inv s'.
Proof.
intros Hstep (Hq & Hw & Hl & Hc & Hf & He & Hp & Hn). unfold posts_inv.
destruct Hstep as [l cs1 c cs2 ws l' c' H | l cs ws1 w ws2 i reply l' w' H];
  cbn [logger callers workers] in *.
- apply QueueChain_step_case in H.
  assert (Hrest : forall c1, c1 ∈ cs1 ++ cs2 -> (forall ch, c1 <> Counted ch) ->
            chain_of c1 <> []).
  { intros c1 Hc1. apply Hf. apply elem_of_around. now right. }
  destruct H; cbn [option_list app]; cbn;
    repeat split; try assumption;
    try (match goal with
         | |- forall c, c ∈ _ -> (forall ch, c <> Counted ch) -> _ =>
             intros c1 [->|Hc1]%elem_of_around Hne; [cbn|auto]
         end);
    try discriminate;
    try (apply (Hf _ ltac:(apply elem_of_around; left; reflexivity)); discriminate).
  intros p [Hp'|Hp']%elem_of_app; [auto|].
  apply list_elem_of_singleton in Hp'. subst. cbn.
  apply (Hf (Added ch)); [apply elem_of_around; now left | discriminate].
- apply postServer_step_case in H.
  assert (Hrest : forall w1 p, w1 ∈ ws1 ++ ws2 -> task w1 = Some p -> chain p <> []).
  { intros w1 p Hw1. apply Hw. apply elem_of_around. now right. }
  assert (Hhere : forall p, task w = Some p -> chain p <> []).
  { intros p. apply Hw. apply elem_of_around. now left. }
  assert (Hlrest : forall w1 p h, w1 ∈ ws1 ++ ws2 -> past_lookup w1 = Some (p, h) ->
            leaf_hash (der (chain p)) = Some h).
  { intros w1 p h Hw1. apply Hl. apply elem_of_around. now right. }
  assert (Hlhere : forall p h, past_lookup w = Some (p, h) ->
            leaf_hash (der (chain p)) = Some h).
  { intros p h. apply Hl. apply elem_of_around. now left. }
  assert (Hcrest : forall p h, Called p h ∈ ws1 ++ ws2 ->
            der (chain p) ∈ addChainCalls (client l)).
  { intros p h Hp'. apply (Hc p h). apply elem_of_around. now right. }
  rewrite ?sum_map_split in *.
  destruct H; cbn; rewrite ?sum_map_split; cbn [called] in *;
    repeat split; try assumption; try lia;
    try (match goal with
         | |- forall w p, w ∈ _ -> task w = Some p -> _ =>
             intros w1 p1 [->|Hw1]%elem_of_around Ht;
             [cbn in Ht; first [discriminate | injection Ht as <-] | eauto]
         | |- forall w p h, w ∈ _ -> past_lookup w = Some (p, h) -> _ =>
             intros w1 p1 h1 [->|Hw1]%elem_of_around Ht;
             [cbn in Ht; first [discriminate | injection Ht as <- <-] | eauto]
         | |- forall p h, Called p h ∈ _ -> _ =>
             intros p1 h1 [Heq|Hp1]%elem_of_around;
             [first [discriminate Heq | injection Heq as -> ->] | ]; eauto
         end);
    try (apply Hlhere; reflexivity);
    try (apply Hhere; reflexivity).
  + (* receive *) intros q Hq'. apply Hq. rewrite (delete_Permutation _ _ _ H). now right.
  + apply Hq. eapply list_elem_of_lookup_2; eauto.
  + (* miss *) rewrite H. apply leaf_hash_der.
  + (* AddChain *) subst. apply elem_of_app. right. constructor.
  + apply elem_of_app. left. eauto.
  + eapply Forall_impl; [exact He|]. cbn. intros e (? & ? & ?).
    repeat split; try assumption. apply elem_of_app. now left.
  + intros h' Hh. destruct (Hp h' Hh) as (d & Hd & Hd').
    exists d. split; [apply elem_of_app; now left | exact Hd'].
  + rewrite length_app. cbn. lia.
  + (* failed *) apply Forall_app. split; [exact He|]. constructor; [|constructor].
    cbn. repeat split. apply (Hc p h). apply elem_of_around. now left.
  + rewrite length_app. cbn. lia.
  + (* accepted *) intros h'. rewrite lockedMap_get_set.
    destruct (decide (h = h')) as [<-|Hne]; [|apply Hp].
    intros _. exists (der (chain p)). split.
    * apply (Hc p h). apply elem_of_around. now left.
    * apply Hlhere. reflexivity.
Qed.

Lemma posts_inv_step (s s' : system) :
  sstep s s' -> posts_inv s -> posts_inv s'.
Proof.
intros [l cs ws ch | s1 s2 H]; [|apply posts_inv_work; exact H].
intros (Hq & Hw & Hl & Hc & Hf & He & Hp & Hn). unfold posts_inv. cbn in *.
repeat split; try assumption.
intros c [->|Hc']%elem_of_cons Hne; [|auto]. exfalso. eapply Hne. reflexivity.
Qed.

Lemma logger_inv_reachable (workerCount : Z) (s : system) :
  rtc sstep (system0 workerCount) s -> counters_inv s /\ posts_inv s.
Proof.
intros H.
pose proof (counters_inv_init workerCount {| addChainCalls := [] |} eq_refl) as H1.
pose proof (posts_inv_init workerCount {| addChainCalls := [] |}) as H2.
fold (system0 workerCount) in H1, H2.
induction H; eauto using counters_inv_step, posts_inv_step.
Qed.

Lemma workers_length_step (s s' : system) :
  sstep s s' -> length (workers s') = length (workers s).
Proof.
intros [l cs ws ch | s1 s2 [l cs1 c cs2 ws l' c' H | l cs ws1 w ws2 i reply l' w' H]];
  cbn; rewrite ?length_app; reflexivity.
Qed.

Lemma workers_length_reachable (workerCount : Z) (s : system) :
  rtc sstep (system0 workerCount) s -> length (workers s) = Z.to_nat workerCount.
Proof.
intros H.
assert (H0 : length (workers (system0 workerCount)) = Z.to_nat workerCount).
{ cbn. apply length_replicate. }
induction H as [|s1 s2 s3 Hstep _ IH]; [exact H0|].
apply IH. rewrite (workers_length_step _ _ Hstep). exact H0.
Qed.

Lemma sum_map_0 {A} (f : A -> nat) (l : list A) :
  sum_list (map f l) = 0%nat <-> Forall (fun x => f x = 0%nat) l.
Proof.
induction l as [|x l IH]; cbn; [split; [constructor | reflexivity]|].
rewrite Forall_cons, <- IH. lia.
Qed.

Lemma sum_map_elem {A} (f : A -> nat) (l : list A) (x : A) :
  x ∈ l -> (f x <= sum_list (map f l))%nat.
Proof.
intros (l1 & l2 & ->)%list_elem_of_split. rewrite sum_map_split. lia.
Qed.

Lemma sum_map_le_length {A} (f : A -> nat) (l : list A) :
  (forall x, f x <= 1)%nat -> (sum_list (map f l) <= length l)%nat.
Proof.
intros Hf. induction l as [|x l IH]; cbn; [lia|]. specialize (Hf x). lia.
Qed.

Lemma busy_0 (w : worker) : busy w = 0%nat <-> w = Ready.
Proof. destruct w; cbn; split; intros H; try discriminate; reflexivity. Qed.

(** A worker that is not at [<-l.toPost] can make its next access. *)
Lemma worker_goes_on (s : system) (w : worker) (i : nat) (reply : option string) :
  counters_inv s -> posts_inv s -> w ∈ workers s -> w <> Ready ->
  exists l' w', postServer_step (logger s) w i reply = Next (l', w').
Proof.
intros (Hwg & _) (_ & Hw & _) Hin Hne.
assert (Hchain : forall p, task w = Some p -> exists c0 rest, chain p = c0 :: rest).
{ intros p Hp. specialize (Hw w p Hin Hp).
  destruct (chain p) as [|c0 rest]; [congruence | eauto]. }
destruct w as [|p|p|p|p h|p h|p h| |]; cbn; try congruence; eauto.
- destruct (Hchain p eq_refl) as (c0 & rest & ->).
  destruct (lockedMap_get _ _); eauto.
- destruct reply as [err|]; eauto.
- rewrite wg_Done_Some; [eauto|].
  pose proof (sum_map_elem busy _ _ Hin) as Hb. cbn in Hb. lia.
Qed.

Lemma postCertCache_rtc (s s' : system) (h : list Z) :
  rtc sstep s s' ->
  lockedMap_get (postCertCache (logger s)) h = true ->
  lockedMap_get (postCertCache (logger s')) h = true.
Proof. intros H. induction H; eauto using postCertCache_sstep. Qed.

Lemma for_leaf_le (h : list Z) (d : list ASN1Cert) : (for_leaf h d <= 1)%nat.
Proof. unfold for_leaf. destruct (decide _); lia. Qed.

Lemma missed_le (h : list Z) (w : worker) : (missed h w <= 1)%nat.
Proof. destruct w; cbn; try lia; apply for_leaf_le. Qed.

Lemma for_leaf_miss (h : list Z) (l : Logger) (p : toPost_t) (c0 : Certificate)
    (rest : list Certificate) :
  chain p = c0 :: rest ->
  lockedMap_get (postCertCache l) (hash c0) = false ->
  lockedMap_get (postCertCache l) h = true ->
  for_leaf h (der (chain p)) = 0%nat.
Proof.
intros -> Hmiss Hhit. unfold for_leaf. rewrite leaf_hash_der.
destruct (decide _) as [E|]; [injection E as E; congruence | reflexivity].
Qed.

(** While [postCertCache] has [h], the calls made for the leaf [h] and the
    workers that may still make one do not grow in number. *)
Lemma late_calls_sstep (s s' : system) (h : list Z) :
  sstep s s' ->
  lockedMap_get (postCertCache (logger s)) h = true ->
  (calls_for h (logger s') + sum_list (map (missed h) (workers s')) <=
   calls_for h (logger s) + sum_list (map (missed h) (workers s)))%nat.
Proof.
intros [l cs ws ch | s1 s2 [l cs1 c cs2 ws l' c' H | l cs ws1 w ws2 i reply l' w' H]];
  cbn [logger workers]; intros Hhit.
- reflexivity.
- apply QueueChain_step_case in H. destruct H; reflexivity.
- apply postServer_step_case in H. rewrite !sum_map_split. unfold calls_for.
  destruct H; cbn [client with_toPost with_active with_reposted with_posted
                   with_client with_errors with_postCertCache with_wg missed addChainCalls];
    try lia.
  + rewrite (for_leaf_miss h l p c0 rest) by assumption. lia.
  + rewrite sum_map_app. cbn. lia.
Qed.

(** A leaf is posted by a worker that is past its call: at most all the
    others can still be about to call [AddChain] for that leaf. *)
Lemma late_workers_sstep (s s' : system) (h : list Z) :
  sstep s s' ->
  (lockedMap_get (postCertCache (logger s)) h = true ->
   (sum_list (map (missed h) (workers s)) + 1 <= length (workers s))%nat) ->
  lockedMap_get (postCertCache (logger s')) h = true ->
  (sum_list (map (missed h) (workers s')) + 1 <= length (workers s'))%nat.
Proof.
intros [l cs ws ch | s1 s2 [l cs1 c cs2 ws l' c' H | l cs ws1 w ws2 i reply l' w' H]];
  cbn [logger workers]; intros IH.
- exact IH.
- apply QueueChain_step_case in H. destruct H; exact IH.
- apply postServer_step_case in H.
  rewrite !sum_map_split, !length_app in *. cbn [length] in *.
  destruct H; cbn [postCertCache with_toPost with_active with_reposted with_posted
                   with_client with_errors with_postCertCache with_wg missed] in *;
    try (intros Hhit; specialize (IH Hhit); lia).
  + intros Hhit. specialize (IH Hhit).
    rewrite (for_leaf_miss h l p c0 rest) by assumption. lia.
  + intros _. pose proof (sum_map_le_length (missed h) (ws1 ++ ws2) (missed_le h)) as Hle.
    rewrite length_app in Hle. lia.
Qed.

Lemma late_workers_reachable (workerCount : Z) (s : system) (h : list Z) :
  rtc sstep (system0 workerCount) s ->
  lockedMap_get (postCertCache (logger s)) h = true ->
  (sum_list (map (missed h) (workers s)) + 1 <= length (workers s))%nat.
Proof.
intros H.
assert (H0 : lockedMap_get (postCertCache (logger (system0 workerCount))) h = true ->
             (sum_list (map (missed h) (workers (system0 workerCount))) + 1 <=
              length (workers (system0 workerCount)))%nat) by discriminate.
induction H as [|s1 s2 s3 Hstep _ IH]; [exact H0|].
apply IH. apply (late_workers_sstep _ _ _ Hstep H0).
Qed.

End logger_accounts.

Section logger_accounts_theorems.
Import x509 fixchain.

Lemma system_posted_a_reachable : rtc sstep (system0 2) system_posted_a.
Proof. apply (schedule_rtc two_posts). vm_compute. reflexivity. Qed.

Lemma system_late_call_reachable : rtc sstep system_posted_a system_late_call.
Proof. apply (schedule_rtc late_call). vm_compute. reflexivity. Qed.

Lemma system_stuck_reachable : rtc sstep (system0 0) system_stuck.
Proof.
apply (schedule_rtc [ Call [cert_a]; Caller 0; Caller 0; Caller 0; Caller 0; Caller 0 ]).
vm_compute. reflexivity.
Qed.

Example system_posted_a_workers :
  workers system_posted_a = [Returned; Miss {| chain := [cert_a] |} (hash cert_a)] /\
  IsPosted (logger system_posted_a) cert_a = true /\
  addChainCalls (client (logger system_posted_a)) = [der [cert_a; cert_c]].
Proof. vm_compute. repeat split. Qed.

(** When [IsPosted(cert_a)] is already true, the second worker still
    calls [AddChain] for a chain with the leaf [cert_a]. *)
Example system_late_call_calls :
  addChainCalls (client (logger system_late_call)) = [der [cert_a; cert_c]; der [cert_a]].
Proof. vm_compute. reflexivity. Qed.

(** X7.  In every state the Logger and its goroutines reach from
    [NewLogger], the counter of the WaitGroup is the number of sends
    pending on [toPost], plus the callers between [wg.Add(1)] and their
    send, plus the workers between their receive and [wg.Done()]; and
    [active] is the number of workers between their two updates of it
    (modulo 2^32).  So [Wait] returns exactly when nothing is pending on
    [toPost], no caller is about to send and every worker is back at its
    receive. *)
Theorem Wait_returns_when_drained (workerCount : Z) (s : system) :
  rtc sstep (system0 workerCount) s ->
  wg (logger s) =
    Z.of_nat (length (toPost (logger s)) + sum_list (map added (callers s)) +
              sum_list (map busy (workers s))) /\
  active (logger s) = Z.of_nat (sum_list (map in_postChain (workers s))) mod 2 ^ 32 /\
  (Wait (logger s) = true <->
   toPost (logger s) = [] /\
   Forall (fun c => added c = 0%nat) (callers s) /\
   Forall (fun w => w = Ready) (workers s)).
Proof.
intros ((Hwg & Hact & _) & _)%logger_inv_reachable.
split; [exact Hwg|]. split; [exact Hact|].
unfold Wait. rewrite Hwg, Z.eqb_eq.
rewrite <- (sum_map_0 added).
assert (Hb : Forall (fun w => w = Ready) (workers s) <->
             sum_list (map busy (workers s)) = 0%nat).
{ rewrite sum_map_0. apply Forall_iff. intros w. symmetry. apply busy_0. }
rewrite Hb. split.
- intros H. split; [|lia].
  destruct (toPost (logger s)); [reflexivity | cbn in H; lia].
- intros (-> & -> & ->). reflexivity.
Qed.

Lemma Wait_returns_when_drained_witness :
  wg (logger system_posted_a) =
    Z.of_nat (length (toPost (logger system_posted_a)) +
              sum_list (map added (callers system_posted_a)) +
              sum_list (map busy (workers system_posted_a))) /\
  active (logger system_posted_a) =
    Z.of_nat (sum_list (map in_postChain (workers system_posted_a))) mod 2 ^ 32 /\
  (Wait (logger system_posted_a) = true <->
   toPost (logger system_posted_a) = [] /\
   Forall (fun c => added c = 0%nat) (callers system_posted_a) /\
   Forall (fun w => w = Ready) (workers system_posted_a)).
Proof. exact (Wait_returns_when_drained 2 system_posted_a system_posted_a_reachable). Defined.

(** X8.  No [postServer] worker ever panics, on chains without nil
    certificates and with an [errors] channel that is open and received
    from: in every reachable state, for every worker, whichever pending
    send it is offered and whatever the log answers, its next access is
    not a panic ([p.chain[0]] is in range, [wg.Done()] finds a positive
    counter); a worker that is not at its receive can make its next
    access, and a worker at its receive can as soon as a send is
    pending. *)
Theorem postServer_never_panics
    (workerCount : Z) (s : system) (w : worker) (i : nat) (reply : option string) :
  rtc sstep (system0 workerCount) s -> w ∈ workers s ->
  postServer_step (logger s) w i reply <> Panic /\
  (w <> Ready -> exists l' w', postServer_step (logger s) w i reply = Next (l', w')) /\
  (w = Ready -> toPost (logger s) !! i <> None ->
   exists l' w', postServer_step (logger s) w i reply = Next (l', w')).
Proof.
intros (Hc & Hp)%logger_inv_reachable Hin.
assert (Hgo : w <> Ready ->
          exists l' w', postServer_step (logger s) w i reply = Next (l', w')).
{ apply worker_goes_on; assumption. }
split; [|split; [exact Hgo|]].
- assert (w = Ready \/ w <> Ready) as [->|Hne]
    by (destruct w; first [left; reflexivity | right; discriminate]).
  + cbn. destruct (toPost (logger s) !! i); discriminate.
  + destruct (Hgo Hne) as (l' & w' & ->). discriminate.
- intros -> Hi. cbn. destruct (toPost (logger s) !! i) as [p|]; [eauto | congruence].
Qed.

Lemma postServer_never_panics_witness :
  postServer_step (logger system_posted_a) (Miss {| chain := [cert_a] |} (hash cert_a)) 0 None <> Panic /\
  (Miss {| chain := [cert_a] |} (hash cert_a) <> Ready ->
   exists l' w', postServer_step (logger system_posted_a)
                   (Miss {| chain := [cert_a] |} (hash cert_a)) 0 None = Next (l', w')) /\
  (Miss {| chain := [cert_a] |} (hash cert_a) = Ready ->
   toPost (logger system_posted_a) !! 0%nat <> None ->
   exists l' w', postServer_step (logger system_posted_a)
                   (Miss {| chain := [cert_a] |} (hash cert_a)) 0 None = Next (l', w')).
Proof.
apply (postServer_never_panics 2 system_posted_a (Miss {| chain := [cert_a] |} (hash cert_a)) 0 None
         system_posted_a_reachable).
destruct system_posted_a_workers as (-> & _). repeat constructor.
Defined.

(** X9.  In every reachable state [posted] is the number of [AddChain]
    calls made so far plus the number of workers that have incremented
    [posted] and not yet made their call (modulo 2^32); the errors on the
    [errors] channel and the workers waiting for an answer are together at
    most as many as the calls; and every error sent has type
    [LogPostFailed] and carries a chain that was handed to [AddChain]. *)
Theorem posted_counts_AddChain_calls (workerCount : Z) (s : system) :
  rtc sstep (system0 workerCount) s ->
  posted (logger s) =
    Z.of_nat (length (addChainCalls (client (logger s))) +
              sum_list (map posting (workers s))) mod 2 ^ 32 /\
  (length (errors (logger s)) + sum_list (map called (workers s)) <=
   length (addChainCalls (client (logger s))))%nat /\
  forall e, e ∈ errors (logger s) ->
    Type_ e = LogPostFailed /\ der (Chain e) ∈ addChainCalls (client (logger s)).
Proof.
intros ((_ & _ & Hp & _) & (_ & _ & _ & _ & _ & He & _ & Hn))%logger_inv_reachable.
split; [exact Hp|]. split; [exact Hn|].
intros e Hin. rewrite Forall_forall in He. destruct (He e Hin) as (? & _ & ?). auto.
Qed.

Lemma posted_counts_AddChain_calls_witness :
  posted (logger system_overlap) =
    Z.of_nat (length (addChainCalls (client (logger system_overlap))) +
              sum_list (map posting (workers system_overlap))) mod 2 ^ 32 /\
  (length (errors (logger system_overlap)) +
   sum_list (map called (workers system_overlap)) <=
   length (addChainCalls (client (logger system_overlap))))%nat /\
  forall e, e ∈ errors (logger system_overlap) ->
    Type_ e = LogPostFailed /\
    der (Chain e) ∈ addChainCalls (client (logger system_overlap)).
Proof. exact (posted_counts_AddChain_calls 1 system_overlap system_overlap_reachable). Defined.

(** X10.  In every reachable state, modulo 2^32, [queued] is the sum of
    [reposted], [chainReposted], [posted], the sends pending on [toPost],
    the workers that hold a chain and have counted it neither in
    [reposted] nor in [posted] yet, and the callers that have not yet
    counted their chain in [reposted] or [chainReposted] or sent it.
    Once no such caller is left, nothing is pending and no worker holds an
    uncounted chain, [queued = reposted + chainReposted + posted]: every
    queued chain has been counted exactly once as suppressed by one of the
    caches or as posted. *)
Theorem queued_is_accounted_for (workerCount : Z) (s : system) :
  rtc sstep (system0 workerCount) s ->
  queued (logger s) =
    (reposted (logger s) + chainReposted (logger s) + posted (logger s) +
     Z.of_nat (length (toPost (logger s)) + sum_list (map got (workers s)) +
               length (callers s))) mod 2 ^ 32 /\
  (callers s = [] -> toPost (logger s) = [] ->
   Forall (fun w => got w = 0%nat) (workers s) ->
   queued (logger s) =
     (reposted (logger s) + chainReposted (logger s) + posted (logger s)) mod 2 ^ 32).
Proof.
intros ((_ & _ & _ & Hq) & _)%logger_inv_reachable.
split; [exact Hq|]. intros Hf Ht Hw%sum_map_0. rewrite Hq, Hf, Ht, Hw. cbn.
f_equal. lia.
Qed.

Lemma queued_is_accounted_for_witness :
  queued (logger system3) =
    (reposted (logger system3) + chainReposted (logger system3) +
     posted (logger system3)) mod 2 ^ 32.
Proof.
destruct (queued_is_accounted_for 1 system3 system3_reachable) as (_ & H).
apply H; [reflexivity | vm_compute; reflexivity | repeat constructor].
Defined.

(** X11.  In every reachable state, if [IsPosted(cert)] is true then
    [AddChain] has been called with a chain whose first certificate has
    the same [hash] as [cert]. *)
Theorem IsPosted_sound (workerCount : Z) (s : system) (cert : Certificate) :
  rtc sstep (system0 workerCount) s -> IsPosted (logger s) cert = true ->
  exists d, d ∈ addChainCalls (client (logger s)) /\ leaf_hash d = Some (hash cert).
Proof.
intros (_ & (_ & _ & _ & _ & _ & _ & Hp & _))%logger_inv_reachable H.
apply Hp. exact H.
Qed.

Lemma IsPosted_sound_witness :
  exists d, d ∈ addChainCalls (client (logger system3)) /\
            leaf_hash d = Some (hash cert_b).
Proof.
apply (IsPosted_sound 1 system3 cert_b system3_reachable). vm_compute. reflexivity.
Defined.

(** X12.  Once [IsPosted(cert)] is true it stays true, and the only
    workers that still call [AddChain] for a chain with that leaf hash are
    those that had looked the leaf up in [postCertCache] before: along
    every run the calls made for the leaf plus the workers that are past
    a failed lookup for it do not grow in number.  The worker that posted
    the leaf is not among them, so at most [workerCount - 1] further calls
    are made for a posted leaf, and none with a single worker. *)
Theorem late_AddChain_calls_bounded
    (workerCount : Z) (s s' : system) (cert : Certificate) :
  rtc sstep (system0 workerCount) s -> rtc sstep s s' ->
  IsPosted (logger s) cert = true ->
  IsPosted (logger s') cert = true /\
  (calls_for (hash cert) (logger s') + sum_list (map (missed (hash cert)) (workers s')) <=
   calls_for (hash cert) (logger s) + sum_list (map (missed (hash cert)) (workers s)))%nat /\
  (sum_list (map (missed (hash cert)) (workers s)) + 1 <= Z.to_nat workerCount)%nat /\
  (calls_for (hash cert) (logger s') + 1 <=
   calls_for (hash cert) (logger s) + Z.to_nat workerCount)%nat.
Proof.
unfold IsPosted. intros Hreach Hsteps Hhit.
pose proof (late_workers_reachable _ _ _ Hreach Hhit) as Hlate.
rewrite (workers_length_reachable _ _ Hreach) in Hlate.
assert (Hrun : lockedMap_get (postCertCache (logger s')) (hash cert) = true /\
          (calls_for (hash cert) (logger s') +
           sum_list (map (missed (hash cert)) (workers s')) <=
           calls_for (hash cert) (logger s) +
           sum_list (map (missed (hash cert)) (workers s)))%nat).
{ clear Hreach Hlate. induction Hsteps as [s | s s1 s' Hstep Hsteps IH]; [split; [exact Hhit | lia]|].
  destruct (IH (postCertCache_sstep _ _ _ Hstep Hhit)) as (Hhit' & Hle).
  split; [exact Hhit'|].
  pose proof (late_calls_sstep _ _ _ Hstep Hhit). lia. }
destruct Hrun as (Hhit' & Hle).
split; [exact Hhit'|]. split; [exact Hle|]. split; [exact Hlate | lia].
Qed.

Lemma late_AddChain_calls_bounded_witness :
  IsPosted (logger system_late_call) cert_a = true /\
  (calls_for (hash cert_a) (logger system_late_call) +
   sum_list (map (missed (hash cert_a)) (workers system_late_call)) <=
   calls_for (hash cert_a) (logger system_posted_a) +
   sum_list (map (missed (hash cert_a)) (workers system_posted_a)))%nat /\
  (sum_list (map (missed (hash cert_a)) (workers system_posted_a)) + 1 <= Z.to_nat 2)%nat /\
  (calls_for (hash cert_a) (logger system_late_call) + 1 <=
   calls_for (hash cert_a) (logger system_posted_a) + Z.to_nat 2)%nat.
Proof.
apply (late_AddChain_calls_bounded 2 system_posted_a system_late_call cert_a
         system_posted_a_reachable system_late_call_reachable).
vm_compute. reflexivity.
Defined.

Example system3_counters :
  queued logger3 = 2 /\ posted logger3 = 1 /\ reposted logger3 = 0 /\
  chainReposted logger3 = 1 /\ wg logger3 = 0 /\ active logger3 = 0.
Proof. vm_compute. repeat split. Qed.

End logger_accounts_theorems.

(** ** fixchain: [Logger.RootCerts] *)

Section RootCerts_facts.
Import x509 fixchain.
Variable CertPool : Type.
Variable NewCertPool : CertPool.
Variable AddCert : CertPool -> option Certificate -> CertPool.
Variable ParseCertificate : list Z -> option Certificate * bool.

Local Abbreviation getRoots' := (getRoots CertPool NewCertPool AddCert ParseCertificate).
Local Abbreviation RootCerts' := (RootCerts CertPool NewCertPool AddCert ParseCertificate).
Local Abbreviation RootCerts_loop' :=
  (RootCerts_loop CertPool NewCertPool AddCert ParseCertificate).

(** [getRoots] fails on the first root whose parse error is fatal, and
    otherwise adds every root in order. *)
Lemma addRoots_spec (roots : list ASN1Cert) :
  forall ret,
    addRoots CertPool AddCert ParseCertificate ret roots =
    if forallb (fun root => negb (snd (ParseCertificate (Data root)))) roots
    then Some (fold_left (fun p root => AddCert p (fst (ParseCertificate (Data root))))
                 roots ret)
    else None.
Proof.
induction roots as [|root rest IH]; intros ret; [reflexivity|].
cbn. destruct (ParseCertificate (Data root)) as [r fatal]. cbn.
destruct fatal; [reflexivity | apply IH].
Qed.

Lemma RootCerts_loop_spec (answers : nat -> option (list ASN1Cert)) (n : nat) :
  forall i res calls,
    RootCerts_loop' answers n i = (res, calls) ->
    (forall j, (i <= j)%nat -> (S j < calls)%nat -> getRoots' (answers j) = None) /\
    match res with
    | Some pool =>
        (i < calls <= i + n)%nat /\ getRoots' (answers (calls - 1)%nat) = Some pool
    | None =>
        calls = (i + n)%nat /\
        forall j, (i <= j < calls)%nat -> getRoots' (answers j) = None
    end.
Proof.
induction n as [|n IH]; intros i res calls H; cbn in H.
- inversion H; subst. split; [intros; lia|]. split; [lia | intros; lia].
- destruct (getRoots' (answers i)) as [pool|] eqn:E.
  + inversion H; subst. split; [intros; lia|].
    split; [lia|]. replace (S i - 1)%nat with i by lia. exact E.
  + destruct (IH _ _ _ H) as (Hfail & Hres). split.
    * intros j Hj Hlt. destruct (Nat.eq_dec j i) as [->|]; [exact E|].
      apply Hfail; lia.
    * destruct res as [pool|].
      -- destruct Hres as (Hr & Hp). split; [lia | exact Hp].
      -- destruct Hres as (-> & Hall). split; [lia|].
         intros j Hj. destruct (Nat.eq_dec j i) as [->|]; [exact E|].
         apply Hall; lia.
Qed.

(** X13.  With [l.roots] nil, [RootCerts] calls [getRoots] until one call
    succeeds, at most 10 times: every call before the last one it makes
    has failed.  If a call succeeds its pool is returned and stored in
    [l.roots], and a later [RootCerts] returns that pool without calling
    the log, whatever the log would answer; if all 10 calls fail the
    process is ended by [log.Fatalf] and [l.roots] stays nil. *)
Theorem RootCerts_retries_then_caches (answers answers' : nat -> option (list ASN1Cert)) :
  exists res calls,
    RootCerts' None answers = (res, res, calls) /\
    (calls <= 10)%nat /\
    (forall j, (S j < calls)%nat -> getRoots' (answers j) = None) /\
    match res with
    | Some pool =>
        (1 <= calls)%nat /\
        getRoots' (answers (calls - 1)%nat) = Some pool /\
        RootCerts' (Some pool) answers' = (Some pool, Some pool, 0%nat)
    | None =>
        calls = 10%nat /\ forall j, (j < 10)%nat -> getRoots' (answers j) = None
    end.
Proof.
unfold RootCerts.
destruct (RootCerts_loop' answers 10 0) as [res calls] eqn:E.
exists res, calls. split; [reflexivity|].
destruct (RootCerts_loop_spec _ _ _ _ _ E) as (Hfail & Hres).
split; [destruct res; lia|].
split; [intros j Hj; apply Hfail; lia|].
destruct res as [pool|].
- destruct Hres as (Hr & Hp). repeat split; [lia | exact Hp].
- destruct Hres as (-> & Hall). split; [reflexivity|]. intros j Hj. apply Hall. lia.
Qed.

End RootCerts_facts.

(** ** fixchain: [matchTestErrorList] *)

Section matchTestErrorList_facts.
Import x509 fixchain.

Lemma markSeen_Some (ty : errorType) (want : list errorType) :
  forall seen seen',
    markSeen ty want seen = Some seen' ->
    length seen' = length seen /\
    unmatched want seen ≡ₚ ty :: unmatched want seen'.
Proof.
induction want as [|expErr want IH]; intros [|s seen] seen' H; try discriminate.
cbn in H.
assert (Hrec : cons s <$> markSeen ty want seen = Some seen' ->
          length seen' = length (s :: seen) /\
          unmatched (expErr :: want) (s :: seen) ≡ₚ ty :: unmatched (expErr :: want) seen').
{ intros H'. destruct (markSeen ty want seen) as [seen1|] eqn:E; [|discriminate].
  cbn in H'. inversion H'; subst. destruct (IH _ _ E) as (Hl & Hp).
  split; [cbn; lia|]. cbn. destruct s; [exact Hp|].
  rewrite Hp. apply perm_swap. }
destruct s; [auto|].
destruct (bool_decide_reflect (ty = expErr)) as [->|Hne]; [|auto].
inversion H; subst. split; reflexivity.
Qed.

Lemma markSeen_None (ty : errorType) (want : list errorType) :
  forall seen, length seen = length want ->
    markSeen ty want seen = None -> ty ∉ unmatched want seen.
Proof.
induction want as [|expErr want IH]; intros [|s seen] Hlen H; try discriminate.
- intros Hin. inversion Hin.
- cbn in *. 
  destruct s.
  + destruct (markSeen ty want seen) eqn:E; [discriminate|]. apply IH; [lia | exact E].
  + destruct (bool_decide_reflect (ty = expErr)) as [->|Hne]; [discriminate|].
    destruct (markSeen ty want seen) eqn:E; [discriminate|].
    apply not_elem_of_cons. split; [exact Hne|]. apply IH; [lia | exact E].
Qed.

Lemma unmatched_count (want : list errorType) :
  forall seen, length seen = length want ->
    length (filter (fun val => val = false) seen) = length (unmatched want seen).
Proof.
induction want as [|expErr want IH]; intros [|s seen] Hlen; try discriminate; [reflexivity|].
cbn in Hlen. rewrite filter_cons. destruct s; cbn.
- rewrite decide_False by discriminate. apply IH. lia.
- rewrite decide_True by reflexivity. cbn. f_equal. apply IH. lia.
Qed.

Lemma unmatched_fresh (want : list errorType) :
  unmatched want (replicate (length want) false) = want.
Proof. induction want as [|x want IH]; [reflexivity|]. cbn. f_equal. exact IH. Qed.

Lemma matchErrs_spec (want : list errorType) (got : list FixError) :
  forall seen n seen',
    length seen = length want ->
    matchErrs want got seen = (n, seen') ->
    length seen' = length want /\
    (n = 0%nat -> unmatched want seen ≡ₚ map Type_ got ++ unmatched want seen') /\
    (map Type_ got ⊆+ unmatched want seen -> n = 0%nat).
Proof.
induction got as [|err got IH]; intros seen n seen' Hlen H; cbn in H.
- inversion H; subst. split; [exact Hlen|]. split; [reflexivity | reflexivity].
- destruct (markSeen (Type_ err) want seen) as [seen1|] eqn:E.
  + destruct (markSeen_Some _ _ _ _ E) as (Hl1 & Hp1).
    destruct (IH seen1 n seen' ltac:(lia) H) as (Hl & Hto & Hfrom).
    split; [exact Hl|]. split.
    * intros Hn. cbn. rewrite Hp1, (Hto Hn). reflexivity.
    * intros Hsub. apply Hfrom. cbn in Hsub. rewrite Hp1 in Hsub.
      apply (submseteq_app_inv_l _ _ [Type_ err]). exact Hsub.
  + destruct (matchErrs want got seen) as [n1 seen2] eqn:E2.
    inversion H; subst.
    destruct (IH seen n1 seen' Hlen E2) as (Hl & _ & _).
    split; [exact Hl|]. split; [discriminate|].
    intros Hsub. exfalso.
    apply (markSeen_None _ _ _ Hlen E).
    eapply elem_of_submseteq; [|exact Hsub]. cbn. constructor.
Qed.

(** X14.  [matchTestErrorList] reports no failure exactly when the types
    of the errors received are, up to order and counting repetitions, the
    expected types. *)
Theorem matchTestErrorList_accepts_permutations
    (want : list errorType) (got : list FixError) :
  matchTestErrorList want got = 0%nat <-> map Type_ got ≡ₚ want.
Proof.
unfold matchTestErrorList.
destruct (matchErrs want got (replicate (length want) false)) as [n1 seen] eqn:E.
destruct (matchErrs_spec want got _ _ _ (length_replicate _ _) E) as (Hl & Hto & Hfrom).
rewrite unmatched_fresh in Hto, Hfrom.
rewrite (unmatched_count want seen Hl).
split.
- intros H. assert (Hn1 : n1 = 0%nat) by lia.
  assert (Hu : unmatched want seen = []).
  { apply length_zero_iff_nil. lia. }
  rewrite (Hto Hn1), Hu, app_nil_r. reflexivity.
- intros Hperm.
  assert (Hn1 : n1 = 0%nat).
  { apply Hfrom. rewrite Hperm. reflexivity. }
  pose proof (Permutation_length Hperm) as Hlen. rewrite length_map in Hlen.
  pose proof (Permutation_length (Hto Hn1)) as Hlen2.
  rewrite length_app, length_map in Hlen2.
  destruct (Nat.eqb_spec (length want) (length got)); lia.
Qed.

End matchTestErrorList_facts.

(** ** scanner: cancellation, continuous mode and runs that do not end *)

Section genRanges_prefix.
Import scanner.

(** Whatever is cancelled and whenever the fuel runs out, in either mode,
    the ranges sent so far tile the indices from [s] on. *)
Lemma genRanges_loop_prefix (e : env) (c : bool) (batch : Z) :
  1 <= batch -> is_int64 batch ->
  (c = true -> growing e) ->
  forall (fuel n : nat) (s en : Z) (rs : list fetchRange) (closed : bool),
    is_int64 s -> is_int64 en -> s <= en -> en - s < 2 ^ 63 ->
    genRanges_loop e c batch fuel n s en = (rs, closed) ->
    exists x, tiles batch s rs x /\ is_int64 x /\ (c = false -> x <= en).
Proof.
intros Hb1 Hb Hgrow.
induction fuel as [|fuel IH]; intros n s en rs closed Hs He Hle Hov H.
- cbn in H. inversion H; subst. exists s. cbn. split; [reflexivity|]. split; [exact Hs | intros; lia].
- cbn [genRanges_loop] in H.
  assert (Hstop : ([] : list fetchRange, true) = (rs, closed) ->
            exists x, tiles batch s rs x /\ is_int64 x /\ (c = false -> x <= en)).
  { intros E. inversion E; subst. exists s. cbn. split; [reflexivity|].
    split; [exact Hs | intros; lia]. }
  destruct ((s <? en) || c) eqn:Hcond; [|auto].
  assert (Hstep : forall en2, is_int64 en2 -> s < en2 -> en2 - s < 2 ^ 63 ->
            (c = false -> en2 <= en) ->
            (let batchEnd := add64 s (min (sub64 en2 s) batch) in
             let next := {| start := s; end_ := sub64 batchEnd 1 |} in
             if genDone e n then ([], true)
             else let '(rs0, closed0) := genRanges_loop e c batch fuel (S n) batchEnd en2 in
                  (next :: rs0, closed0)) = (rs, closed) ->
            exists x, tiles batch s rs x /\ is_int64 x /\ (c = false -> x <= en)).
  { intros en2 He2 Hlt Hov2 Hen2 E. cbv zeta in E.
    destruct (genDone e n); [auto|].
    set (m := Z.min (en2 - s) batch).
    assert (Hm : 1 <= m <= batch /\ m <= en2 - s) by (unfold m; lia).
    assert (Hsub : sub64 en2 s = en2 - s).
    { unfold sub64. apply int64_id. unfold is_int64 in *. lia. }
    assert (Hadd : add64 s m = s + m).
    { unfold add64. apply int64_id. unfold is_int64 in *. lia. }
    assert (Hend : sub64 (s + m) 1 = s + m - 1).
    { unfold sub64. apply int64_id. unfold is_int64 in *. lia. }
    rewrite Hsub, min_spec in E. fold m in E. rewrite Hadd, Hend in E.
    destruct (genRanges_loop e c batch fuel (S n) (s + m) en2) as [rs0 closed0] eqn:E0.
    inversion E; subst.
    assert (Hsm : is_int64 (s + m)) by (unfold is_int64 in *; lia).
    assert (Hle2 : s + m <= en2) by lia.
    assert (Hov3 : en2 - (s + m) < 2 ^ 63) by lia.
    destruct (IH _ _ _ _ _ Hsm He2 Hle2 Hov3 E0) as (x & Ht & Hx & Hxe).
    exists x. split; [|split; [exact Hx | intros Hc; specialize (Hxe Hc); specialize (Hen2 Hc); lia]].
    cbn. replace (s + m - 1 + 1) with (s + m) by lia.
    repeat split; try lia. exact Ht. }
  destruct (Z.eqb_spec s en) as [Heq|Hne].
  + subst en. destruct c; [|rewrite Z.ltb_irrefl in Hcond; discriminate].
    destruct (updateSTH e n s) as [en2|] eqn:Eu; [|auto].
    destruct (Hgrow eq_refl _ _ _ Eu) as (H1 & H2 & H3).
    apply (Hstep en2); [unfold is_int64 in *; lia | lia | lia | discriminate | exact H].
  + destruct c.
    * destruct (Z.ltb_spec s en); apply (Hstep en); try assumption; try lia; discriminate.
    * rewrite orb_false_r in Hcond. apply Z.ltb_lt in Hcond.
      apply (Hstep en); try assumption; try lia.
Qed.


(** In non-continuous mode the generator closes the channel after at most
    [en - s] turns, cancelled or not. *)
Lemma genRanges_loop_closes (e : env) (batch : Z) :
  1 <= batch -> is_int64 batch ->
  forall (k : nat) (n : nat) (s en : Z),
    is_int64 s -> is_int64 en -> s <= en -> en - s < 2 ^ 63 ->
    en - s <= Z.of_nat k ->
    exists rs x,
      tiles batch s rs x /\ s <= x <= en /\
      ((forall m, genDone e m = false) -> x = en) /\
      forall fuel, (k < fuel)%nat ->
        genRanges_loop e false batch fuel n s en = (rs, true).
Proof.
intros Hb1 Hb.
induction k as [|k IH]; intros n s en Hs He Hle Hov Hk.
- exists [], s. split; [reflexivity|]. split; [lia|]. split; [intros; lia|].
  intros [|fuel] Hf; [lia|].
  cbn. destruct (Z.ltb_spec s en); [lia | reflexivity].
- destruct (Z.eq_dec s en) as [->|Hne].
  + exists [], en. split; [reflexivity|]. split; [lia|]. split; [reflexivity|].
    intros [|fuel] Hf; [lia|].
    cbn. rewrite Z.ltb_irrefl. reflexivity.
  + set (m := Z.min (en - s) batch).
    assert (Hm : 1 <= m <= batch /\ m <= en - s) by (unfold m; lia).
    assert (Hsub : sub64 en s = en - s).
    { unfold sub64. apply int64_id. unfold is_int64 in *. lia. }
    assert (Hadd : add64 s m = s + m).
    { unfold add64. apply int64_id. unfold is_int64 in *. lia. }
    assert (Hend : sub64 (s + m) 1 = s + m - 1).
    { unfold sub64. apply int64_id. unfold is_int64 in *. lia. }
    assert (Hrun : forall fuel,
              genRanges_loop e false batch (S fuel) n s en =
              if genDone e n then ([], true)
              else let '(rs0, closed0) := genRanges_loop e false batch fuel (S n) (s + m) en in
                   ({| start := s; end_ := s + m - 1 |} :: rs0, closed0)).
    { intros fuel. cbn [genRanges_loop].
      destruct (Z.ltb_spec s en); [|lia]. cbn [orb].
      destruct (Z.eqb_spec s en); [lia|].
      rewrite Hsub, min_spec. fold m. rewrite Hadd, Hend. reflexivity. }
    destruct (genDone e n) eqn:Hd.
    * exists [], s. split; [reflexivity|]. split; [lia|].
      split; [intros Hall; rewrite Hall in Hd; discriminate|].
      intros [|fuel] Hf; [lia|]. rewrite Hrun. reflexivity.
    * destruct (IH (S n) (s + m) en) as (rs & x & Ht & Hx & Hall & Hgen);
        [unfold is_int64 in *; lia | assumption | lia | lia | lia |].
      exists ({| start := s; end_ := s + m - 1 |} :: rs), x.
      split; [|split; [lia | split; [exact Hall|]]].
      -- cbn. replace (s + m - 1 + 1) with (s + m) by lia.
         repeat split; try lia. exact Ht.
      -- intros [|fuel] Hf; [lia|]. rewrite Hrun, (Hgen fuel) by lia. reflexivity.
Qed.

End genRanges_prefix.

Section Run_extras.
Import scanner.

Lemma tiles_facts (batch : Z) (rs : list fetchRange) (s x : Z) :
  tiles batch s rs x ->
  (forall r, head rs = Some r -> start r = s) /\
  (forall r, r ∈ rs -> start r <= end_ r /\ end_ r - start r + 1 <= batch) /\
  (forall i r r', rs !! i = Some r -> rs !! S i = Some r' -> start r' = end_ r + 1) /\
  (forall i, (exists r, r ∈ rs /\ start r <= i <= end_ r) <-> s <= i < x).
Proof.
intros Ht.
destruct (tiles_lookup _ _ _ _ Ht) as (Hhd & Hall & Hnext & _).
destruct (tiles_in_range _ _ _ _ Ht) as (_ & Hcov).
split; [exact Hhd|]. split; [|split; [exact Hnext|]].
- intros r Hr. specialize (Hall r Hr). lia.
- intros i. rewrite <- Hcov. split; intros (r & Hr & Hin); exists r;
    (split; [exact Hr|]); unfold in_range in *; lia.
Qed.

(** X15.  With [Continuous = false], [BatchSize >= 1],
    [StartIndex <= EndIndex] and [EndIndex - StartIndex] within int64, the
    range generator closes the channel whenever its context is cancelled,
    and what it has sent by then is a prefix of the full sequence: ranges
    of at most [BatchSize] indices, the first starting at [StartIndex],
    each next one at the previous end plus one, that hold exactly the
    indices of [[StartIndex, x)] for some [x <= EndIndex]; without
    cancellation [x = EndIndex]. *)
Theorem genRanges_cancelled_sends_prefix (f : Fetcher) (e : env) :
  Continuous (opts f) = false ->
  1 <= BatchSize (opts f) ->
  StartIndex (opts f) <= EndIndex (opts f) ->
  is_int64 (BatchSize (opts f)) ->
  is_int64 (StartIndex (opts f)) -> is_int64 (EndIndex (opts f)) ->
  EndIndex (opts f) - StartIndex (opts f) < 2 ^ 63 ->
  exists rs x,
    (exists fuel0, forall fuel, (fuel0 <= fuel)%nat -> genRanges f e fuel = (rs, true)) /\
    StartIndex (opts f) <= x <= EndIndex (opts f) /\
    ((forall n, genDone e n = false) -> x = EndIndex (opts f)) /\
    (forall r, head rs = Some r -> start r = StartIndex (opts f)) /\
    (forall r, r ∈ rs ->
       start r <= end_ r /\ end_ r - start r + 1 <= BatchSize (opts f)) /\
    (forall i r r', rs !! i = Some r -> rs !! S i = Some r' ->
       start r' = end_ r + 1) /\
    (forall i, (exists r, r ∈ rs /\ start r <= i <= end_ r) <->
               StartIndex (opts f) <= i < x).
Proof.
intros Hc Hb1 Hle Hb Hs He Hov.
destruct (genRanges_loop_closes e (BatchSize (opts f)) Hb1 Hb
            (Z.to_nat (EndIndex (opts f) - StartIndex (opts f))) 0
            (StartIndex (opts f)) (EndIndex (opts f)))
  as (rs & x & Ht & Hx & Hall & Hrun); try assumption; [lia|].
exists rs, x. split; [|split; [exact Hx | split; [exact Hall|]]].
- exists (S (Z.to_nat (EndIndex (opts f) - StartIndex (opts f)))).
  intros fuel Hf. unfold genRanges. rewrite Hc, (int64_id _ Hb).
  apply Hrun. lia.
- apply (tiles_facts _ _ _ _ Ht).
Qed.

Lemma genRanges_cancelled_sends_prefix_witness :
  exists rs x,
    (exists fuel0, forall fuel, (fuel0 <= fuel)%nat ->
       genRanges fetcher_3_25 env_stopped fuel = (rs, true)) /\
    3 <= x <= 25 /\
    (forall i, (exists r, r ∈ rs /\ start r <= i <= end_ r) <-> 3 <= i < x).
Proof.
destruct (genRanges_cancelled_sends_prefix fetcher_3_25 env_stopped)
  as (rs & x & H1 & H2 & _ & _ & _ & _ & H3);
  try (cbn; unfold is_int64; lia); try reflexivity.
exists rs, x. split; [exact H1|]. split; [exact H2 | exact H3].
Defined.

(** [Run] when the generator sends [rs] and closes, with workers that are
    served well: every range sent is fetched in full. *)
Lemma Run_of_ranges (f f' : Fetcher) (e : env) (s : SignedTreeHead)
    (rs : list fetchRange) (fuelg : nat) (lo hi : Z) :
  Prepare f e = (f', Some s) ->
  1 <= ParallelFetch (opts f') ->
  (forall fuel, (fuelg <= fuel)%nat -> genRanges f' e fuel = (rs, true)) ->
  Forall good_range rs ->
  (forall i, rcover i rs = if (lo <=? i) && (i <? hi) then 1%nat else 0%nat) ->
  (forall w, well_served e w) ->
  exists outs,
    (exists fuel0, forall fuel, (fuel0 <= fuel)%nat ->
       Run f e fuel = Some (f', false, outs)) /\
    forall delivered, delivered ≡ₚ concat outs ->
      (forall b, b ∈ delivered -> Entries b <> []) /\
      (forall i, (exists b, b ∈ delivered /\ covers i b = true) <-> lo <= i < hi) /\
      (forall i p q b1 b2, p <> q ->
         delivered !! p = Some b1 -> delivered !! q = Some b2 ->
         covers i b1 = true -> covers i b2 = true -> False).
Proof.
intros Hprep Hp Hgen Hgood Hrc Hws.
set (cnt := Z.to_nat (ParallelFetch (opts f'))).
assert (Hcnt : (0 < cnt)%nat) by (unfold cnt; lia).
destruct (workers_complete e cnt rs Hws Hgood (seq 0 cnt)) as (fuelw & Hwork).
set (fuel0 := Nat.max fuelg fuelw).
set (out := fun w => snd (runWorker e w fuel0 0 (received e cnt w 0 rs))).
assert (Hout : forall w, w ∈ seq 0 cnt ->
          runWorker e w fuel0 0 (received e cnt w 0 rs) = (Completed, out w) /\
          (forall b, b ∈ out w -> Entries b <> []) /\
          forall i, cover i (out w) = rcover i (received e cnt w 0 rs)).
{ intros w Hw. specialize (Hwork fuel0 ltac:(lia)).
  rewrite Forall_forall in Hwork. destruct (Hwork w Hw) as (bs & Hrun & Hne & Hcov).
  unfold out. rewrite Hrun. cbn. auto. }
exists (map out (seq 0 cnt)). split.
- exists fuel0. intros fuel Hf. unfold Run. rewrite Hprep. fold cnt.
  destruct (Nat.eqb_spec cnt 0); [lia|].
  rewrite (Hgen fuel) by lia.
  assert (Hmap : map (fun w => runWorker e w fuel 0 (received e cnt w 0 rs)) (seq 0 cnt) =
                 map (fun w => (Completed, out w)) (seq 0 cnt)).
  { apply map_ext_in. intros w Hw%list_elem_of_In.
    destruct (Hout w Hw) as (Hrun & _).
    apply (runWorker_mono _ _ _ _ _ _ _ Hrun); [discriminate | lia]. }
  rewrite Hmap, map_map. cbn [snd andb].
  replace (forallb _ _) with true; [reflexivity|].
  symmetry. apply forallb_forall. intros o Ho. apply in_map_iff in Ho as (w & <- & _).
  reflexivity.
- intros delivered Hperm.
  assert (Hcover : forall i, cover i delivered =
            if (lo <=? i) && (i <? hi) then 1%nat else 0%nat).
  { intros i. rewrite (cover_Permutation _ _ _ Hperm), cover_concat.
    rewrite map_map, <- Hrc, <- (received_sum e cnt i rs Hcnt 0).
    f_equal. apply map_ext_in. intros w Hw%list_elem_of_In.
    apply (Hout w Hw). }
  split; [|split].
  + intros b Hb'. rewrite Hperm in Hb'.
    apply list_elem_of_In, in_concat in Hb' as (bs & Hin & Hbs).
    apply list_elem_of_In in Hin, Hbs.
    apply list_elem_of_fmap in Hin as (w & -> & Hw).
    apply (Hout w Hw). exact Hbs.
  + intros i. rewrite <- cover_ge_1_elem, Hcover.
    destruct (Z.leb_spec lo i), (Z.ltb_spec i hi); cbn; lia.
  + intros i. apply cover_le_1_disjoint. rewrite Hcover.
    destruct (_ && _); lia.
Qed.


Lemma genRanges_closes_rcover (f : Fetcher) (e : env) :
  Continuous (opts f) = false ->
  1 <= BatchSize (opts f) -> is_int64 (BatchSize (opts f)) ->
  is_int64 (StartIndex (opts f)) -> is_int64 (EndIndex (opts f)) ->
  EndIndex (opts f) - StartIndex (opts f) < 2 ^ 63 ->
  exists rs x fuel0,
    (forall fuel, (fuel0 <= fuel)%nat -> genRanges f e fuel = (rs, true)) /\
    Forall good_range rs /\
    (StartIndex (opts f) <= EndIndex (opts f) ->
     StartIndex (opts f) <= x <= EndIndex (opts f)) /\
    ((forall n, genDone e n = false) -> StartIndex (opts f) <= EndIndex (opts f) ->
     x = EndIndex (opts f)) /\
    forall i, rcover i rs =
              if (StartIndex (opts f) <=? i) && (i <? x) then 1%nat else 0%nat.
Proof.
intros Hc Hb1 Hb Hs He Hov.
destruct (Z.le_gt_cases (StartIndex (opts f)) (EndIndex (opts f))) as [Hle|Hgt].
- destruct (genRanges_loop_closes e (BatchSize (opts f)) Hb1 Hb
              (Z.to_nat (EndIndex (opts f) - StartIndex (opts f))) 0
              (StartIndex (opts f)) (EndIndex (opts f)))
    as (rs & x & Ht & Hx & Hall & Hrun); try assumption; [lia|].
  exists rs, x, (S (Z.to_nat (EndIndex (opts f) - StartIndex (opts f)))).
  split; [|split; [|split; [|split]]].
  + intros fuel Hf. unfold genRanges. rewrite Hc, (int64_id _ Hb). apply Hrun. lia.
  + assert (Hb63 : BatchSize (opts f) < 2 ^ 63) by (unfold is_int64 in Hb; lia).
    apply (tiles_good _ rs Hb63 (StartIndex (opts f)) x);
      [assumption | unfold is_int64 in *; lia | exact Ht].
  + intros _. exact Hx.
  + intros Hd _. exact (Hall Hd).
  + intros i. eapply rcover_tiles. exact Ht.
- exists [], (StartIndex (opts f)), 1%nat. split; [|split; [|split; [|split]]].
  + intros [|fuel] Hf; [lia|]. unfold genRanges. rewrite Hc. cbn.
    destruct (Z.ltb_spec (StartIndex (opts f)) (EndIndex (opts f))); [lia | reflexivity].
  + constructor.
  + lia.
  + lia.
  + intros i. unfold rcover. cbn.
    destruct (Z.leb_spec (StartIndex (opts f)) i), (Z.ltb_spec i (StartIndex (opts f)));
      cbn; try reflexivity; lia.
Qed.

(** X16.  [Stop] cancels the context of the range generator only.  In
    non-continuous mode with at least one worker, when the generator is
    cancelled at any turn while the context of the workers stays live and
    the log serves every request: [Run] returns without error, and the
    batches delivered have pairwise disjoint spans that cover exactly
    [[StartIndex, x)] for some [x <= EndIndex]: every range sent before
    the cancellation is fetched in full, none is dropped halfway. *)
Theorem Run_drains_after_Stop (f f' : Fetcher) (e : env) (s : SignedTreeHead) :
  Prepare f e = (f', Some s) ->
  Continuous (opts f') = false ->
  1 <= ParallelFetch (opts f') ->
  1 <= BatchSize (opts f') -> is_int64 (BatchSize (opts f')) ->
  is_int64 (StartIndex (opts f')) -> is_int64 (EndIndex (opts f')) ->
  EndIndex (opts f') - StartIndex (opts f') < 2 ^ 63 ->
  (forall w, well_served e w) ->
  exists outs x,
    (exists fuel0, forall fuel, (fuel0 <= fuel)%nat ->
       Run f e fuel = Some (f', false, outs)) /\
    (StartIndex (opts f') <= EndIndex (opts f') ->
     StartIndex (opts f') <= x <= EndIndex (opts f')) /\
    forall delivered, delivered ≡ₚ concat outs ->
      (forall b, b ∈ delivered -> Entries b <> []) /\
      (forall i, (exists b, b ∈ delivered /\ covers i b = true) <->
                 StartIndex (opts f') <= i < x) /\
      (forall i p q b1 b2, p <> q ->
         delivered !! p = Some b1 -> delivered !! q = Some b2 ->
         covers i b1 = true -> covers i b2 = true -> False).
Proof.
intros Hprep Hc Hp Hb1 Hb Hs He Hov Hws.
destruct (genRanges_closes_rcover f' e Hc Hb1 Hb Hs He Hov)
  as (rs & x & fuelg & Hgen & Hgood & Hx & _ & Hrc).
destruct (Run_of_ranges f f' e s rs fuelg _ _ Hprep Hp Hgen Hgood Hrc Hws)
  as (outs & Hrun & Hdel).
exists outs, x. split; [exact Hrun|]. split; [exact Hx | exact Hdel].
Qed.

Lemma env_stopped_well_served (w : nat) : well_served env_stopped w.
Proof.
split; [reflexivity|]. split.
- intros k s en. exists 0%nat. discriminate.
- intros k s en es Hle [= <-]. rewrite length_replicate. lia.
Qed.

Lemma Run_drains_after_Stop_witness :
  exists outs x,
    (exists fuel0, forall fuel, (fuel0 <= fuel)%nat ->
       Run fetcher_new env_stopped fuel = Some (fetcher_3_25, false, outs)) /\
    3 <= x <= 25 /\
    forall i, (exists b, b ∈ concat outs /\ covers i b = true) <-> 3 <= i < x.
Proof.
destruct (Run_drains_after_Stop fetcher_new fetcher_3_25 env_stopped {| TreeSize := 25 |})
  as (outs & x & Hrun & Hx & Hdel);
  try reflexivity; try (cbn; unfold is_int64; lia).
- exact env_stopped_well_served.
- exists outs, x. split; [exact Hrun|]. split; [apply Hx; cbn; lia|].
  destruct (Hdel (concat outs) (Permutation_refl _)) as (_ & Hcov & _). exact Hcov.
Defined.

(** X17.  [Run] on [NewFetcher(client, DefaultFetcherOptions())] against
    a log of [n < 2^63] entries that serves every request, without
    cancellation: [Prepare] caches the STH and sets [EndIndex] to [n],
    [Run] returns without error, no delivered batch is empty, and the
    spans of the delivered batches are pairwise disjoint and cover
    exactly the indices [[0, n)]. *)
Theorem Run_with_default_options_fetches_the_log (e : env) (s : SignedTreeHead) :
  GetSTH e = Some s ->
  0 <= TreeSize s < 2 ^ 63 ->
  (forall n, genDone e n = false) ->
  (forall w, well_served e w) ->
  exists f' outs,
    (exists fuel0, forall fuel, (fuel0 <= fuel)%nat ->
       Run (NewFetcher DefaultFetcherOptions) e fuel = Some (f', false, outs)) /\
    sth f' = Some s /\ StartIndex (opts f') = 0 /\ EndIndex (opts f') = TreeSize s /\
    forall delivered, delivered ≡ₚ concat outs ->
      (forall b, b ∈ delivered -> Entries b <> []) /\
      (forall i, (exists b, b ∈ delivered /\ covers i b = true) <-> 0 <= i < TreeSize s) /\
      (forall i p q b1 b2, p <> q ->
         delivered !! p = Some b1 -> delivered !! q = Some b2 ->
         covers i b1 = true -> covers i b2 = true -> False).
Proof.
intros Hsth Hsize Hdone Hws.
set (f' := {| opts := {| BatchSize := 1000; ParallelFetch := 1; StartIndex := 0;
                         EndIndex := TreeSize s; Continuous := false |};
              sth := Some s |}).
assert (Hprep : Prepare (NewFetcher DefaultFetcherOptions) e = (f', Some s)).
{ unfold Prepare. cbn [NewFetcher DefaultFetcherOptions sth opts]. rewrite Hsth.
  cbn [EndIndex BatchSize ParallelFetch StartIndex Continuous orb Z.eqb].
  rewrite int64_id by (unfold is_int64; lia). reflexivity. }
destruct (genRanges_closes_rcover f' e)
  as (rs & x & fuelg & Hgen & Hgood & _ & Hx & Hrc);
  try reflexivity; try (cbn; unfold is_int64; lia).
cbn [f' opts StartIndex EndIndex] in Hx, Hrc.
rewrite (Hx Hdone) in Hrc by lia.
destruct (Run_of_ranges _ f' e s rs fuelg _ _ Hprep ltac:(cbn; lia) Hgen Hgood Hrc Hws)
  as (outs & Hrun & Hdel).
exists f', outs. split; [exact Hrun|].
split; [reflexivity|]. split; [reflexivity|]. split; [reflexivity|]. exact Hdel.
Qed.

Lemma Run_with_default_options_fetches_the_log_witness :
  exists f' outs,
    (exists fuel0, forall fuel, (fuel0 <= fuel)%nat ->
       Run (NewFetcher DefaultFetcherOptions) env_partial fuel = Some (f', false, outs)) /\
    EndIndex (opts f') = 25 /\
    forall i, (exists b, b ∈ concat outs /\ covers i b = true) <-> 0 <= i < 25.
Proof.
destruct (Run_with_default_options_fetches_the_log env_partial {| TreeSize := 25 |})
  as (f' & outs & Hrun & _ & _ & Hend & Hdel).
- reflexivity.
- cbn. lia.
- reflexivity.
- exact env_partial_well_served.
- exists f', outs. split; [exact Hrun|]. split; [exact Hend|].
  destruct (Hdel (concat outs) (Permutation_refl _)) as (_ & Hcov & _). exact Hcov.
Defined.


Lemma runRange_at_most (e : env) (w : nat) :
  bounded_answers e w ->
  forall (fuel k : nat) (r : fetchRange) st k' bs,
    good_range r ->
    runRange e w fuel k r = (st, k', bs) ->
    (forall i, (cover i bs <= if in_range i r then 1 else 0)%nat) /\
    (st = Completed -> forall i, cover i bs = if in_range i r then 1%nat else 0%nat).
Proof.
intros Hresp. induction fuel as [|fuel IH]; intros k r st k' bs Hgood H.
- cbn in H. inversion H; subst. split; [intros i; cbn; lia | discriminate].
- cbn [runRange] in H. destruct Hgood as (Hs & He & Hw).
  destruct (Z.leb_spec (start r) (end_ r)) as [Hle|Hgt].
  + destruct (ctxErr e w k).
    { inversion H; subst. split; [intros i; cbn; lia | discriminate]. }
    destruct (GetRawEntries e w k (start r) (end_ r)) as [es|] eqn:E.
    * pose proof (Hresp _ _ _ _ Hle E) as Hlen.
      set (r' := {| start := add64 (start r) (int64 (Z.of_nat (length es)));
                    end_ := end_ r |}) in *.
      assert (Hstart : start r' = start r + Z.of_nat (length es)).
      { cbn. unfold add64. rewrite (int64_id (Z.of_nat _)) by (unfold is_int64 in *; lia).
        apply int64_id. unfold is_int64 in *. lia. }
      destruct (runRange e w fuel (S k) r') as [[st1 k1] bs1] eqn:E1.
      inversion H; subst.
      destruct (IH _ _ _ _ _ ltac:(unfold good_range; rewrite Hstart; cbn [end_ r'];
                                   unfold is_int64 in *; lia) E1) as (Hle1 & Heq1).
      split.
      -- intros i. rewrite cover_cons. specialize (Hle1 i).
         revert Hle1. unfold covers, in_range. cbn [Start Entries].
         rewrite Hstart. cbn [end_ r'].
         destruct (Z.leb_spec (start r) i), (Z.ltb_spec i (start r + Z.of_nat (length es))),
                  (Z.leb_spec (start r + Z.of_nat (length es)) i), (Z.leb_spec i (end_ r));
           cbn; lia.
      -- intros Hc i. rewrite cover_cons, (Heq1 Hc).
         unfold covers, in_range. cbn [Start Entries].
         rewrite Hstart. cbn [end_ r'].
         destruct (Z.leb_spec (start r) i), (Z.ltb_spec i (start r + Z.of_nat (length es))),
                  (Z.leb_spec (start r + Z.of_nat (length es)) i), (Z.leb_spec i (end_ r));
           cbn; lia.
    * apply (IH _ _ _ _ _ (conj Hs (conj He Hw)) H).
  + inversion H; subst. split.
    * intros i; cbn; lia.
    * intros _ i. unfold in_range.
      destruct (Z.leb_spec (start r) i), (Z.leb_spec i (end_ r)); cbn; try reflexivity; lia.
Qed.

Lemma runWorker_at_most (e : env) (w : nat) :
  bounded_answers e w ->
  forall (rs : list fetchRange) (fuel k : nat) st bs,
    Forall good_range rs ->
    runWorker e w fuel k rs = (st, bs) ->
    (forall i, (cover i bs <= rcover i rs)%nat) /\
    (st = Completed -> forall i, cover i bs = rcover i rs).
Proof.
intros Hresp. induction rs as [|r rs IH]; intros fuel k st bs Hgood H.
- cbn in H. inversion H; subst. split; [intros i; cbn; lia | reflexivity].
- apply Forall_cons in Hgood as [Hr Hgood]. cbn [runWorker] in H.
  destruct (runRange e w fuel k r) as [[st1 k1] bs1] eqn:E1.
  destruct (runRange_at_most e w Hresp _ _ _ _ _ _ Hr E1) as (Hle1 & Heq1).
  destruct st1.
  + inversion H; subst. split; [|discriminate].
    intros i. rewrite rcover_cons. specialize (Hle1 i). lia.
  + inversion H; subst. split; [|discriminate].
    intros i. rewrite rcover_cons. specialize (Hle1 i). lia.
  + destruct (runWorker e w fuel k1 rs) as [st2 bs2] eqn:E2.
    inversion H; subst.
    destruct (IH _ _ _ _ Hgood E2) as (Hle2 & Heq2). split.
    * intros i. rewrite cover_app, rcover_cons, (Heq1 eq_refl). specialize (Hle2 i). lia.
    * intros Hc i. rewrite cover_app, rcover_cons, (Heq1 eq_refl), (Heq2 Hc). reflexivity.
Qed.

Lemma sum_list_le (f g : nat -> nat) (ws : list nat) :
  (forall w, w ∈ ws -> (f w <= g w)%nat) ->
  (sum_list (map f ws) <= sum_list (map g ws))%nat.
Proof.
induction ws as [|w ws IH]; intros H; [cbn; lia|].
cbn. pose proof (H w ltac:(constructor)).
assert (sum_list (map f ws) <= sum_list (map g ws))%nat.
{ apply IH. intros w' Hw'. apply H. now constructor. }
lia.
Qed.

(** X18.  Whatever is cancelled, whichever requests fail or are answered
    with no entry, in either mode: if the log never answers a request
    with more entries than asked for, then when [Run] returns no index
    lies in the spans of two delivered batches, and every index delivered
    is at least [StartIndex] and, in non-continuous mode, below
    [EndIndex].  (In continuous mode [updateSTH] is taken to set a bigger
    [EndIndex] below 2^63, as it does.) *)
Theorem Run_delivers_no_index_twice
    (f f' : Fetcher) (e : env) (fuel : nat) (err : bool) (outs : list (list EntryBatch)) :
  Run f e fuel = Some (f', err, outs) ->
  1 <= BatchSize (opts f') -> is_int64 (BatchSize (opts f')) ->
  is_int64 (StartIndex (opts f')) -> is_int64 (EndIndex (opts f')) ->
  StartIndex (opts f') <= EndIndex (opts f') ->
  EndIndex (opts f') - StartIndex (opts f') < 2 ^ 63 ->
  (Continuous (opts f') = true -> growing e) ->
  (forall w, bounded_answers e w) ->
  forall delivered, delivered ≡ₚ concat outs ->
    (forall i p q b1 b2, p <> q ->
       delivered !! p = Some b1 -> delivered !! q = Some b2 ->
       covers i b1 = true -> covers i b2 = true -> False) /\
    (forall i b, b ∈ delivered -> covers i b = true ->
       StartIndex (opts f') <= i /\
       (Continuous (opts f') = false -> i < EndIndex (opts f'))).
Proof.
intros Hrun Hb1 Hb Hs He Hle Hov Hgrow Hresp delivered Hperm.
assert (Hcover : forall i, (cover i delivered <= 1)%nat /\
          ((1 <= cover i delivered)%nat ->
           StartIndex (opts f') <= i /\
           (Continuous (opts f') = false -> i < EndIndex (opts f')))).
{ intros i. rewrite (cover_Permutation _ _ _ Hperm), cover_concat.
  unfold Run in Hrun. destruct (Prepare f e) as [f1 [s|]].
  2:{ inversion Hrun; subst. cbn. split; lia. }
  set (cnt := Z.to_nat (ParallelFetch (opts f1))) in *.
  destruct (Nat.eqb_spec cnt 0).
  { inversion Hrun; subst. cbn. split; lia. }
  destruct (genRanges f1 e fuel) as [ranges closed] eqn:Eg.
  destruct (closed && _); [|discriminate].
  inversion Hrun; subst f1 err outs. clear Hrun.
  unfold genRanges in Eg. rewrite (int64_id _ Hb) in Eg.
  destruct (genRanges_loop_prefix e _ _ Hb1 Hb Hgrow _ _ _ _ _ _ Hs He Hle Hov Eg)
    as (x & Ht & Hx & Hxe).
  assert (Hb63 : BatchSize (opts f') < 2 ^ 63) by (unfold is_int64 in Hb; lia).
  pose proof (tiles_good _ _ Hb63 _ _ Hs Hx Ht) as Hgood.
  pose proof (rcover_tiles _ _ i _ _ Ht) as Hrc.
  assert (Hsum : (sum_list (map (cover i)
                    (map snd (map (fun w => runWorker e w fuel 0 (received e cnt w 0 ranges))
                                  (seq 0 cnt)))) <= rcover i ranges)%nat).
  { rewrite <- (received_sum e cnt i ranges ltac:(lia) 0), !map_map.
    apply sum_list_le. intros w _.
    destruct (runWorker e w fuel 0 (received e cnt w 0 ranges)) as [st bs] eqn:Ew.
    apply (runWorker_at_most e w (Hresp w) _ _ _ _ _ (received_good _ _ _ _ _ Hgood) Ew). }
  rewrite Hrc in Hsum.
  destruct (Z.leb_spec (StartIndex (opts f')) i), (Z.ltb_spec i x); cbn in Hsum;
    split; try lia.
  intros _. split; [lia|]. intros Hc. specialize (Hxe Hc). lia. }
split.
- intros i. apply cover_le_1_disjoint. apply Hcover.
- intros i b Hin Hc. apply Hcover. apply cover_ge_1_elem. eauto.
Qed.

Lemma env_cancelled_bounded (w : nat) : bounded_answers env_cancelled w.
Proof. intros k s en es Hle [= <-]. rewrite length_replicate. lia. Qed.

Lemma Run_delivers_no_index_twice_witness :
  exists outs,
    Run fetcher_new env_cancelled 20 = Some (fetcher_3_25, false, outs) /\
    forall i b, b ∈ concat outs -> covers i b = true -> 3 <= i < 25.
Proof.
assert (E : exists outs,
          Run fetcher_new env_cancelled 20 = Some (fetcher_3_25, false, outs)).
{ eexists. vm_compute. reflexivity. }
destruct E as [outs E]. exists outs. split; [exact E|].
intros i b Hin Hc.
destruct (Run_delivers_no_index_twice fetcher_new fetcher_3_25 env_cancelled 20 false outs E)
  with (delivered := concat outs) as (_ & H);
  try (cbn; unfold is_int64; lia); try reflexivity.
- exact env_cancelled_bounded.
- destruct (H i b Hin Hc) as (H1 & H2). split; [exact H1 | exact (H2 eq_refl)].
Defined.

End Run_extras.

Section continuous.
Import scanner.

Lemma genRanges_loop_closed (e : env) (batch : Z) :
  forall (fuel n : nat) (s en : Z),
    snd (genRanges_loop e true batch fuel n s en) = true ->
    exists m, genDone e m = true \/ exists en', updateSTH e m en' = None.
Proof.
induction fuel as [|fuel IH]; intros n s en; [discriminate|].
cbn [genRanges_loop]. rewrite orb_true_r.
destruct (if s =? en then updateSTH e n en else Some en) as [en2|] eqn:E.
- destruct (genDone e n) eqn:Hd; [eauto|].
  destruct (genRanges_loop e true batch fuel (S n) _ en2) as [rs closed] eqn:E2.
  cbn [snd]. intros ->.
  apply (IH (S n) (add64 s (min (sub64 en2 s) batch)) en2). rewrite E2. reflexivity.
- destruct (s =? en); [|discriminate]. eauto.
Qed.

(** X19.  Continuous mode ends only when stopped: the range generator
    closes the channel only if its context is cancelled or [updateSTH]
    returns an error, and so a [Run] with at least one worker returns only
    then. *)
Theorem continuous_mode_ends_only_when_stopped (f : Fetcher) (e : env) (fuel : nat) :
  Continuous (opts f) = true ->
  (snd (genRanges f e fuel) = true ->
   exists n, genDone e n = true \/ exists en, updateSTH e n en = None) /\
  (forall (f0 : Fetcher) (s : SignedTreeHead) r,
     Prepare f0 e = (f, Some s) ->
     1 <= ParallelFetch (opts f) ->
     Run f0 e fuel = Some r ->
     exists n, genDone e n = true \/ exists en, updateSTH e n en = None).
Proof.
intros Hc.
assert (Hgen : snd (genRanges f e fuel) = true ->
          exists n, genDone e n = true \/ exists en, updateSTH e n en = None).
{ unfold genRanges. rewrite Hc. apply genRanges_loop_closed. }
split; [exact Hgen|].
intros f0 s r Hprep Hp. unfold Run. rewrite Hprep.
destruct (Nat.eqb_spec (Z.to_nat (ParallelFetch (opts f))) 0); [lia|].
destruct (genRanges f e fuel) as [ranges closed].
destruct closed; [|discriminate]. intros _. apply Hgen. reflexivity.
Qed.

Lemma continuous_mode_ends_only_when_stopped_witness :
  exists n, genDone env_stopped n = true \/ exists en, updateSTH env_stopped n en = None.
Proof.
destruct (continuous_mode_ends_only_when_stopped fetcher_continuous env_stopped 9 eq_refl)
  as (_ & H).
apply (H fetcher_continuous {| TreeSize := 25 |}
         (fetcher_continuous, false,
          [ [ {| Start := 3; Entries := replicate 10 ([], []) |} ];
            [ {| Start := 13; Entries := replicate 10 ([], []) |} ] ])).
- reflexivity.
- cbn. lia.
- vm_compute. reflexivity.
Defined.

(** X20.  In continuous mode, with [BatchSize >= 1],
    [StartIndex <= EndIndex] and an [updateSTH] that sets a bigger
    [EndIndex] below 2^63: at every moment the ranges sent so far have at
    least one and at most [BatchSize] indices each, the first starts at
    [StartIndex], each next one at the previous end plus one, and together
    they hold exactly the indices of [[StartIndex, x)] for some [x]: the
    generator goes past the first [EndIndex] without a gap or an
    overlap. *)
Theorem genRanges_continuous_keeps_tiling (f : Fetcher) (e : env) (fuel : nat) :
  Continuous (opts f) = true ->
  1 <= BatchSize (opts f) -> is_int64 (BatchSize (opts f)) ->
  is_int64 (StartIndex (opts f)) -> is_int64 (EndIndex (opts f)) ->
  StartIndex (opts f) <= EndIndex (opts f) ->
  EndIndex (opts f) - StartIndex (opts f) < 2 ^ 63 ->
  growing e ->
  exists x,
    (forall r, head (fst (genRanges f e fuel)) = Some r -> start r = StartIndex (opts f)) /\
    (forall r, r ∈ fst (genRanges f e fuel) ->
       start r <= end_ r /\ end_ r - start r + 1 <= BatchSize (opts f)) /\
    (forall i r r', fst (genRanges f e fuel) !! i = Some r ->
       fst (genRanges f e fuel) !! S i = Some r' -> start r' = end_ r + 1) /\
    (forall i, (exists r, r ∈ fst (genRanges f e fuel) /\ start r <= i <= end_ r) <->
               StartIndex (opts f) <= i < x).
Proof.
intros Hc Hb1 Hb Hs He Hle Hov Hgrow.
destruct (genRanges f e fuel) as [rs closed] eqn:E. cbn [fst].
unfold genRanges in E. rewrite Hc, (int64_id _ Hb) in E.
destruct (genRanges_loop_prefix e true _ Hb1 Hb (fun _ => Hgrow) _ _ _ _ _ _ Hs He Hle Hov E)
  as (x & Ht & _).
exists x. apply (tiles_facts _ _ _ _ Ht).
Qed.

Lemma env_growing_growing : growing env_growing.
Proof.
intros n en en'. cbn. destruct (Z.ltb_spec en (2 ^ 62)); [|discriminate].
intros [= <-]. lia.
Qed.

Lemma genRanges_continuous_keeps_tiling_witness :
  exists x,
    forall i, (exists r, r ∈ fst (genRanges fetcher_continuous env_growing 6) /\
                         start r <= i <= end_ r) <-> 3 <= i < x.
Proof.
destruct (genRanges_continuous_keeps_tiling fetcher_continuous env_growing 6)
  as (x & _ & _ & _ & Hcov);
  try reflexivity; try (cbn; unfold is_int64; lia).
- exact env_growing_growing.
- exists x. exact Hcov.
Defined.
End continuous.

Section never_returns.
Import scanner.

(** X21.  [Prepare] on success returns the STH it leaves cached and
    changes no option but [EndIndex].  On a Fetcher with no STH yet, the
    STH is the one the log gave and [EndIndex] ends up at most the tree
    size (as an int64): it becomes the tree size if it was 0, and stays if
    it was not 0 and within the tree.  On a Fetcher that has an STH
    nothing changes.  A second [Prepare] returns the same STH and changes
    nothing, whatever the log would answer.  On failure the Fetcher is
    unchanged: it had no STH and [GetSTH] failed. *)
Theorem Prepare_fits_the_range_and_caches (f : Fetcher) (e e' : env) :
  match Prepare f e with
  | (f', Some s) =>
      sth f' = Some s /\
      BatchSize (opts f') = BatchSize (opts f) /\
      ParallelFetch (opts f') = ParallelFetch (opts f) /\
      StartIndex (opts f') = StartIndex (opts f) /\
      Continuous (opts f') = Continuous (opts f) /\
      (sth f = None ->
       GetSTH e = Some s /\
       EndIndex (opts f') <= int64 (TreeSize s) /\
       (EndIndex (opts f) = 0 -> EndIndex (opts f') = int64 (TreeSize s)) /\
       (EndIndex (opts f) <> 0 -> EndIndex (opts f) <= int64 (TreeSize s) ->
        EndIndex (opts f') = EndIndex (opts f))) /\
      (sth f <> None -> f' = f) /\
      Prepare f' e' = (f', Some s)
  | (f', None) => f' = f /\ sth f = None /\ GetSTH e = None
  end.
Proof.
unfold Prepare. destruct (sth f) as [s0|] eqn:Hsth.
- repeat split; try reflexivity; try exact Hsth; try discriminate.
  rewrite Hsth. reflexivity.
- destruct (GetSTH e) as [s|] eqn:Hget; [|auto].
  cbn [sth opts].
  destruct (Z.eqb_spec (EndIndex (opts f)) 0) as [H0|H0];
    destruct (Z.gtb_spec (EndIndex (opts f)) (int64 (TreeSize s))) as [Hgt|Hle];
    cbn [orb BatchSize ParallelFetch StartIndex EndIndex Continuous];
    repeat split; try reflexivity; try lia; try congruence.
Qed.

Lemma genRanges_loop_zero_batch (e : env) (c : bool) (s en : Z) :
  (forall n, genDone e n = false) ->
  is_int64 s -> - 2 ^ 63 < s -> is_int64 en -> s < en -> en - s < 2 ^ 63 ->
  forall fuel n,
    genRanges_loop e c 0 fuel n s en =
    (replicate fuel {| start := s; end_ := s - 1 |}, false).
Proof.
intros Hdone Hs Hs' He Hlt Hov. induction fuel as [|fuel IH]; intros n; [reflexivity|].
cbn [genRanges_loop]. destruct (Z.ltb_spec s en); [|lia]. cbn [orb].
destruct (Z.eqb_spec s en); [lia|].
assert (Hsub : sub64 en s = en - s).
{ unfold sub64. apply int64_id. unfold is_int64 in *. lia. }
rewrite Hsub, min_spec, Z.min_r by lia.
assert (Hadd : add64 s 0 = s).
{ unfold add64. rewrite Z.add_0_r. apply int64_id. exact Hs. }
assert (Hend : sub64 s 1 = s - 1).
{ unfold sub64. apply int64_id. unfold is_int64 in *. lia. }
rewrite Hadd, Hend, Hdone, IH. reflexivity.
Qed.

(** X22.  With [BatchSize = 0], at least one worker and
    [StartIndex < EndIndex], a [Run] whose generator is not cancelled
    never returns: at every turn the generator sends the empty range
    [[StartIndex, StartIndex - 1]] and never closes the channel. *)
Theorem Run_with_zero_BatchSize_never_returns
    (f f' : Fetcher) (e : env) (s : SignedTreeHead) :
  Prepare f e = (f', Some s) ->
  BatchSize (opts f') = 0 ->
  1 <= ParallelFetch (opts f') ->
  is_int64 (StartIndex (opts f')) -> - 2 ^ 63 < StartIndex (opts f') ->
  is_int64 (EndIndex (opts f')) ->
  StartIndex (opts f') < EndIndex (opts f') ->
  EndIndex (opts f') - StartIndex (opts f') < 2 ^ 63 ->
  (forall n, genDone e n = false) ->
  forall fuel,
    genRanges f' e fuel =
      (replicate fuel {| start := StartIndex (opts f');
                         end_ := StartIndex (opts f') - 1 |}, false) /\
    Run f e fuel = None.
Proof.
intros Hprep Hb Hp Hs Hs' He Hlt Hov Hdone fuel.
assert (Hgen : genRanges f' e fuel =
          (replicate fuel {| start := StartIndex (opts f');
                             end_ := StartIndex (opts f') - 1 |}, false)).
{ unfold genRanges. rewrite Hb. change (int64 0) with 0.
  apply genRanges_loop_zero_batch; assumption. }
split; [exact Hgen|].
unfold Run. rewrite Hprep.
destruct (Nat.eqb_spec (Z.to_nat (ParallelFetch (opts f'))) 0); [lia|].
rewrite Hgen. reflexivity.
Qed.

Lemma Run_with_zero_BatchSize_never_returns_witness :
  genRanges {| opts := {| BatchSize := 0; ParallelFetch := 2; StartIndex := 3;
                          EndIndex := 25; Continuous := false |};
               sth := Some {| TreeSize := 25 |} |} env_quiet 7 =
    (replicate 7 {| start := 3; end_ := 2 |}, false) /\
  Run fetcher_zero_batch env_quiet 7 = None.
Proof.
apply (Run_with_zero_BatchSize_never_returns fetcher_zero_batch
         {| opts := {| BatchSize := 0; ParallelFetch := 2; StartIndex := 3;
                       EndIndex := 25; Continuous := false |};
            sth := Some {| TreeSize := 25 |} |} env_quiet {| TreeSize := 25 |});
  try reflexivity; try (cbn; unfold is_int64; lia).
Defined.


(** X23.  Against a log that answers every request with zero entries,
    with at least one worker, [BatchSize >= 1] and
    [StartIndex < EndIndex], a [Run] that is not cancelled never returns:
    the worker that receives the first range stays on it. *)
Theorem Run_never_returns_on_empty_answers
    (f f' : Fetcher) (e : env) (s : SignedTreeHead) :
  Prepare f e = (f', Some s) ->
  1 <= ParallelFetch (opts f') ->
  1 <= BatchSize (opts f') -> is_int64 (BatchSize (opts f')) ->
  is_int64 (StartIndex (opts f')) -> is_int64 (EndIndex (opts f')) ->
  StartIndex (opts f') < EndIndex (opts f') ->
  EndIndex (opts f') - StartIndex (opts f') < 2 ^ 63 ->
  genDone e 0 = false ->
  (forall w k, ctxErr e w k = false) ->
  (forall w k lo hi, GetRawEntries e w k lo hi = Some []) ->
  forall fuel, Run f e fuel = None.
Proof.
intros Hprep Hp Hb1 Hb Hs He Hlt Hov Hdone Hctx Hresp fuel.
unfold Run. rewrite Hprep.
set (cnt := Z.to_nat (ParallelFetch (opts f'))).
destruct (Nat.eqb_spec cnt 0); [unfold cnt in *; lia|].
destruct fuel as [|fuel]; [reflexivity|].
set (m := Z.min (EndIndex (opts f') - StartIndex (opts f')) (BatchSize (opts f'))).
assert (Hm : 1 <= m <= EndIndex (opts f') - StartIndex (opts f')) by (unfold m; lia).
set (r0 := {| start := StartIndex (opts f'); end_ := StartIndex (opts f') + m - 1 |}).
assert (Hgen : exists rs closed, genRanges f' e (S fuel) = (r0 :: rs, closed)).
{ unfold genRanges. rewrite (int64_id _ Hb). cbn [genRanges_loop].
  destruct (Z.ltb_spec (StartIndex (opts f')) (EndIndex (opts f'))); [|lia]. cbn [orb].
  destruct (Z.eqb_spec (StartIndex (opts f')) (EndIndex (opts f'))); [lia|].
  assert (Hsub : sub64 (EndIndex (opts f')) (StartIndex (opts f')) =
                 EndIndex (opts f') - StartIndex (opts f')).
  { unfold sub64. apply int64_id. unfold is_int64 in *. lia. }
  rewrite Hsub, min_spec. fold m.
  assert (Hadd : add64 (StartIndex (opts f')) m = StartIndex (opts f') + m).
  { unfold add64. apply int64_id. unfold is_int64 in *. lia. }
  assert (Hend : sub64 (StartIndex (opts f') + m) 1 = StartIndex (opts f') + m - 1).
  { unfold sub64. apply int64_id. unfold is_int64 in *. lia. }
  rewrite Hadd, Hend, Hdone. fold r0.
  destruct (genRanges_loop _ _ _ fuel 1 _ _) as [rs closed]. eauto. }
destruct Hgen as (rs & closed & ->).
set (w0 := (recv e 0 mod cnt)%nat).
assert (Hw0 : w0 ∈ seq 0 cnt).
{ apply elem_of_seq. pose proof (Nat.mod_upper_bound (recv e 0) cnt). unfold w0. lia. }
assert (Hrun : fst (runWorker e w0 (S fuel) 0 (received e cnt w0 0 (r0 :: rs))) = Running).
{ cbn [received]. fold w0. rewrite Nat.eqb_refl. cbn [runWorker].
  rewrite (runRange_always_empty e w0 r0) by (cbn; auto; lia). reflexivity. }
destruct closed; [|reflexivity]. cbn [andb].
destruct (forallb _ _) eqn:Hall; [|reflexivity].
rewrite forallb_forall in Hall.
specialize (Hall (runWorker e w0 (S fuel) 0 (received e cnt w0 0 (r0 :: rs)))).
rewrite Hrun in Hall. cbn in Hall.
exfalso. assert (false = true); [|discriminate]. apply Hall.
apply in_map_iff. exists w0. split; [reflexivity|]. apply list_elem_of_In. exact Hw0.
Qed.

Lemma Run_never_returns_on_empty_answers_witness :
  Run fetcher_new env_always_empty 9 = None.
Proof.
apply (Run_never_returns_on_empty_answers fetcher_new fetcher_3_25 env_always_empty
         {| TreeSize := 25 |});
  try reflexivity; try (cbn; unfold is_int64; lia).
Defined.

End never_returns.

(** ** scanner: [Fetcher.updateSTH] *)

Section updateSTH_facts.
Import scanner.

Lemma Retry_updateSTH_spec (f : Fetcher) (lastSize targetSize : Z) (att : nat -> sthAttempt) :
  forall (fuel n : nat) (f' : Fetcher) (err : bool),
    Retry_updateSTH f lastSize targetSize att fuel n = Some (f', err) ->
    exists m, (n <= m < n + fuel)%nat /\
      (forall j, (n <= j < m)%nat -> decisive lastSize targetSize (att j) = false) /\
      if err then ctxDone (att m) = true /\ f' = f
      else ctxDone (att m) = false /\
           exists s, gotSTH (att m) = Some s /\
             tooSmall lastSize targetSize (quick (att m)) s = false /\
             f' = {| opts := with_EndIndex (opts f) (int64 (TreeSize s)); sth := Some s |}.
Proof.
induction fuel as [|fuel IH]; intros n f' err H; [discriminate|].
cbn [Retry_updateSTH] in H.
assert (Hnext : Retry_updateSTH f lastSize targetSize att fuel (S n) = Some (f', err) ->
          decisive lastSize targetSize (att n) = false ->
          exists m, (n <= m < n + S fuel)%nat /\
            (forall j, (n <= j < m)%nat -> decisive lastSize targetSize (att j) = false) /\
            if err then ctxDone (att m) = true /\ f' = f
            else ctxDone (att m) = false /\
                 exists s, gotSTH (att m) = Some s /\
                   tooSmall lastSize targetSize (quick (att m)) s = false /\
                   f' = {| opts := with_EndIndex (opts f) (int64 (TreeSize s));
                           sth := Some s |}).
{ intros H' Hd. destruct (IH _ _ _ H') as (m & Hm & Hbefore & Hres).
  exists m. split; [lia|]. split; [|exact Hres].
  intros j Hj. destruct (Nat.eq_dec j n) as [->|]; [exact Hd | apply Hbefore; lia]. }
destruct (ctxDone (att n)) eqn:Hc.
- inversion H; subst. exists n. split; [lia|]. split; [intros; lia | auto].
- destruct (gotSTH (att n)) as [s|] eqn:Hg.
  + destruct (tooSmall lastSize targetSize (quick (att n)) s) eqn:Ht.
    * apply Hnext; [exact H|]. unfold decisive. rewrite Hc, Hg, Ht. reflexivity.
    * inversion H; subst. exists n. split; [lia|]. split; [intros; lia|].
      split; [exact Hc|]. exists s. auto.
  + apply Hnext; [exact H|]. unfold decisive. rewrite Hc, Hg. reflexivity.
Qed.

Lemma Retry_updateSTH_returns (f : Fetcher) (lastSize targetSize : Z) (att : nat -> sthAttempt) :
  forall (d n : nat),
    decisive lastSize targetSize (att (n + d)%nat) = true ->
    forall fuel, (d < fuel)%nat ->
      exists r, Retry_updateSTH f lastSize targetSize att fuel n = Some r.
Proof.
induction d as [|d IH]; intros n Hd [|fuel] Hf; try lia; cbn [Retry_updateSTH].
- rewrite Nat.add_0_r in Hd. unfold decisive in Hd.
  destruct (ctxDone (att n)); [eauto|]. cbn in Hd.
  destruct (gotSTH (att n)) as [s|]; [|discriminate].
  destruct (tooSmall _ _ _ s); [discriminate | eauto].
- destruct (ctxDone (att n)); [eauto|].
  assert (Hrec : exists r, Retry_updateSTH f lastSize targetSize att fuel (S n) = Some r).
  { apply IH; [|lia]. replace (S n + d)%nat with (n + S d)%nat by lia. exact Hd. }
  destruct (gotSTH (att n)) as [s|]; [|exact Hrec].
  destruct (tooSmall _ _ _ s); [exact Hrec | eauto].
Qed.

(** X24.  When [updateSTH] returns an error the Fetcher is unchanged.
    When it returns nil, the STH cached is one the log gave, its tree size
    is bigger than the old [EndIndex] (both as uint64), [EndIndex] is the
    new tree size and no other option has changed; if the STH was got
    before the quick deadline, the tree has grown by at least [BatchSize]
    (in uint64 arithmetic).  With an old [EndIndex] that is not negative
    and a tree of fewer than 2^63 entries the new [EndIndex] is bigger
    than the old one.  And [updateSTH] does return, once the context is
    done at an attempt or an attempt gets an STH that is big enough. *)
Theorem updateSTH_waits_for_a_bigger_tree (f : Fetcher) (att : nat -> sthAttempt) :
  (forall (fuel : nat) (f' : Fetcher) (err : bool),
     Fetcher_updateSTH f att fuel = Some (f', err) ->
     if err then f' = f
     else
       exists s,
         sth f' = Some s /\
         opts f' = with_EndIndex (opts f) (int64 (TreeSize s)) /\
         uint64 (EndIndex (opts f)) < TreeSize s /\
         (0 <= EndIndex (opts f) < 2 ^ 63 -> TreeSize s < 2 ^ 63 ->
          EndIndex (opts f) < EndIndex (opts f') < 2 ^ 63) /\
         exists m, gotSTH (att m) = Some s /\
           (quick (att m) = true ->
            uint64 (uint64 (EndIndex (opts f)) + uint64 (BatchSize (opts f)))
              <= TreeSize s)) /\
  (forall m : nat,
     decisive (uint64 (EndIndex (opts f)))
              (uint64 (uint64 (EndIndex (opts f)) + uint64 (BatchSize (opts f))))
              (att m) = true ->
     forall fuel, (m < fuel)%nat -> exists r, Fetcher_updateSTH f att fuel = Some r).
Proof.
split.
- unfold Fetcher_updateSTH. intros fuel f' err H.
  apply Retry_updateSTH_spec in H as (m & _ & _ & Hres).
  destruct err; [tauto|].
  destruct Hres as (_ & s & Hg & Ht & ->).
  unfold tooSmall in Ht. apply orb_false_elim in Ht as [Ht1 Ht2].
  apply Z.leb_gt in Ht1.
  exists s. split; [reflexivity|]. split; [reflexivity|]. split; [exact Ht1|]. split.
  + intros H0 H63. cbn.
    assert (0 <= uint64 (EndIndex (opts f)) < 2 ^ 64).
    { unfold uint64. apply Z.mod_pos_bound. lia. }
    rewrite int64_id by (unfold is_int64; unfold uint64 in *; lia).
    unfold uint64 in Ht1. rewrite Z.mod_small in Ht1 by lia. lia.
  + exists m. split; [exact Hg|]. intros Hq. rewrite Hq in Ht2. cbn in Ht2.
    apply Z.ltb_ge in Ht2. exact Ht2.
- intros m Hm fuel Hf. unfold Fetcher_updateSTH.
  apply (Retry_updateSTH_returns f _ _ att m 0); [exact Hm | exact Hf].
Qed.

(** Against [log_grows], from [EndIndex = 25] with [BatchSize = 10]: the
    failed [GetSTH] is retried, the tree of 29 entries got before the
    quick deadline is too small, the tree of 33 entries got after it is
    taken. *)
Example updateSTH_log_grows :
  Fetcher_updateSTH fetcher_3_25 log_grows 5 =
  Some ({| opts := {| BatchSize := 10; ParallelFetch := 2; StartIndex := 3;
                      EndIndex := 33; Continuous := false |};
           sth := Some {| TreeSize := 33 |} |}, false).
Proof. vm_compute. reflexivity. Qed.

End updateSTH_facts.


(** ** fixchain: the Logger drains; the Logger between calls *)

Section logger_drain.
Import x509 fixchain.

Lemma work_backlog (s s' : system) : work s s' -> (backlog s' < backlog s)%nat.
Proof.
intros [l cs1 c cs2 ws l' c' H | l cs ws1 w ws2 i reply l' w' H];
  unfold backlog; cbn [logger callers workers].
- apply QueueChain_step_case in H.
  destruct H; cbn [option_list option_rect app toPost with_reposted with_chainReposted
                   with_postChainCache with_wg with_toPost];
    rewrite ?sum_map_split, ?length_app; cbn [caller_backlog length]; lia.
- apply postServer_step_case in H. rewrite !sum_map_split.
  destruct H; cbn [toPost with_toPost with_active with_reposted with_posted
                   with_client with_errors with_postCertCache with_wg worker_backlog];
    try lia.
  pose proof (lookup_lt_Some _ _ _ H). rewrite length_delete by eauto. lia.
Qed.

Lemma work_callers (s s' : system) :
  work s s' ->
  Forall (fun c => chain_of c <> []) (callers s) ->
  Forall (fun c => chain_of c <> []) (callers s').
Proof.
intros [l cs1 c cs2 ws l' c' H | l cs ws1 w ws2 i reply l' w' H]; cbn; [|auto].
rewrite !Forall_app, Forall_cons. intros (H1 & Hc & H2).
split; [exact H1|]. split; [|exact H2].
apply QueueChain_step_case in H. destruct H; cbn; repeat constructor; exact Hc.
Qed.

Lemma work_workers (s s' : system) : work s s' -> workers s <> [] -> workers s' <> [].
Proof.
intros [l cs1 c cs2 ws l' c' H | l cs ws1 w ws2 i reply l' w' H]; cbn; [auto|].
intros _. destruct ws1; discriminate.
Qed.

Lemma not_Ready_split (ws : list worker) :
  Forall (fun w => w = Ready) ws \/
  exists ws1 w ws2, ws = ws1 ++ w :: ws2 /\ w <> Ready.
Proof.
induction ws as [|w ws IH]; [left; constructor|].
assert (w = Ready \/ w <> Ready) as [->|Hne]
  by (destruct w; first [left; reflexivity | right; discriminate]).
- destruct IH as [IH|(ws1 & w' & ws2 & -> & Hne)].
  + left. constructor; [reflexivity | exact IH].
  + right. exists (Ready :: ws1), w', ws2. split; [reflexivity | exact Hne].
- right. exists [], w, ws. split; [reflexivity | exact Hne].
Qed.


Lemma work_progress (s : system) :
  counters_inv s -> posts_inv s -> workers s <> [] ->
  Forall (fun c => chain_of c <> []) (callers s) ->
  backlog s <> 0%nat -> exists s', work s s'.
Proof.
intros Hci Hpi Hws Hcs Hb. destruct s as [l cs ws]. cbn [callers workers] in *.
destruct cs as [|c cs].
- destruct (not_Ready_split ws) as [Hall|(ws1 & w & ws2 & -> & Hne)].
  + destruct ws as [|w ws]; [congruence|].
    apply Forall_cons in Hall as [-> Hall].
    destruct (toPost l) as [|p tp] eqn:Htp.
    * exfalso. apply Hb. unfold backlog. cbn. rewrite Htp. cbn.
      apply sum_map_0. eapply Forall_impl; [exact Hall|]. intros w ->. reflexivity.
    * eexists. apply (w_worker l [] [] Ready ws 0 None). cbn. rewrite Htp. reflexivity.
  + destruct (worker_goes_on _ w 0 None Hci Hpi) as (l' & w' & Hstep);
      [cbn; apply elem_of_around; now left | exact Hne |].
    eexists. apply (w_worker l [] ws1 w ws2 0 None l' w'). exact Hstep.
- apply Forall_cons in Hcs as [Hc _].
  assert (exists l' c', QueueChain_step l c = Next (l', c')) as (l' & c' & Hstep).
  { destruct c as [[|c0 rest]|ch|ch|ch|ch|ch|ch]; cbn in *; try congruence; eauto.
    - destruct (lockedMap_get _ _); eauto.
    - destruct (lockedMap_get _ _); eauto. }
  eexists. apply (w_caller l [] c cs ws l' c'). exact Hstep.
Qed.

Lemma backlog_0 (s : system) :
  backlog s = 0%nat ->
  callers s = [] /\ toPost (logger s) = [] /\ Forall (fun w => w = Ready) (workers s).
Proof.
unfold backlog. intros H. split; [|split].
- destruct (callers s) as [|[] cs]; [reflexivity | cbn in H; lia..].
- destruct (toPost (logger s)); [reflexivity | cbn in H; lia].
- assert (H0 : sum_list (map worker_backlog (workers s)) = 0%nat) by lia.
  apply sum_map_0 in H0. eapply Forall_impl; [exact H0|].
  intros []; cbn; intros E; try discriminate; reflexivity.
Qed.

Lemma drain (n : nat) :
  forall s, (backlog s <= n)%nat ->
    counters_inv s -> posts_inv s -> workers s <> [] ->
    Forall (fun c => chain_of c <> []) (callers s) ->
    exists s', rtc work s s' /\ backlog s' = 0%nat.
Proof.
induction n as [|n IH]; intros s Hn Hc Hp Hw Hcs.
- exists s. split; [apply rtc_refl | lia].
- destruct (Nat.eq_dec (backlog s) 0%nat) as [H0|Hne].
  + exists s. split; [apply rtc_refl | exact H0].
  + destruct (work_progress s Hc Hp Hw Hcs Hne) as (s1 & Hstep).
    pose proof (work_backlog _ _ Hstep) as Hlt.
    destruct (IH s1 ltac:(lia)
                (counters_inv_work _ _ Hstep Hc) (posts_inv_work _ _ Hstep Hp)
                (work_workers _ _ Hstep Hw) (work_callers _ _ Hstep Hcs))
      as (s' & Hsteps & H0).
    exists s'. split; [eapply rtc_l; eauto | exact H0].
Qed.

Lemma work_rtc_backlog (s s' : system) :
  rtc work s s' -> (backlog s' <= backlog s)%nat.
Proof.
intros H. induction H as [|s1 s2 s3 Hstep _ IH]; [lia|].
apply work_backlog in Hstep. lia.
Qed.

Lemma work_rtc_callers (s s' : system) :
  rtc work s s' ->
  Forall (fun c => chain_of c <> []) (callers s) ->
  Forall (fun c => chain_of c <> []) (callers s').
Proof. intros H. induction H; eauto using work_callers. Qed.

Lemma work_rtc_sstep (s s' : system) : rtc work s s' -> rtc sstep s s'.
Proof. apply rtc_subrel. intros x y H. apply s_work. exact H. Qed.

Lemma Wait_of_counters (s : system) :
  counters_inv s -> callers s = [] -> toPost (logger s) = [] ->
  Forall (fun w => w = Ready) (workers s) -> Wait (logger s) = true.
Proof.
intros (Hwg & _) Hcs Htp Hw. unfold Wait. rewrite Hwg, Hcs, Htp. cbn.
assert (H0 : sum_list (map busy (workers s)) = 0%nat).
{ apply sum_map_0. eapply Forall_impl; [exact Hw|]. intros w ->. reflexivity. }
rewrite H0. reflexivity.
Qed.

(** X25.  A Logger with at least one worker drains, provided the log
    answers every call, the limiter lets every worker through and the
    errors sent are received.  From a reachable state in which no caller
    was given an empty chain, as long as no new call of [QueueChain] is
    made: every step of a running goroutine (a call of [QueueChain] under
    way, a [postServer]) strictly decreases [backlog]; as long as
    [backlog] is not 0 some running goroutine can step; and when
    [backlog] is 0 no call is under way, nothing is pending on [toPost],
    every worker is at its receive and [Wait] returns.  So every such run
    ends, after at most [backlog] steps, in a drained Logger, and there is
    such a run. *)
Theorem Logger_can_always_drain (workerCount : Z) (s : system) :
  rtc sstep (system0 workerCount) s -> 0 < workerCount ->
  Forall (fun c => chain_of c <> []) (callers s) ->
  (forall s1, rtc work s s1 ->
     (backlog s1 <= backlog s)%nat /\
     (forall s2, work s1 s2 -> (backlog s2 < backlog s1)%nat) /\
     (backlog s1 <> 0%nat -> exists s2, work s1 s2) /\
     (backlog s1 = 0%nat ->
      callers s1 = [] /\ toPost (logger s1) = [] /\
      Forall (fun w => w = Ready) (workers s1) /\ Wait (logger s1) = true)) /\
  exists s', rtc work s s' /\ callers s' = [] /\ toPost (logger s') = [] /\
    Forall (fun w => w = Ready) (workers s') /\ Wait (logger s') = true.
Proof.
intros Hreach Hwc Hcs.
assert (Hdrained : forall s2, rtc sstep (system0 workerCount) s2 -> backlog s2 = 0%nat ->
          callers s2 = [] /\ toPost (logger s2) = [] /\
          Forall (fun w => w = Ready) (workers s2) /\ Wait (logger s2) = true).
{ intros s2 Hreach2 H0. destruct (backlog_0 _ H0) as (Hcs2 & Htp2 & Hw2).
  repeat split; try assumption.
  apply (Wait_of_counters s2); try assumption.
  apply (logger_inv_reachable _ _ Hreach2). }
assert (Hws : forall s2, rtc sstep (system0 workerCount) s2 -> workers s2 <> []).
{ intros s2 Hreach2 E. apply (f_equal length) in E.
  rewrite (workers_length_reachable _ _ Hreach2) in E. cbn in E. lia. }
split.
- intros s1 Hrun.
  assert (Hreach1 : rtc sstep (system0 workerCount) s1)
    by (etrans; [exact Hreach | apply work_rtc_sstep; exact Hrun]).
  pose proof (logger_inv_reachable _ _ Hreach1) as (Hc1 & Hp1).
  split; [apply work_rtc_backlog; exact Hrun|].
  split; [intros s2; apply work_backlog|].
  split; [|apply Hdrained; exact Hreach1].
  apply work_progress; auto. eapply work_rtc_callers; eauto.
- pose proof (logger_inv_reachable _ _ Hreach) as (Hc & Hp).
  destruct (drain (backlog s) s (Nat.le_refl _) Hc Hp (Hws _ Hreach) Hcs)
    as (s' & Hsteps & H0).
  exists s'. split; [exact Hsteps|]. apply Hdrained; [|exact H0].
  etrans; [exact Hreach | apply work_rtc_sstep; exact Hsteps].
Qed.

Lemma Logger_can_always_drain_witness :
  (forall s1, rtc work system_posted_a s1 ->
     (backlog s1 <= backlog system_posted_a)%nat /\
     (forall s2, work s1 s2 -> (backlog s2 < backlog s1)%nat) /\
     (backlog s1 <> 0%nat -> exists s2, work s1 s2) /\
     (backlog s1 = 0%nat ->
      callers s1 = [] /\ toPost (logger s1) = [] /\
      Forall (fun w => w = Ready) (workers s1) /\ Wait (logger s1) = true)) /\
  exists s', rtc work system_posted_a s' /\ callers s' = [] /\ toPost (logger s') = [] /\
    Forall (fun w => w = Ready) (workers s') /\ Wait (logger s') = true.
Proof.
apply (Logger_can_always_drain 2 system_posted_a system_posted_a_reachable).
- lia.
- replace (callers system_posted_a) with (@nil caller) by (vm_compute; reflexivity).
  constructor.
Defined.

(** X26.  After any sequence of complete [QueueChain] calls and
    [postServer] iterations from [NewLogger], in any order and whatever the
    log answers: the WaitGroup counter is the number of chains waiting on
    [toPost], [active] is 0, [posted] is the number of [AddChain] calls
    and [queued = reposted + chainReposted + posted + len(toPost)] (both
    modulo 2^32), every chain on [toPost] has a leaf, and [IsPosted] holds
    only of certificates whose [hash] is that of the leaf of a chain given
    to [AddChain]. *)
Theorem Logger_counters_between_calls (l : Logger) :
  rtc step logger0 l ->
  wg l = Z.of_nat (length (toPost l)) /\
  active l = 0 /\
  posted l = Z.of_nat (length (addChainCalls (client l))) mod 2 ^ 32 /\
  queued l =
    (reposted l + chainReposted l + posted l + Z.of_nat (length (toPost l))) mod 2 ^ 32 /\
  (forall p, p ∈ toPost l -> chain p <> []) /\
  (forall cert, IsPosted l cert = true ->
     exists d, d ∈ addChainCalls (client l) /\ leaf_hash d = Some (hash cert)).
Proof.
intros ((Hwg & Hact & Hpost & Hq) & (Hne & _ & _ & _ & _ & _ & Hcache & _))
  %step_reachable%sstep1_sstep%logger_inv_reachable.
cbn [logger workers callers length map sum_list busy in_postChain posting got added] in *.
rewrite !Nat.add_0_r in *.
repeat split; try assumption.
intros cert H. apply Hcache. exact H.
Qed.

Lemma Logger_counters_between_calls_witness :
  wg logger3 = Z.of_nat (length (toPost logger3)) /\
  active logger3 = 0 /\
  posted logger3 = Z.of_nat (length (addChainCalls (client logger3))) mod 2 ^ 32.
Proof.
destruct (Logger_counters_between_calls logger3 logger3_step_reachable) as (H1 & H2 & H3 & _).
exact (conj H1 (conj H2 H3)).
Defined.

End logger_drain.

Section more_logger.
Import x509 fixchain.

(** X27.  A chain queued twice is sent to the workers at most once: in
    any state of the Logger, after a [QueueChain] call on a chain with a
    leaf, a second call on the same chain returns, counts the chain in
    [queued] and in one of [reposted] and [chainReposted], and changes
    nothing else: nothing is added to [toPost] or to the WaitGroup. *)
Theorem QueueChain_twice_posts_once
    (l l1 : Logger) (c : Certificate) (rest : list Certificate) :
  QueueChain l (Some (c :: rest)) = Some l1 ->
  exists l2,
    QueueChain l1 (Some (c :: rest)) = Some l2 /\
    toPost l2 = toPost l1 /\ wg l2 = wg l1 /\ client l2 = client l1 /\
    postCertCache l2 = postCertCache l1 /\ postChainCache l2 = postChainCache l1 /\
    queued l2 = AddUint32 (queued l1) 1 /\
    (reposted l2 = AddUint32 (reposted l1) 1 /\ chainReposted l2 = chainReposted l1 \/
     reposted l2 = reposted l1 /\ chainReposted l2 = AddUint32 (chainReposted l1) 1).
Proof.
rewrite !QueueChain_unfold. cbv zeta.
destruct (lockedMap_get (postCertCache l) (hash c)) eqn:Hcert.
- intros [= <-]. cbn. rewrite Hcert.
  eexists. split; [reflexivity|]. cbn. repeat split. left. split; reflexivity.
- destruct (lockedMap_get (postChainCache l) (hashChain (c :: rest))) eqn:Hchain.
  + intros [= <-]. cbn. rewrite Hcert, Hchain.
    eexists. split; [reflexivity|]. cbn. repeat split. right. split; reflexivity.
  + intros [= <-]. cbn. rewrite Hcert, lockedMap_get_set.
    destruct (decide _) as [_|Hne]; [|congruence].
    eexists. split; [reflexivity|]. cbn. repeat split. right. split; reflexivity.
Qed.

Lemma QueueChain_twice_posts_once_witness :
  exists l2,
    QueueChain logger1 (Some [cert_a]) = Some l2 /\
    toPost l2 = toPost logger1 /\ wg l2 = wg logger1 /\ client l2 = client logger1 /\
    postCertCache l2 = postCertCache logger1 /\
    postChainCache l2 = postChainCache logger1 /\
    queued l2 = AddUint32 (queued logger1) 1 /\
    (reposted l2 = AddUint32 (reposted logger1) 1 /\
       chainReposted l2 = chainReposted logger1 \/
     reposted l2 = reposted logger1 /\
       chainReposted l2 = AddUint32 (chainReposted logger1) 1).
Proof.
apply (QueueChain_twice_posts_once logger0 logger1 cert_a []).
vm_compute. reflexivity.
Defined.

(** X28.  When an iteration of [postServer] on a chain with leaf [c]
    returns and the log, if asked, accepted the chain: the chain is off
    [toPost], the WaitGroup counter is one less, [IsPosted(c)] is true,
    and a [QueueChain] call on any chain with leaf [c] is then counted in
    [queued] and [reposted] and sends nothing to the workers. *)
Theorem posted_leaf_is_not_queued_again
    (l l' : Logger) (i : nat) (p : toPost_t) (c : Certificate)
    (rest rest' : list Certificate) (wait : option string) :
  toPost l !! i = Some p ->
  chain p = c :: rest ->
  postServer l i wait None = Some l' ->
  IsPosted l' c = true /\
  toPost l' = delete i (toPost l) /\
  wg l' = wg l - 1 /\
  exists l'',
    QueueChain l' (Some (c :: rest')) = Some l'' /\
    toPost l'' = toPost l' /\ wg l'' = wg l' /\ client l'' = client l' /\
    reposted l'' = AddUint32 (reposted l') 1 /\
    queued l'' = AddUint32 (queued l') 1.
Proof.
intros Hp Hc. unfold postServer. rewrite Hp. cbv zeta.
change (active (with_toPost l (delete i (toPost l)))) with (active l).
set (l0 := with_active (with_toPost l (delete i (toPost l))) (AddUint32 (active l) 1)).
destruct (postChain l0 p wait None) as [l1|] eqn:E; [|discriminate].
intros Hfin. apply wg_Done_effect in Hfin as (_ & ->).
assert (H1 : lockedMap_get (postCertCache l1) (hash c) = true /\
             toPost l1 = delete i (toPost l) /\ wg l1 = wg l).
{ unfold postChain in E. rewrite Hc in E.
  destruct (lockedMap_get (postCertCache l0) (hash c)) eqn:Hget.
  - inversion E; subst l1. cbn. auto.
  - cbn in E. inversion E; subst l1. cbn. repeat split.
    rewrite lockedMap_get_set. destruct (decide _); congruence. }
destruct H1 as (Hget1 & Htp1 & Hwg1).
unfold IsPosted. cbn [postCertCache toPost wg with_wg with_active].
split; [exact Hget1|]. split; [exact Htp1|]. split; [lia|].
rewrite QueueChain_unfold. cbv zeta. cbn [postCertCache with_wg with_active].
rewrite Hget1.
eexists. split; [reflexivity|]. cbn. repeat split.
Qed.

Lemma posted_leaf_is_not_queued_again_witness :
  IsPosted logger3 cert_a = true /\
  toPost logger3 = delete 0%nat (toPost logger2) /\
  wg logger3 = wg logger2 - 1 /\
  exists l'',
    QueueChain logger3 (Some [cert_a; cert_b]) = Some l'' /\
    toPost l'' = toPost logger3 /\ wg l'' = wg logger3 /\ client l'' = client logger3 /\
    reposted l'' = AddUint32 (reposted logger3) 1 /\
    queued l'' = AddUint32 (queued logger3) 1.
Proof.
apply (posted_leaf_is_not_queued_again logger2 logger3 0 {| chain := [cert_a] |}
         cert_a [] [cert_b] None).
- vm_compute. reflexivity.
- reflexivity.
- vm_compute. reflexivity.
Defined.

Lemma no_workers_sstep (s s' : system) :
  sstep s s' -> workers s = [] ->
  workers s' = [] /\ client (logger s') = client (logger s) /\
  exists more, toPost (logger s') = toPost (logger s) ++ more.
Proof.
intros [l cs ws ch | s1 s2 [l cs1 c cs2 ws l' c' H | l cs ws1 w ws2 i reply l' w' H]];
  cbn [logger workers]; intros Hws.
- repeat split; [exact Hws|]. exists []. symmetry. apply app_nil_r.
- split; [exact Hws|]. apply QueueChain_step_case in H.
  destruct H; cbn; (split; [reflexivity|]);
    first [exists []; symmetry; apply app_nil_r | eexists; reflexivity].
- destruct ws1; discriminate.
Qed.

Lemma no_workers_rtc (s s' : system) :
  rtc sstep s s' -> workers s = [] ->
  workers s' = [] /\ client (logger s') = client (logger s) /\
  exists more, toPost (logger s') = toPost (logger s) ++ more.
Proof.
intros H. induction H as [s | s s1 s' Hstep _ IH]; intros Hws.
- repeat split; [exact Hws|]. exists []. symmetry. apply app_nil_r.
- destruct (no_workers_sstep _ _ Hstep Hws) as (Hws1 & Hcl1 & more1 & Htp1).
  destruct (IH Hws1) as (Hws' & Hcl' & more' & Htp').
  split; [exact Hws'|]. split; [congruence|].
  exists (more1 ++ more'). rewrite Htp', Htp1, app_assoc. reflexivity.
Qed.

(** X29.  [NewLogger] with a [workerCount] that is not positive starts
    no [postServer]: in every reachable state no [AddChain] call has been
    made, [posted] is 0 and [IsPosted] is false of every certificate;
    the sends pending on [toPost] are never received, and once one is
    pending [Wait] does not return in any later state. *)
Theorem NewLogger_without_workers (workerCount : Z) (s s' : system) (cert : Certificate) :
  workerCount <= 0 ->
  rtc sstep (system0 workerCount) s -> rtc sstep s s' ->
  workers s = [] /\
  addChainCalls (client (logger s)) = [] /\
  posted (logger s) = 0 /\
  IsPosted (logger s) cert = false /\
  (exists more, toPost (logger s') = toPost (logger s) ++ more) /\
  (toPost (logger s) <> [] -> Wait (logger s') = false).
Proof.
intros Hwc Hreach Hsteps.
assert (Hws0 : workers (system0 workerCount) = []).
{ cbn. replace (Z.to_nat workerCount) with 0%nat by lia. reflexivity. }
destruct (no_workers_rtc _ _ Hreach Hws0) as (Hws & Hcl & _).
destruct (no_workers_rtc _ _ Hsteps Hws) as (Hws' & _ & more & Htp).
pose proof (logger_inv_reachable _ _ Hreach) as ((_ & _ & Hposted & _) & (_ & _ & _ & _ & _ & _ & Hcache & _)).
assert (Hreach' : rtc sstep (system0 workerCount) s') by (etrans; eassumption).
pose proof (logger_inv_reachable _ _ Hreach') as ((Hwg' & _) & _).
cbn in Hcl.
split; [exact Hws|]. split; [rewrite Hcl; reflexivity|].
split; [rewrite Hposted, Hcl, Hws; reflexivity|].
split.
- unfold IsPosted. destruct (lockedMap_get _ _) eqn:E; [|reflexivity].
  destruct (Hcache _ E) as (d & Hd & _). rewrite Hcl in Hd. inversion Hd.
- split; [exists more; exact Htp|].
  intros Hne. unfold Wait. apply Z.eqb_neq. rewrite Hwg', Htp, length_app.
  destruct (toPost (logger s)); [congruence | cbn; lia].
Qed.

Lemma NewLogger_without_workers_witness :
  workers system_stuck = [] /\
  addChainCalls (client (logger system_stuck)) = [] /\
  posted (logger system_stuck) = 0 /\
  IsPosted (logger system_stuck) cert_a = false /\
  (exists more, toPost (logger system_stuck) = toPost (logger system_stuck) ++ more) /\
  (toPost (logger system_stuck) <> [] -> Wait (logger system_stuck) = false).
Proof.
apply (NewLogger_without_workers 0 system_stuck system_stuck cert_a).
- lia.
- exact system_stuck_reachable.
- apply rtc_refl.
Defined.

Example system_stuck_toPost :
  toPost (logger system_stuck) = [ {| chain := [cert_a] |} ] /\
  Wait (logger system_stuck) = false.
Proof. vm_compute. split; reflexivity. Qed.

End more_logger.
